(** * Moving-Earth: the credit-link particle field (assets/js/CreditLink.js)

    A shallow embedding of the two classes of [CreditLink.js]:
    [Particle] (one point of the text-shaped swarm) and [CreditLink] (the
    controller that owns the particles, the pointer and the explosion
    state).

    Numbers.  JavaScript numbers are idealised as real numbers: [+ - * /]
    are the field operations of [R], [Math.sqrt], [Math.sin], [Math.cos]
    are [sqrt], [sin], [cos], and [Math.PI] is [PI].  Rounding is not
    modelled, and neither are the non-finite values: a division by zero,
    which gives [Infinity] or [NaN] in the program, gives [0] here, so
    the statements that go through such a division carry the hypothesis
    that the divisor is not zero.  Integers of the host (canvas and window
    sizes, pixel indices, bytes of the image buffer) are [Z].

    Effects.  [Math.random()] is an explicit stream [nat -> R] given to
    each call that draws from it ([rnd i] is the [i]-th value drawn during
    the call); [Date.now()], the window and the canvas' layout box are read
    from a [Host] record, the snapshot of the browser at the time of the
    call; [setTimeout] is an entry of the list of effects a handler returns;
    an uncaught [TypeError] is the [ThrowTypeError] completion, and the
    [IndexSizeError] of [getImageData] on a canvas without width or height
    is the [ThrowIndexSizeError] completion.  Drawing commands
    ([clearRect], [arc], [fill]) change no state of the program and are
    left out. *)

From Stdlib Require Import Reals Lra Lia ZArith List Bool String.
Import ListNotations.
Open Scope R_scope.

(** ** JavaScript numbers *)

(** The relational operators [<], [<=], [>], [>=] on numbers. *)
Definition js_lt (a b : R) : bool := if Rlt_dec a b then true else false.
Definition js_le (a b : R) : bool := if Rle_dec a b then true else false.
Definition js_gt (a b : R) : bool := js_lt b a.
Definition js_ge (a b : R) : bool := js_le b a.

(** [ToNumber] on a value that is either a number or [null]: the
    arithmetic operators turn [null] into [+0]. *)
Definition ToNumber (v : option R) : R :=
  match v with
  | Some n => n
  | None => 0
  end.

(** [Math.atan2(y, x)]: the angle, in (-PI, PI], of the point [(x, y)];
    [0] at the origin. *)
Definition atan2 (y x : R) : R :=
  if Rlt_dec 0 x then atan (y / x)
  else if Rlt_dec x 0 then
    (if Rle_dec 0 y then atan (y / x) + PI else atan (y / x) - PI)
  else if Rlt_dec 0 y then PI / 2
  else if Rlt_dec y 0 then - (PI / 2)
  else 0.

(** [Math.floor]. *)
Definition floor (r : R) : Z := Int_part r.

(** An object [{ x, y }]. *)
Module Vec.
Record t : Type := mk { x : R; y : R }.
End Vec.

(** ** class Particle *)

Module Particle.

Record t : Type := mk {
  x : R;
  y : R;
  size : R;
  baseX : R;
  baseY : R;
  density : R;
  velocity : Vec.t;
  alpha : R;
  noise : Vec.t;
  noiseOffset : R
}.

(** Assignments to the fields the methods write. *)
Definition set_position (x1 y1 : R) (p : t) : t :=
  mk x1 y1 (size p) (baseX p) (baseY p) (density p) (velocity p) (alpha p)
     (noise p) (noiseOffset p).

Definition set_velocity (v : Vec.t) (p : t) : t :=
  mk (x p) (y p) (size p) (baseX p) (baseY p) (density p) v (alpha p)
     (noise p) (noiseOffset p).

Definition set_alpha (a : R) (p : t) : t :=
  mk (x p) (y p) (size p) (baseX p) (baseY p) (density p) (velocity p) a
     (noise p) (noiseOffset p).

(** [constructor(x, y)].  The four arguments [r_density], [r_noiseX],
    [r_noiseY], [r_offset] are the values of the four calls of
    [Math.random()], in the order of the calls. *)
Definition constructor (x0 y0 : R) (r_density r_noiseX r_noiseY r_offset : R) : t :=
  {| x := x0;
     y := y0;
     size := 1.25;
     baseX := x0;
     baseY := y0;
     density := r_density * 10 + 1;
     velocity := Vec.mk 0 0;
     alpha := 1;
     noise := Vec.mk (r_noiseX * 0.5 - 0.25) (r_noiseY * 0.5 - 0.25);
     noiseOffset := r_offset * 1000 |}.

(** The last four statements of both idle branches of [update]:
    integrate the position, then damp the velocity. *)
Definition integrate_and_damp (p : t) : t :=
  let p1 := set_position (x p + Vec.x (velocity p)) (y p + Vec.y (velocity p)) p in
  set_velocity (Vec.mk (Vec.x (velocity p1) * 0.9) (Vec.y (velocity p1) * 0.9)) p1.

(** [update(mouseX, mouseY, currentTime, isExploding, explosionStartTime,
    explosionDuration, fadeOutDuration)]. *)
Definition update (mouseX mouseY : option R) (currentTime : R) (isExploding : bool)
    (explosionStartTime explosionDuration fadeOutDuration : R) (p : t) : t :=
  if isExploding then
    let p1 := set_position (x p + Vec.x (velocity p)) (y p + Vec.y (velocity p)) p in
    let elapsedTime := currentTime - explosionStartTime in
    if js_gt elapsedTime (explosionDuration - fadeOutDuration) then
      set_alpha
        (1 - (elapsedTime - (explosionDuration - fadeOutDuration)) / fadeOutDuration)
        p1
    else p1
  else
    let dx := ToNumber mouseX - x p in
    let dy := ToNumber mouseY - y p in
    let distance := sqrt (dx * dx + dy * dy) in
    let maxDistance := 35 in
    if js_lt distance maxDistance then
      let force := (maxDistance - distance) / maxDistance in
      let angle := atan2 dy dx in
      let noiseX := sin (currentTime * 0.002 + noiseOffset p) * Vec.x (noise p) in
      let noiseY := cos (currentTime * 0.002 + noiseOffset p) * Vec.y (noise p) in
      let p1 :=
        set_velocity
          (Vec.mk (Vec.x (velocity p) + (cos angle * force * 0.1 + noiseX))
                  (Vec.y (velocity p) + (sin angle * force * 0.1 + noiseY))) p in
      integrate_and_damp p1
    else
      let returnForce := 0.05 in
      let p1 :=
        set_velocity
          (Vec.mk (Vec.x (velocity p) + (baseX p - x p) * returnForce)
                  (Vec.y (velocity p) + (baseY p - y p) * returnForce)) p in
      integrate_and_damp p1.

(** [explode()].  [r_angle] and [r_speed] are the values of the two calls
    of [Math.random()], in the order of the calls. *)
Definition explode (r_angle r_speed : R) (p : t) : t :=
  let angle := r_angle * PI * 2 in
  let speed := r_speed * 5 + 2 in
  set_velocity (Vec.mk (cos angle * speed) (sin angle * speed)) p.

(** The particles the program can hold before the first frame of an
    explosion: built by the constructor, then moved by idle frames and
    given a velocity by [explode]. *)
Inductive unfaded : t -> Prop :=
| unfaded_new : forall x0 y0 r1 r2 r3 r4,
    unfaded (constructor x0 y0 r1 r2 r3 r4)
| unfaded_idle : forall p mouseX mouseY currentTime start duration fade,
    unfaded p ->
    unfaded (update mouseX mouseY currentTime false start duration fade p)
| unfaded_explode : forall p r1 r2,
    unfaded p -> unfaded (explode r1 r2 p).

(** One animation frame as a particle sees it: the pointer and the clock
    that [animate] passes to [update]. *)
Record Frame : Type := mkFrame {
  frame_mouseX : option R;
  frame_mouseY : option R;
  frame_time : R
}.

(** The states of a particle after each of a run of explosion frames: one
    call of [update] with [isExploding = true] per frame, the explosion
    start and the two durations fixed. *)
Fixpoint explosion_trace (start duration fade : R) (frames : list Frame) (p : t)
    : list t :=
  match frames with
  | [] => []
  | f :: rest =>
      let p1 :=
        update (frame_mouseX f) (frame_mouseY f) (frame_time f) true
               start duration fade p in
      p1 :: explosion_trace start duration fade rest p1
  end.

End Particle.

(** ** The host: window, canvas, events *)

(** The value of [ctx.font]: the default of a fresh context, or the
    template string [550 <fontSize>px "Poppins", Arial, sans-serif]. *)
Inductive Font : Type :=
| DefaultFont
| CreditFont (fontSize : R).

(** The canvas element with the font of its 2D context. *)
Module Canvas.
Record t : Type := mk { width : Z; height : Z; font : Font }.
End Canvas.

(** The result of [getBoundingClientRect()]. *)
Module DOMRect.
Record t : Type := mk { left : R; top : R; width : R; height : R }.
End DOMRect.

(** The result of [getImageData]: [data] holds four bytes per pixel,
    row after row. *)
Module ImageData.
Record t : Type := mk { width : Z; height : Z; data : list Z }.
End ImageData.

(** What the browser answers at the time of one call.  [getImageData font
    text x y w h] is the buffer read back from a blank [w] by [h] canvas
    after [fillText(text, x, y)] in white with [font]. *)
Record Host : Type := mkHost {
  innerWidth : Z;
  innerHeight : Z;
  devicePixelRatio : R;
  now : R;
  measureText : Font -> string -> R;
  getImageData : Font -> string -> R -> R -> Z -> Z -> ImageData.t;
  getBoundingClientRect : DOMRect.t
}.

Record Touch : Type := mkTouch { touch_clientX : R; touch_clientY : R }.

(** The events the listeners receive. *)
Record MouseEvent : Type := mkMouseEvent { clientX : R; clientY : R }.
Record TouchEvent : Type := mkTouchEvent { touches : list Touch }.

(** The argument of [handleInteraction], by its [type]. *)
Inductive InteractionEvent : Type :=
| mousemove (e : MouseEvent)
| touchmove (e : TouchEvent)
| other_event.

(** What a handler asks of the host. *)
Inductive Effect : Type :=
| SetTimeoutRedirect (url : string) (delay : R)
| RequestAnimationFrame
| PreventDefault.

(** How a call ends: normally with its result, or by an uncaught
    [TypeError] or [IndexSizeError], with the object as it was when the
    error was thrown. *)
Inductive completion (A : Type) : Type :=
| Normal (result : A)
| ThrowTypeError (at_throw : A)
| ThrowIndexSizeError (at_throw : A).
Arguments Normal {A} result.
Arguments ThrowTypeError {A} at_throw.
Arguments ThrowIndexSizeError {A} at_throw.

(** The field and the effects a call leaves behind, however it ended. *)
Definition outcome {A : Type} (c : completion A) : A :=
  match c with
  | Normal result => result
  | ThrowTypeError at_throw => at_throw
  | ThrowIndexSizeError at_throw => at_throw
  end.

(** ** class CreditLink *)

Module CreditLink.

(** [this.mouse]: both coordinates are [null] until the first move. *)
Record Mouse : Type := mkMouse { mouse_x : option R; mouse_y : option R }.

Record t : Type := mk {
  canvas : Canvas.t;
  particles : list Particle.t;
  isExploding : bool;
  explosionStartTime : R;
  redirectURL : string;
  explosionDuration : R;
  fadeOutDuration : R;
  creditText : string;
  mouse : Mouse
}.

(** Assignments to the fields the methods write. *)
Definition set_canvas (c : Canvas.t) (st : t) : t :=
  mk c (particles st) (isExploding st) (explosionStartTime st) (redirectURL st)
     (explosionDuration st) (fadeOutDuration st) (creditText st) (mouse st).

Definition set_particles (ps : list Particle.t) (st : t) : t :=
  mk (canvas st) ps (isExploding st) (explosionStartTime st) (redirectURL st)
     (explosionDuration st) (fadeOutDuration st) (creditText st) (mouse st).

Definition set_isExploding (b : bool) (st : t) : t :=
  mk (canvas st) (particles st) b (explosionStartTime st) (redirectURL st)
     (explosionDuration st) (fadeOutDuration st) (creditText st) (mouse st).

Definition set_explosionStartTime (time : R) (st : t) : t :=
  mk (canvas st) (particles st) (isExploding st) time (redirectURL st)
     (explosionDuration st) (fadeOutDuration st) (creditText st) (mouse st).

Definition set_mouse (m : Mouse) (st : t) : t :=
  mk (canvas st) (particles st) (isExploding st) (explosionStartTime st)
     (redirectURL st) (explosionDuration st) (fadeOutDuration st) (creditText st) m.

(** [constructor(canvasId, redirectURL)]: [c] is the element found under
    [canvasId]; [redirectURL || default] takes the default for a missing or
    empty argument. *)
Definition constructor (c : Canvas.t) (url : option string) : t :=
  {| canvas := c;
     particles := [];
     isExploding := false;
     explosionStartTime := 0;
     redirectURL :=
       match url with
       | Some u => if String.eqb u EmptyString
                   then "https://jonaskjeldmand.vercel.app/"%string else u
       | None => "https://jonaskjeldmand.vercel.app/"%string
       end;
     explosionDuration := 1500;
     fadeOutDuration := 500;
     creditText := "Jonas Kjeldmand Jensen"%string;
     mouse := mkMouse None None |}.

(** [resizeCanvas()].  Assigning the width or height of a canvas resets
    its context, the font included. *)
Definition resizeCanvas (host : Host) (st : t) : t :=
  set_canvas (Canvas.mk (innerWidth host) (innerHeight host) DefaultFont) st.

(** [data.data[i] > 200]; an index past the buffer reads [undefined], and
    [undefined > 200] is false. *)
Definition alpha_above_200 (data : ImageData.t) (i : Z) : bool :=
  match nth_error (ImageData.data data) (Z.to_nat i) with
  | Some byte => (200 <? byte)%Z
  | None => false
  end.

(** The inner loop of [createParticles],
    [for (let x = ...; x < data.width; x += step)], from the given [x] on.
    The state of the loop is the array [this.particles] and the number
    [drawn] of values taken from [Math.random()] so far; [fuel] bounds the
    number of iterations. *)
Fixpoint scan_row (fuel : nat) (data : ImageData.t) (step y x : Z)
    (rnd : nat -> R) (acc : list Particle.t * nat) : list Particle.t * nat :=
  match fuel with
  | O => acc
  | S fuel' =>
      if (x <? ImageData.width data)%Z then
        let acc1 :=
          if alpha_above_200 data (y * 4 * ImageData.width data + x * 4 + 3)%Z then
            let drawn := snd acc in
            (fst acc ++
               [Particle.constructor (IZR x) (IZR y) (rnd drawn) (rnd (S drawn))
                  (rnd (S (S drawn))) (rnd (S (S (S drawn))))],
             S (S (S (S drawn))))
          else acc in
        scan_row fuel' data step y (x + step)%Z rnd acc1
      else acc
  end.

(** The outer loop, [for (let y = ...; y < data.height; y += step)], from
    the given [y] on; each row starts at [x = 0]. *)
Fixpoint scan_rows (fuel : nat) (data : ImageData.t) (step y : Z)
    (rnd : nat -> R) (acc : list Particle.t * nat) : list Particle.t * nat :=
  match fuel with
  | O => acc
  | S fuel' =>
      if (y <? ImageData.height data)%Z then
        scan_rows fuel' data step (y + step)%Z rnd
          (scan_row (Z.to_nat (ImageData.width data)) data step y 0%Z rnd acc)
      else acc
  end.

(** [Math.min(window.innerWidth / 20, 28)]. *)
Definition fontSize (host : Host) : R := Rmin (IZR (innerWidth host) / 20) 28.

(** [Math.max(1, Math.floor(3 * window.devicePixelRatio))]. *)
Definition step (host : Host) : Z := Z.max 1 (floor (3 * devicePixelRatio host)).

(** The buffer [createParticles] reads back after drawing the text. *)
Definition rendered_text (host : Host) (st : t) : ImageData.t :=
  let font := CreditFont (fontSize host) in
  let textWidth := measureText host font (creditText st) in
  let x := IZR (Canvas.width (canvas st)) - textWidth - 20 in
  let y := IZR (Canvas.height (canvas st)) - 20 in
  getImageData host font (creditText st) x y
    (Canvas.width (canvas st)) (Canvas.height (canvas st)).

(** [createParticles()].  [getImageData(0, 0, canvas.width, canvas.height)]
    throws an [IndexSizeError] when the width or the height of the canvas
    is 0; by then the particles are cleared and the font is set.  Since
    [step >= 1], a row ends within [data.width] iterations and the rows
    within [data.height]. *)
Definition createParticles (host : Host) (rnd : nat -> R) (st : t) : completion t :=
  let st1 := set_particles [] st in
  let st2 :=
    set_canvas (Canvas.mk (Canvas.width (canvas st1)) (Canvas.height (canvas st1))
                  (CreditFont (fontSize host))) st1 in
  if ((Canvas.width (canvas st2) =? 0)%Z || (Canvas.height (canvas st2) =? 0)%Z)%bool
  then ThrowIndexSizeError st2
  else
    let data := rendered_text host st2 in
    let scanned :=
      scan_rows (Z.to_nat (ImageData.height data)) data (step host) 0%Z rnd
        (particles st2, O) in
    Normal (set_particles (fst scanned) st2).

(** [handleResize()]. *)
Definition handleResize (host : Host) (rnd : nat -> R) (st : t) : completion t :=
  createParticles host rnd (resizeCanvas host st).

(** The coordinates both activation handlers and [handleInteraction]
    compute from a client position: [(client - rect.left) * scaleX] and
    [(client - rect.top) * scaleY]. *)
Definition to_canvas (host : Host) (st : t) (cX cY : R) : R * R :=
  let rect := getBoundingClientRect host in
  let scaleX := IZR (Canvas.width (canvas st)) / DOMRect.width rect in
  let scaleY := IZR (Canvas.height (canvas st)) / DOMRect.height rect in
  ((cX - DOMRect.left rect) * scaleX, (cY - DOMRect.top rect) * scaleY).

(** [handleInteraction(event)]. *)
Definition handleInteraction (host : Host) (event : InteractionEvent) (st : t)
    : completion (t * list Effect) :=
  match event with
  | mousemove e =>
      let pt := to_canvas host st (clientX e) (clientY e) in
      Normal (set_mouse (mkMouse (Some (fst pt)) (Some (snd pt))) st, [])
  | touchmove e =>
      match nth_error (touches e) 0 with
      | None => ThrowTypeError (st, [])
      | Some touch =>
          let pt := to_canvas host st (touch_clientX touch) (touch_clientY touch) in
          Normal (set_mouse (mkMouse (Some (fst pt)) (Some (snd pt))) st,
                  [PreventDefault])
      end
  | other_event => Normal (st, [])
  end.

(** The object [getTextBounds()] returns. *)
Record Bounds : Type := mkBounds {
  bounds_x : R; bounds_y : R; bounds_width : R; bounds_height : R
}.

(** [getTextBounds()]. *)
Definition getTextBounds (host : Host) (st : t) : Bounds :=
  let fontSize := Rmin (IZR (innerWidth host) / 20) 28 in
  let metrics_width := measureText host (Canvas.font (canvas st)) (creditText st) in
  {| bounds_x := IZR (Canvas.width (canvas st)) - metrics_width - 20;
     bounds_y := IZR (Canvas.height (canvas st)) - 20;
     bounds_width := metrics_width;
     bounds_height := fontSize * 1.2 |}.

(** The calls of [explode] made by [this.particles.forEach], in order;
    [drawn] counts the values taken from [Math.random()] so far. *)
Fixpoint explode_each (rnd : nat -> R) (drawn : nat) (ps : list Particle.t)
    : list Particle.t :=
  match ps with
  | [] => []
  | p :: rest =>
      Particle.explode (rnd drawn) (rnd (S drawn)) p
        :: explode_each rnd (S (S drawn)) rest
  end.

(** [startExplosion()]. *)
Definition startExplosion (host : Host) (rnd : nat -> R) (st : t) : t * list Effect :=
  let st1 := set_isExploding true st in
  let st2 := set_explosionStartTime (now host) st1 in
  let st3 := set_particles (explode_each rnd O (particles st2)) st2 in
  (st3, [SetTimeoutRedirect (redirectURL st3) (explosionDuration st3)]).

(** The test both activation handlers make on the point they computed. *)
Definition in_text_bounds (textBounds : Bounds) (pt : R * R) : bool :=
  js_ge (fst pt) (bounds_x textBounds)
  && js_le (fst pt) (bounds_x textBounds + bounds_width textBounds)
  && js_ge (snd pt) (bounds_y textBounds - bounds_height textBounds)
  && js_le (snd pt) (bounds_y textBounds).

(** [handleClick(event)]. *)
Definition handleClick (host : Host) (rnd : nat -> R) (event : MouseEvent) (st : t)
    : t * list Effect :=
  let click := to_canvas host st (clientX event) (clientY event) in
  let textBounds := getTextBounds host st in
  if in_text_bounds textBounds click then startExplosion host rnd st
  else (st, []).

(** [handleTouch(event)]: reading [clientX] of [event.touches[0]] throws
    when the list is empty. *)
Definition handleTouch (host : Host) (rnd : nat -> R) (event : TouchEvent) (st : t)
    : completion (t * list Effect) :=
  match nth_error (touches event) 0 with
  | None => ThrowTypeError (st, [])
  | Some touch0 =>
      let touch := to_canvas host st (touch_clientX touch0) (touch_clientY touch0) in
      let textBounds := getTextBounds host st in
      if in_text_bounds textBounds touch then Normal (startExplosion host rnd st)
      else Normal (st, [])
  end.

(** [animate()]: one frame. *)
Definition animate (host : Host) (st : t) : t * list Effect :=
  let currentTime := now host in
  (set_particles
     (map (Particle.update (mouse_x (mouse st)) (mouse_y (mouse st)) currentTime
             (isExploding st) (explosionStartTime st) (explosionDuration st)
             (fadeOutDuration st))
          (particles st)) st,
   [RequestAnimationFrame]).

(** [init()].  When [createParticles] throws, the call ends there: no
    listener is registered and no frame is run. *)
Definition init (host : Host) (rnd : nat -> R) (st : t) : completion (t * list Effect) :=
  match createParticles host rnd (resizeCanvas host st) with
  | Normal st1 => Normal (animate host st1)
  | ThrowTypeError st1 => ThrowTypeError (st1, [])
  | ThrowIndexSizeError st1 => ThrowIndexSizeError (st1, [])
  end.

End CreditLink.

(** ** The application object (the entry point) *)

Module App.

(** [App.creditLink] is [null] until [init] has built the field. *)
Record t : Type := mk { creditLink : option CreditLink.t }.

(** [App.init()].  [element] is what [document.getElementById] finds
    under ['credit-canvas']: without it, [new CreditLink(...)] throws a
    [TypeError] at [this.canvas.getContext] before [App.creditLink] is
    assigned.  With it, [App.creditLink] is assigned first and [init()]
    is called on it next; when that call throws, the field stays as the
    call left it.  The [catch] logs either error. *)
Definition init (element : option Canvas.t) (host : Host) (rnd : nat -> R) (app : t)
    : t * list Effect :=
  match element with
  | None => (app, [])
  | Some c =>
      let created :=
        CreditLink.constructor c (Some "https://jonaskjeldmand.vercel.app/"%string) in
      let started := outcome (CreditLink.init host rnd created) in
      (mk (Some (fst started)), snd started)
  end.

(** [App.handleResize()]; the [catch] logs an error of the field's
    [handleResize()]. *)
Definition handleResize (host : Host) (rnd : nat -> R) (app : t) : t :=
  match creditLink app with
  | Some field => mk (Some (outcome (CreditLink.handleResize host rnd field)))
  | None => app
  end.

End App.

(** ** The sphere sketch (sketch.js, p5.js global mode) *)

(** [map(value, start1, stop1, start2, stop2)] of p5.js, which does not
    clamp. *)
Definition p5_map (value start1 stop1 start2 stop2 : R) : R :=
  (value - start1) / (stop1 - start1) * (stop2 - start2) + start2.

(** [pow(x, y)] of p5.js, which is [Math.pow], for a base that is not
    negative: [pow(x, 0)] is 1 for every [x], [pow(0, y)] is 0 for a
    positive [y].  [pow(0, y)] with a negative [y] is [Infinity] in the
    program and is outside this model. *)
Definition js_pow (x y : R) : R :=
  if Req_dec_T y 0 then 1
  else if Req_dec_T x 0 then 0
  else Rpower x y.

Module Sketch.

(** The globals of the sketch, with [width] and [height] of p5.js. *)
Record t : Type := mk {
  n : Z;
  azimuthOffset : R;
  diameter : R;
  r : R;
  centreX : R;
  centreY : R;
  radius : R;
  width : R;
  height : R
}.

(** A call of [circle(x, y, d)] after [fill(0, 0, brightness)]. *)
Record Circle : Type := mkCircle {
  circle_x : R;
  circle_y : R;
  circle_d : R;
  brightness : R
}.

(** [recalculateParameters()]. *)
Definition recalculateParameters (s : t) : t :=
  let diameter1 := width s / IZR (n s) in
  let r1 := diameter1 / 2 in
  let centreX1 := width s / 2 in
  let centreY1 := centreX1 in
  mk (n s) (azimuthOffset s) diameter1 r1 centreX1 centreY1 (radius s)
     (width s) (height s).

(** [setup()]: [createCanvas(size, size)] sets [width] and [height]; the
    globals without an initial value are set by [recalculateParameters]
    before they are read. *)
Definition setup (windowWidth windowHeight : R) : t :=
  let size := Rmin windowWidth windowHeight * 0.95 in
  recalculateParameters (mk 75 0 0 0 0 0 3 size size).

(** [windowResized()]. *)
Definition windowResized (windowWidth windowHeight : R) (s : t) : t :=
  let size := Rmin windowWidth windowHeight * 0.95 in
  recalculateParameters
    (mk (n s) (azimuthOffset s) (diameter s) (r s) (centreX s) (centreY s)
        (radius s) size size).

(** [if (ns > 0.5) ns = 1; else ns = 0]. *)
Definition threshold (ns : R) : R := if js_gt ns 0.5 then 1 else 0.

(** The test [x * x + y * y > width/2 * (width/2)] for the cell in
    column [i] and row [j]. *)
Definition outside (s : t) (i j : Z) : bool :=
  let x := IZR i * diameter s + r s - centreX s in
  let y := IZR j * diameter s + r s - centreY s in
  js_gt (x * x + y * y) (width s / 2 * (width s / 2)).

(** The body of the inner loop of [draw()] for column [i] and row [j]:
    nothing for a cell that is skipped ([continue]), else the circle
    drawn.  [noise] is the noise function of p5.js. *)
Definition cell (noise : R -> R -> R -> R) (mouseY : R) (s : t) (i j : Z)
    : option Circle :=
  let x := IZR i * diameter s + r s - centreX s in
  let azimuth := p5_map (IZR i) 0 (IZR (n s - 1)) 0 PI + azimuthOffset s in
  let y := IZR j * diameter s + r s - centreY s in
  let inclination := p5_map (IZR j) 0 (IZR (n s - 1)) 0 PI in
  if js_gt (x * x + y * y) (width s / 2 * (width s / 2)) then None
  else
    let nx := radius s * sin inclination * cos azimuth in
    let ny := radius s * sin inclination * sin azimuth in
    let nz := radius s * cos inclination in
    let ns1 := noise (nx + 10) (ny + 10) (nz + 10) in
    let ns2 := noise (nx / 2 + 10) (ny / 2 + 10) (nz / 2 + 10) in
    let ns3 := noise (nx * 2 + 10) (ny * 2 + 10) (nz * 2 + 10) in
    let ns1 := threshold ns1 in
    let ns2 := threshold ns2 in
    let ns3 := threshold ns3 in
    let ns := (ns1 + ns2 + ns3) / 3 in
    let ns := js_pow ns (p5_map mouseY 0 (height s) 5 0) in
    Some (mkCircle (x + centreX s) (y + centreY s) (diameter s) (1 - ns)).

(** The values of a loop counter [for (let i = 0; i < n; i++)]. *)
Definition counter (n : Z) : list Z := map Z.of_nat (seq 0 (Z.to_nat n)).

(** [draw()]: the new globals and the circles drawn, in order. *)
Definition draw (noise : R -> R -> R -> R) (mouseX mouseY : R) (s : t)
    : t * list Circle :=
  let s1 :=
    mk (n s) (azimuthOffset s + p5_map mouseX 0 (width s) (-1) 1 * 0.05)
       (diameter s) (r s) (centreX s) (centreY s) (radius s) (width s) (height s) in
  (s1,
   flat_map
     (fun i =>
        flat_map
          (fun j =>
             match cell noise mouseY s1 i j with
             | Some c => [c]
             | None => []
             end)
          (counter (n s1)))
     (counter (n s1))).

End Sketch.

(** ** Notions the statements use

    The definitions of this part follow the wording of the specification,
    not the code; the statements below compare the code with them. *)

(** Time stamps that never go back. *)
Fixpoint nondecreasing (times : list R) : Prop :=
  match times with
  | [] => True
  | a :: rest =>
      match rest with
      | [] => True
      | b :: _ => a <= b /\ nondecreasing rest
      end
  end.

(** The opacity the fade-out prescribes at a given time since the start
    of the explosion: 1 until [duration - fade] has elapsed, then the
    linear ramp that reaches 0 at [duration]. *)
Definition fade_level (duration fade elapsed : R) : R :=
  if js_gt elapsed (duration - fade)
  then 1 - (elapsed - (duration - fade)) / fade
  else 1.

(** What the return-to-rest rule alone does to a particle in one frame:
    the spring force 0.05 * (base - position) is added to the velocity,
    the position moves by the velocity, and the velocity is damped by
    0.9. *)
Definition return_to_rest (p : Particle.t) : Particle.t :=
  let vx := Vec.x (Particle.velocity p) + 0.05 * (Particle.baseX p - Particle.x p) in
  let vy := Vec.y (Particle.velocity p) + 0.05 * (Particle.baseY p - Particle.y p) in
  Particle.set_velocity (Vec.mk (0.9 * vx) (0.9 * vy))
    (Particle.set_position (Particle.x p + vx) (Particle.y p + vy) p).

(** A particle fresh from the constructor, used to run the statements:
    at rest at (3, 4), with zero noise amplitudes. *)
Definition sample_particle : Particle.t := Particle.constructor 3 4 0.5 0.5 0.5 0.5.

(** The point [(px, py)] lies in the box of the credit text: between
    its left and right edges, and between its top and its bottom. *)
Definition inside_box (b : CreditLink.Bounds) (pt : R * R) : Prop :=
  CreditLink.bounds_x b <= fst pt <= CreditLink.bounds_x b + CreditLink.bounds_width b /\
  CreditLink.bounds_y b - CreditLink.bounds_height b <= snd pt <= CreditLink.bounds_y b.

(** The multiples of [stride] below [n]: 0, stride, 2 * stride, ... *)
Definition stride_axis (stride n : Z) : list Z :=
  map (fun k => (Z.of_nat k * stride)%Z)
      (seq 0 (Z.to_nat ((n + stride - 1) / stride))).

(** The cells of the stride grid of a [width] by [height] buffer, row
    after row, each row from left to right. *)
Definition stride_grid (stride width height : Z) : list (Z * Z) :=
  flat_map (fun y => map (fun x => (x, y)) (stride_axis stride width))
           (stride_axis stride height).

(** The alpha byte of the pixel in column [x] of row [y] exceeds 200. *)
Definition covered (data : ImageData.t) (cell : Z * Z) : bool :=
  match nth_error (ImageData.data data)
          (Z.to_nat (4 * (snd cell * ImageData.width data + fst cell) + 3)) with
  | Some a => (200 <? a)%Z
  | None => false
  end.

(** The sample points of a field: where its particles were created. *)
Definition sample_points (ps : list Particle.t) : list (R * R) :=
  map (fun p => (Particle.baseX p, Particle.baseY p)) ps.

Definition cell_point (cell : Z * Z) : R * R := (IZR (fst cell), IZR (snd cell)).

(** A particle as the constructor leaves it. *)
Definition at_rest (p : Particle.t) : Prop :=
  Particle.x p = Particle.baseX p /\ Particle.y p = Particle.baseY p /\
  Particle.velocity p = Vec.mk 0 0 /\ Particle.alpha p = 1.

(** A 4 by 4 buffer used to run the statements.  The alpha byte is 255
    at the pixels (3,0), (1,0) and (0,3), 200 at (3,3), and 0 elsewhere. *)
Definition tiny_image : ImageData.t :=
  ImageData.mk 4 4
    (map (fun i =>
            if (i =? 15)%nat then 255%Z
            else if (i =? 7)%nat then 255%Z
            else if (i =? 51)%nat then 255%Z
            else if (i =? 63)%nat then 200%Z
            else 0%Z)
         (seq 0 64)).

(** The browser of the scenarios, at a given time: a window 480 px wide
    (font size 24), the credit text 200 px wide, the canvas laid out at
    its own size of 1000 by 800. *)
Definition scenario_host (time : R) : Host :=
  {| innerWidth := 480;
     innerHeight := 800;
     devicePixelRatio := 1;
     now := time;
     measureText := fun _ _ => 200;
     getImageData := fun _ _ _ _ _ _ => tiny_image;
     getBoundingClientRect := DOMRect.mk 0 0 1000 800 |}.

Definition scenario_rnd : nat -> R := fun _ => 0.5.

(** The field of the scenarios: a 1000 by 800 canvas, one particle, idle. *)
Definition scenario_field : CreditLink.t :=
  CreditLink.set_particles [sample_particle]
    (CreditLink.set_canvas (Canvas.mk 1000 800 (CreditFont 24))
       (CreditLink.constructor (Canvas.mk 300 150 DefaultFont) None)).

(** The same field after an explosion was started at time 4000. *)
Definition exploding_field : CreditLink.t :=
  fst (CreditLink.startExplosion (scenario_host 4000) scenario_rnd scenario_field).

Definition click_inside : MouseEvent := mkMouseEvent 800 775.
Definition click_outside : MouseEvent := mkMouseEvent 50 50.

(** ** Notions of the further statements *)

(** The squared distance of a particle from its rest position. *)
Definition displacement2 (p : Particle.t) : R :=
  (Particle.x p - Particle.baseX p) * (Particle.x p - Particle.baseX p)
  + (Particle.y p - Particle.baseY p) * (Particle.y p - Particle.baseY p).

(** A quadratic measure of how far one coordinate is from rest, at
    displacement [e] and velocity [v]; it is zero only at rest. *)
Definition spring_energy (e v : R) : R := 0.045 * e * e + 0.05 * e * v + v * v.

Definition rest_energy (p : Particle.t) : R :=
  spring_energy (Particle.x p - Particle.baseX p) (Vec.x (Particle.velocity p))
  + spring_energy (Particle.y p - Particle.baseY p) (Vec.y (Particle.velocity p)).

(** The distance [update] computes between the pointer of a frame and
    the particle. *)
Definition pointer_distance (f : Particle.Frame) (p : Particle.t) : R :=
  sqrt ((ToNumber (Particle.frame_mouseX f) - Particle.x p)
        * (ToNumber (Particle.frame_mouseX f) - Particle.x p)
        + (ToNumber (Particle.frame_mouseY f) - Particle.y p)
          * (ToNumber (Particle.frame_mouseY f) - Particle.y p)).

(** One idle frame, and a run of idle frames: one call of [update] with
    [isExploding = false] per frame, as [animate] makes them while the
    field is not exploding (explosionStartTime 0, durations 1500 and
    500). *)
Definition idle_frame (f : Particle.Frame) (p : Particle.t) : Particle.t :=
  Particle.update (Particle.frame_mouseX f) (Particle.frame_mouseY f)
    (Particle.frame_time f) false 0 1500 500 p.

Fixpoint idle_frames (frames : list Particle.Frame) (p : Particle.t) : Particle.t :=
  match frames with
  | [] => p
  | f :: rest => idle_frames rest (idle_frame f p)
  end.

(** The pointer is at least 35 px away from the particle at every frame
    of the run. *)
Fixpoint pointer_stays_far (frames : list Particle.Frame) (p : Particle.t) : Prop :=
  match frames with
  | [] => True
  | f :: rest => 35 <= pointer_distance f p /\ pointer_stays_far rest (idle_frame f p)
  end.

(** The pointer is less than 35 px away at every frame of the run. *)
Fixpoint pointer_stays_near (frames : list Particle.Frame) (p : Particle.t) : Prop :=
  match frames with
  | [] => True
  | f :: rest => pointer_distance f p < 35 /\ pointer_stays_near rest (idle_frame f p)
  end.

(** A particle at any later time of its life: after any calls of
    [update] and [explode]. *)
Inductive later : Particle.t -> Particle.t -> Prop :=
| later_now : forall p, later p p
| later_update : forall p q mouseX mouseY time exploding start duration fade,
    later p q ->
    later p (Particle.update mouseX mouseY time exploding start duration fade q)
| later_explode : forall p q r1 r2,
    later p q -> later p (Particle.explode r1 r2 q).

(** The particles built for a list of cells, in order, each with the
    next four values of the random source, from the [drawn]-th on. *)
Fixpoint build_particles (rnd : nat -> R) (drawn : nat) (cells : list (Z * Z))
    : list Particle.t :=
  match cells with
  | [] => []
  | cell :: rest =>
      Particle.constructor (IZR (fst cell)) (IZR (snd cell))
        (rnd drawn) (rnd (S drawn)) (rnd (S (S drawn))) (rnd (S (S (S drawn))))
      :: build_particles rnd (S (S (S (S drawn)))) rest
  end.

(** The speed of a particle: the length of its velocity. *)
Definition speed (p : Particle.t) : R :=
  sqrt (Vec.x (Particle.velocity p) * Vec.x (Particle.velocity p)
        + Vec.y (Particle.velocity p) * Vec.y (Particle.velocity p)).

(** Where the point [(cx, cy)] of the canvas buffer is shown in the
    window: the buffer is stretched over the layout box of the canvas. *)
Definition client_of_canvas (host : Host) (st : CreditLink.t) (pt : R * R) : R * R :=
  let rect := getBoundingClientRect host in
  (DOMRect.left rect
   + fst pt * DOMRect.width rect / IZR (Canvas.width (CreditLink.canvas st)),
   DOMRect.top rect
   + snd pt * DOMRect.height rect / IZR (Canvas.height (CreditLink.canvas st))).

(** What the browser delivers to the field: the events of the listeners
    that [init] registers ([mousemove] and [touchmove] on the window,
    [click] and [touchend] on the canvas), a resize of the window, and an
    animation frame. *)
Inductive Event : Type :=
| ev_resize
| ev_move (e : InteractionEvent)
| ev_click (e : MouseEvent)
| ev_touchend (e : TouchEvent)
| ev_frame.

(** One delivery.  An error thrown by a listener is reported by the
    browser, the one of a resize is caught by [App.handleResize], and the
    page goes on with the field as the listener left it. *)
Definition deliver (host : Host) (rnd : nat -> R) (ev : Event) (st : CreditLink.t)
    : CreditLink.t * list Effect :=
  match ev with
  | ev_resize => (outcome (CreditLink.handleResize host rnd st), [])
  | ev_move e => outcome (CreditLink.handleInteraction host e st)
  | ev_click e => CreditLink.handleClick host rnd e st
  | ev_touchend e => outcome (CreditLink.handleTouch host rnd e st)
  | ev_frame => CreditLink.animate host st
  end.

(** A delivery with the browser and the random values of its time. *)
Record Occurrence : Type := mkOccurrence {
  occ_host : Host;
  occ_rnd : nat -> R;
  occ_event : Event
}.

(** A sequence of deliveries, with all the effects asked, in order. *)
Fixpoint run (occs : list Occurrence) (st : CreditLink.t) : CreditLink.t * list Effect :=
  match occs with
  | [] => (st, [])
  | o :: rest =>
      let r1 := deliver (occ_host o) (occ_rnd o) (occ_event o) st in
      let r2 := run rest (fst r1) in
      (fst r2, snd r1 ++ snd r2)
  end.

(** The effect is a redirect timer. *)
Definition is_redirect (e : Effect) : bool :=
  match e with
  | SetTimeoutRedirect _ _ => true
  | _ => false
  end.

(** The occurrence is a resize. *)
Definition is_resize (o : Occurrence) : bool :=
  match occ_event o with
  | ev_resize => true
  | _ => false
  end.

(** The scenario of an explosion started again: the text of the scenario
    field is clicked at time 4000 and a frame is drawn at 5400; the text
    is clicked again at 5450, and frames are drawn at 5460 and at 6500. *)
Definition restart_scenario : list Occurrence :=
  [mkOccurrence (scenario_host 4000) scenario_rnd (ev_click click_inside);
   mkOccurrence (scenario_host 5400) scenario_rnd ev_frame;
   mkOccurrence (scenario_host 5450) scenario_rnd (ev_click click_inside);
   mkOccurrence (scenario_host 5460) scenario_rnd ev_frame;
   mkOccurrence (scenario_host 6500) scenario_rnd ev_frame].

(** The browser of the scenarios with another buffer read back. *)
Definition host_showing (image : ImageData.t) : Host :=
  {| innerWidth := 480;
     innerHeight := 800;
     devicePixelRatio := 1;
     now := 0;
     measureText := fun _ _ => 200;
     getImageData := fun _ _ _ _ _ _ => image;
     getBoundingClientRect := DOMRect.mk 0 0 1000 800 |}.

(** [n] animation frames in a row, one per snapshot of the browser. *)
Definition frames_at (hosts : list Host) : list Occurrence :=
  map (fun host => mkOccurrence host (fun _ => 0) ev_frame) hosts.

(** The distance between the positions of two particles. *)
Definition distance_between (p q : Particle.t) : R :=
  sqrt ((Particle.x q - Particle.x p) * (Particle.x q - Particle.x p)
        + (Particle.y q - Particle.y p) * (Particle.y q - Particle.y p)).

(** The ranges in which the constructor puts the fields it draws at
    random, and the size it sets. *)
Definition as_constructed (p : Particle.t) : Prop :=
  Particle.size p = 1.25 /\
  1 <= Particle.density p < 11 /\
  -0.25 <= Vec.x (Particle.noise p) < 0.25 /\
  -0.25 <= Vec.y (Particle.noise p) < 0.25 /\
  0 <= Particle.noiseOffset p < 1000.

(** Every value of the random source is in [0, 1), as [Math.random()]
    promises. *)
Definition unit_source (rnd : nat -> R) : Prop := forall i, 0 <= rnd i < 1.

(** ** Comparisons *)

Lemma js_lt_true (a b : R) : a < b -> js_lt a b = true.
Proof. intros H. unfold js_lt. destruct (Rlt_dec a b); [reflexivity | contradiction]. Qed.

Lemma js_lt_false (a b : R) : b <= a -> js_lt a b = false.
Proof. intros H. unfold js_lt. destruct (Rlt_dec a b); [lra | reflexivity]. Qed.

Lemma js_le_true (a b : R) : a <= b -> js_le a b = true.
Proof. intros H. unfold js_le. destruct (Rle_dec a b); [reflexivity | contradiction]. Qed.

Lemma js_gt_true (a b : R) : b < a -> js_gt a b = true.
Proof. apply js_lt_true. Qed.

Lemma js_gt_false (a b : R) : a <= b -> js_gt a b = false.
Proof. apply js_lt_false. Qed.

Lemma js_le_iff (a b : R) : js_le a b = true <-> a <= b.
Proof.
  split; [| apply js_le_true].
  unfold js_le. destruct (Rle_dec a b); [trivial | discriminate].
Qed.

(** ** The fade-out of an exploding particle *)

Arguments Particle.update : simpl never.
Arguments Particle.explode : simpl never.

Lemma fade_level_early (duration fade elapsed : R) :
  elapsed <= duration - fade -> fade_level duration fade elapsed = 1.
Proof. intros H. unfold fade_level. now rewrite js_gt_false. Qed.

Lemma fade_level_late (duration fade elapsed : R) :
  duration - fade < elapsed ->
  fade_level duration fade elapsed = 1 - (elapsed - (duration - fade)) / fade.
Proof. intros H. unfold fade_level. now rewrite js_gt_true. Qed.

Lemma fade_level_le_1 (duration fade elapsed : R) :
  0 < fade -> fade_level duration fade elapsed <= 1.
Proof.
  intros Hf. unfold fade_level, js_gt, js_lt.
  destruct (Rlt_dec (duration - fade) elapsed) as [H | H]; [| lra].
  assert (0 < (elapsed - (duration - fade)) / fade).
  { apply Rdiv_lt_0_compat; lra. }
  lra.
Qed.

Lemma fade_level_antitone (duration fade e1 e2 : R) :
  0 < fade -> e1 <= e2 ->
  fade_level duration fade e2 <= fade_level duration fade e1.
Proof.
  intros Hf Hle. unfold fade_level, js_gt, js_lt.
  destruct (Rlt_dec (duration - fade) e1) as [H1 | H1];
    destruct (Rlt_dec (duration - fade) e2) as [H2 | H2]; try lra.
  - assert ((e1 - (duration - fade)) / fade <= (e2 - (duration - fade)) / fade).
    { unfold Rdiv. apply Rmult_le_compat_r; [| lra].
      left. now apply Rinv_0_lt_compat. }
    lra.
  - assert (0 < (e2 - (duration - fade)) / fade).
    { apply Rdiv_lt_0_compat; lra. }
    lra.
Qed.

(** An idle frame and [explode] leave the opacity alone, so it is still
    the constructor's 1 when the explosion starts. *)
Lemma unfaded_alpha (p : Particle.t) : Particle.unfaded p -> Particle.alpha p = 1.
Proof.
  induction 1 as [| p mX mY time start duration fade _ IH | p r1 r2 _ IH].
  - reflexivity.
  - unfold Particle.update.
    destruct (js_lt _ _); exact IH.
  - exact IH.
Qed.

(** One explosion frame touches neither rest coordinate. *)
Lemma update_exploding_base (mX mY : option R) (time start duration fade : R)
    (p : Particle.t) :
  let q := Particle.update mX mY time true start duration fade p in
  Particle.baseX q = Particle.baseX p /\ Particle.baseY q = Particle.baseY p.
Proof.
  unfold Particle.update. destruct (js_gt _ _); split; reflexivity.
Qed.

(** One explosion frame brings the opacity to the level of its own time,
    provided it was at the level of an earlier time. *)
Lemma update_exploding_alpha (mX mY : option R) (time start duration fade e0 : R)
    (p : Particle.t) :
  Particle.alpha p = fade_level duration fade e0 ->
  e0 <= time - start ->
  Particle.alpha (Particle.update mX mY time true start duration fade p)
  = fade_level duration fade (time - start).
Proof.
  intros Ha Hle. unfold Particle.update, fade_level in *.
  unfold js_gt, js_lt in *.
  destruct (Rlt_dec (duration - fade) (time - start)) as [H | H]; simpl.
  - reflexivity.
  - rewrite Ha. destruct (Rlt_dec (duration - fade) e0); [lra | reflexivity].
Qed.

(** One explosion frame leaves the opacity alone until [duration - fade]
    has elapsed since the start it is given, and overwrites it with the
    ramp after that, whatever it was. *)
Lemma update_exploding_alpha_step (mX mY : option R) (time start duration fade : R)
    (p : Particle.t) :
  let q := Particle.update mX mY time true start duration fade p in
  (time - start <= duration - fade -> Particle.alpha q = Particle.alpha p) /\
  (duration - fade < time - start ->
   Particle.alpha q = 1 - (time - start - (duration - fade)) / fade).
Proof.
  unfold Particle.update, js_gt, js_lt.
  destruct (Rlt_dec (duration - fade) (time - start)) as [H | H]; simpl;
    split; intros H'; try reflexivity; lra.
Qed.

Lemma explosion_trace_length (start duration fade : R) (frames : list Particle.Frame)
    (p : Particle.t) :
  List.length (Particle.explosion_trace start duration fade frames p)
  = List.length frames.
Proof.
  revert p. induction frames as [| f rest IH]; intros p; simpl; [reflexivity |].
  now rewrite IH.
Qed.

Lemma nondecreasing_tail (a : R) (rest : list R) :
  nondecreasing (a :: rest) -> nondecreasing rest.
Proof. destruct rest as [| b rest]; simpl; tauto. Qed.

Lemma nondecreasing_head (a : R) (rest : list R) :
  nondecreasing (a :: rest) -> forall b, In b rest -> a <= b.
Proof.
  revert a. induction rest as [| c rest IH]; intros a H b Hin; [contradiction |].
  destruct H as [Hac Hrest]. destruct Hin as [-> | Hin]; [exact Hac |].
  apply Rle_trans with c; [exact Hac | now apply IH].
Qed.

(** Along a run of explosion frames whose clock never goes back, the
    opacity after each frame is the level of that frame's time. *)
Lemma explosion_trace_alpha (start duration fade : R) (frames : list Particle.Frame) :
  nondecreasing (map Particle.frame_time frames) ->
  forall (p : Particle.t) (e0 : R),
    Particle.alpha p = fade_level duration fade e0 ->
    (forall f, In f frames -> e0 <= Particle.frame_time f - start) ->
    forall k f q,
      nth_error frames k = Some f ->
      nth_error (Particle.explosion_trace start duration fade frames p) k = Some q ->
      Particle.alpha q = fade_level duration fade (Particle.frame_time f - start).
Proof.
  induction frames as [| f0 rest IH]; intros Hmono p e0 Ha Hlow k f q Hf Hq.
  - destruct k; discriminate.
  - simpl in Hq. destruct k as [| k]; simpl in Hf, Hq.
    + injection Hf as <-. injection Hq as <-.
      apply update_exploding_alpha with (e0 := e0); [exact Ha |].
      apply Hlow. now left.
    + apply IH with (p := Particle.update (Particle.frame_mouseX f0)
                            (Particle.frame_mouseY f0) (Particle.frame_time f0)
                            true start duration fade p)
                    (e0 := Particle.frame_time f0 - start) (k := k);
        [ | | | exact Hf | exact Hq].
      * now apply nondecreasing_tail in Hmono.
      * apply update_exploding_alpha with (e0 := e0); [exact Ha |].
        apply Hlow. now left.
      * intros g Hg.
        assert (Particle.frame_time f0 <= Particle.frame_time g).
        { apply nondecreasing_head with (map Particle.frame_time rest);
            [exact Hmono | now apply in_map]. }
        lra.
Qed.

Lemma explosion_trace_alpha_unfaded (start duration fade : R)
    (frames : list Particle.Frame) (p : Particle.t) :
  Particle.unfaded p ->
  nondecreasing (map Particle.frame_time frames) ->
  forall k f q,
    nth_error frames k = Some f ->
    nth_error (Particle.explosion_trace start duration fade frames p) k = Some q ->
    Particle.alpha q = fade_level duration fade (Particle.frame_time f - start).
Proof.
  intros Hp Hmono k f q Hf Hq.
  destruct frames as [| f0 rest]; [destruct k; discriminate |].
  apply explosion_trace_alpha
    with (frames := f0 :: rest) (p := p) (k := k)
         (e0 := Rmin (duration - fade) (Particle.frame_time f0 - start));
    try assumption.
  - rewrite fade_level_early by apply Rmin_l. now apply unfaded_alpha.
  - intros g [<- | Hg].
    + apply Rmin_r.
    + assert (Particle.frame_time f0 <= Particle.frame_time g).
      { apply nondecreasing_head with (map Particle.frame_time rest);
          [exact Hmono | now apply in_map]. }
      pose proof (Rmin_r (duration - fade) (Particle.frame_time f0 - start)). lra.
Qed.

Lemma explosion_trace_defined (start duration fade : R) (frames : list Particle.Frame)
    (p : Particle.t) (k : nat) :
  (exists f, nth_error frames k = Some f) <->
  (exists q, nth_error (Particle.explosion_trace start duration fade frames p) k = Some q).
Proof.
  pose proof (explosion_trace_length start duration fade frames p) as Hlen.
  split; intros [v Hv].
  - destruct (nth_error (Particle.explosion_trace start duration fade frames p) k)
      as [q |] eqn:E; [now exists q |].
    apply nth_error_None in E. assert (nth_error frames k <> None) as Hn by congruence.
    apply nth_error_Some in Hn. lia.
  - destruct (nth_error frames k) as [f |] eqn:E; [now exists f |].
    apply nth_error_None in E.
    assert (nth_error (Particle.explosion_trace start duration fade frames p) k <> None)
      as Hn by congruence.
    apply nth_error_Some in Hn. lia.
Qed.

Lemma explosion_trace_base (start duration fade : R) (frames : list Particle.Frame) :
  forall (p q : Particle.t),
    In q (Particle.explosion_trace start duration fade frames p) ->
    Particle.baseX q = Particle.baseX p /\ Particle.baseY q = Particle.baseY p.
Proof.
  induction frames as [| f rest IH]; intros p q Hq; [contradiction |].
  simpl in Hq.
  pose proof (update_exploding_base (Particle.frame_mouseX f) (Particle.frame_mouseY f)
                (Particle.frame_time f) start duration fade p) as [Hx Hy].
  destruct Hq as [<- | Hq]; [now split |].
  apply IH in Hq. destruct Hq as [Hx' Hy']. split; congruence.
Qed.

Lemma nondecreasing_consecutive (times : list R) :
  nondecreasing times ->
  forall k a b, nth_error times k = Some a -> nth_error times (S k) = Some b -> a <= b.
Proof.
  induction times as [| t rest IH]; intros Hmono k a b Ha Hb.
  - destruct k; discriminate.
  - destruct k as [| k].
    + simpl in Ha, Hb. injection Ha as <-.
      apply nondecreasing_head with rest; [exact Hmono |].
      now apply nth_error_In with O.
    + apply IH with k; [now apply nondecreasing_tail in Hmono | exact Ha | exact Hb].
Qed.

(** ** Angles *)

Lemma hypot_scale (x y : R) :
  x <> 0 -> sqrt (x * x + y * y) = Rabs x * sqrt (1 + (y / x)²).
Proof.
  intros Hx.
  assert (0 <= 1 + (y / x)²) as Hs by (pose proof (Rle_0_sqr (y / x)); lra).
  apply sqrt_lem_1.
  - nra.
  - apply Rmult_le_pos; [apply Rabs_pos | apply sqrt_pos].
  - replace (Rabs x * sqrt (1 + (y / x)²) * (Rabs x * sqrt (1 + (y / x)²)))
      with ((Rabs x * Rabs x) * (sqrt (1 + (y / x)²) * sqrt (1 + (y / x)²))) by ring.
    rewrite sqrt_sqrt by exact Hs.
    replace (Rabs x * Rabs x) with (x * x).
    + unfold Rsqr. field. exact Hx.
    + unfold Rabs. destruct (Rcase_abs x); ring.
Qed.

(** The angle [Math.atan2(y, x)] points from the origin to [(x, y)]. *)
Lemma cos_sin_atan2 (y x : R) :
  0 < sqrt (x * x + y * y) ->
  cos (atan2 y x) = x / sqrt (x * x + y * y) /\
  sin (atan2 y x) = y / sqrt (x * x + y * y).
Proof.
  intros Hd. unfold atan2.
  assert (forall s, 0 < s -> s <> 0) as Hne by (intros; lra).
  destruct (Rlt_dec 0 x) as [Hpos | Hnpos].
  - pose proof (sqrt_lt_R0 (1 + (y / x)²)) as Hs.
    assert (0 < 1 + (y / x)²) as H1 by (pose proof (Rle_0_sqr (y / x)); lra).
    specialize (Hs H1).
    rewrite cos_atan, sin_atan, hypot_scale by lra.
    rewrite Rabs_pos_eq by lra. split; field; split; lra.
  - destruct (Rlt_dec x 0) as [Hneg | Hnneg].
    + pose proof (sqrt_lt_R0 (1 + (y / x)²)) as Hs.
      assert (0 < 1 + (y / x)²) as H1 by (pose proof (Rle_0_sqr (y / x)); lra).
      specialize (Hs H1).
      rewrite hypot_scale by lra. rewrite Rabs_left by lra.
      destruct (Rle_dec 0 y).
      * rewrite neg_cos, neg_sin, cos_atan, sin_atan. split; field; split; lra.
      * unfold Rminus. rewrite cos_plus, sin_plus, cos_neg, sin_neg, cos_PI, sin_PI.
        rewrite cos_atan, sin_atan. split; field; split; lra.
    + assert (x = 0) as -> by lra.
      replace (0 * 0 + y * y) with (y * y) in * by ring.
      destruct (Rlt_dec 0 y) as [Hy | Hy].
      * rewrite sqrt_square by lra. rewrite cos_PI2, sin_PI2. split; field; lra.
      * destruct (Rlt_dec y 0) as [Hy' | Hy'].
        -- replace (y * y) with ((- y) * (- y)) by ring.
           rewrite sqrt_square by lra. rewrite cos_neg, sin_neg, cos_PI2, sin_PI2.
           split; field; lra.
        -- assert (y = 0) as -> by lra.
           replace (0 * 0) with 0 in Hd by ring. rewrite sqrt_0 in Hd. lra.
Qed.

(** ** explode *)

(** C7. For all values r1, r2 in [0,1) of the random source, explode()
    sets the velocity to the vector of length 5*r2 + 2, which lies in
    [2,7), at the angle 2*PI*r1, which lies in [0, 2*PI); it changes no
    other field of the particle. *)
Theorem explode_speed_and_direction (r1 r2 : R) (p : Particle.t) :
  0 <= r1 < 1 ->
  0 <= r2 < 1 ->
  let q := Particle.explode r1 r2 p in
  Particle.velocity q
  = Vec.mk ((5 * r2 + 2) * cos (2 * PI * r1)) ((5 * r2 + 2) * sin (2 * PI * r1)) /\
  sqrt (Vec.x (Particle.velocity q) * Vec.x (Particle.velocity q)
        + Vec.y (Particle.velocity q) * Vec.y (Particle.velocity q))
  = 5 * r2 + 2 /\
  2 <= 5 * r2 + 2 < 7 /\
  0 <= 2 * PI * r1 < 2 * PI /\
  Particle.x q = Particle.x p /\ Particle.y q = Particle.y p /\
  Particle.size q = Particle.size p /\
  Particle.baseX q = Particle.baseX p /\ Particle.baseY q = Particle.baseY p /\
  Particle.density q = Particle.density p /\
  Particle.alpha q = Particle.alpha p /\
  Particle.noise q = Particle.noise p /\
  Particle.noiseOffset q = Particle.noiseOffset p.
Proof.
  intros Hr1 Hr2 q. subst q. unfold Particle.explode. simpl.
  replace (r1 * PI * 2) with (2 * PI * r1) by ring.
  replace (r2 * 5 + 2) with (5 * r2 + 2) by ring.
  split; [f_equal; ring |].
  split.
  - apply sqrt_lem_1; [nra | lra |].
    pose proof (sin2_cos2 (2 * PI * r1)) as Hunit. unfold Rsqr in Hunit.
    replace (cos (2 * PI * r1) * (5 * r2 + 2) * (cos (2 * PI * r1) * (5 * r2 + 2))
             + sin (2 * PI * r1) * (5 * r2 + 2) * (sin (2 * PI * r1) * (5 * r2 + 2)))
      with ((5 * r2 + 2) * (5 * r2 + 2)
            * (sin (2 * PI * r1) * sin (2 * PI * r1)
               + cos (2 * PI * r1) * cos (2 * PI * r1))) by ring.
    rewrite Hunit. ring.
  - pose proof PI_RGT_0 as Hpi.
    repeat split; try reflexivity; try lra; nra.
Qed.

Lemma explode_speed_and_direction_witness :
  let q := Particle.explode 0.25 0.5 sample_particle in
  Particle.velocity q
  = Vec.mk ((5 * 0.5 + 2) * cos (2 * PI * 0.25)) ((5 * 0.5 + 2) * sin (2 * PI * 0.25)) /\
  sqrt (Vec.x (Particle.velocity q) * Vec.x (Particle.velocity q)
        + Vec.y (Particle.velocity q) * Vec.y (Particle.velocity q))
  = 5 * 0.5 + 2 /\
  2 <= 5 * 0.5 + 2 < 7 /\
  0 <= 2 * PI * 0.25 < 2 * PI /\
  Particle.x q = Particle.x sample_particle /\
  Particle.y q = Particle.y sample_particle /\
  Particle.size q = Particle.size sample_particle /\
  Particle.baseX q = Particle.baseX sample_particle /\
  Particle.baseY q = Particle.baseY sample_particle /\
  Particle.density q = Particle.density sample_particle /\
  Particle.alpha q = Particle.alpha sample_particle /\
  Particle.noise q = Particle.noise sample_particle /\
  Particle.noiseOffset q = Particle.noiseOffset sample_particle.
Proof.
  apply (explode_speed_and_direction 0.25 0.5 sample_particle); lra.
Defined.

(** ** Idle frames *)

Lemma particle_eq (p q : Particle.t) :
  Particle.x p = Particle.x q -> Particle.y p = Particle.y q ->
  Particle.size p = Particle.size q ->
  Particle.baseX p = Particle.baseX q -> Particle.baseY p = Particle.baseY q ->
  Particle.density p = Particle.density q ->
  Vec.x (Particle.velocity p) = Vec.x (Particle.velocity q) ->
  Vec.y (Particle.velocity p) = Vec.y (Particle.velocity q) ->
  Particle.alpha p = Particle.alpha q ->
  Particle.noise p = Particle.noise q ->
  Particle.noiseOffset p = Particle.noiseOffset q ->
  p = q.
Proof.
  destruct p as [? ? ? ? ? ? [? ?] ? ? ?], q as [? ? ? ? ? ? [? ?] ? ? ?]; simpl.
  intros; subst; reflexivity.
Qed.

(** The two idle branches of [update], as equations. *)
Lemma update_idle_near (mouseX mouseY : option R) (time start duration fade : R)
    (p : Particle.t) :
  let dx := ToNumber mouseX - Particle.x p in
  let dy := ToNumber mouseY - Particle.y p in
  let distance := sqrt (dx * dx + dy * dy) in
  distance < 35 ->
  Particle.update mouseX mouseY time false start duration fade p
  = Particle.integrate_and_damp
      (Particle.set_velocity
         (Vec.mk
            (Vec.x (Particle.velocity p)
             + (cos (atan2 dy dx) * ((35 - distance) / 35) * 0.1
                + sin (time * 0.002 + Particle.noiseOffset p) * Vec.x (Particle.noise p)))
            (Vec.y (Particle.velocity p)
             + (sin (atan2 dy dx) * ((35 - distance) / 35) * 0.1
                + cos (time * 0.002 + Particle.noiseOffset p) * Vec.y (Particle.noise p))))
         p).
Proof.
  intros dx dy distance Hd. unfold Particle.update.
  fold dx dy distance. now rewrite js_lt_true.
Qed.

Lemma update_idle_far (mouseX mouseY : option R) (time start duration fade : R)
    (p : Particle.t) :
  let dx := ToNumber mouseX - Particle.x p in
  let dy := ToNumber mouseY - Particle.y p in
  35 <= sqrt (dx * dx + dy * dy) ->
  Particle.update mouseX mouseY time false start duration fade p = return_to_rest p.
Proof.
  intros dx dy Hd. unfold Particle.update.
  fold dx dy. rewrite js_lt_false by exact Hd.
  apply particle_eq; simpl; try reflexivity; ring.
Qed.

(** C5. For every particle with zero noise amplitudes and every pointer
    at a distance d from it with 0 < d < 35, one idle update adds to the
    velocity the vector ((35 - d) / 35) * 0.1 * u, where u is the unit
    vector from the particle to the pointer: the position moves by the
    velocity so increased, which is then damped by 0.9.  The factor is
    positive, so the pull is toward the pointer. *)
Theorem near_pointer_pulls_toward_pointer (p : Particle.t) (mouseX mouseY : R)
    (time start duration fade : R) :
  Particle.noise p = Vec.mk 0 0 ->
  let dx := mouseX - Particle.x p in
  let dy := mouseY - Particle.y p in
  let d := sqrt (dx * dx + dy * dy) in
  0 < d < 35 ->
  let pull := (35 - d) / 35 * 0.1 in
  let q := Particle.update (Some mouseX) (Some mouseY) time false start duration fade p in
  0 < pull /\
  (dx / d) * (dx / d) + (dy / d) * (dy / d) = 1 /\
  Particle.x q - Particle.x p = Vec.x (Particle.velocity p) + pull * (dx / d) /\
  Particle.y q - Particle.y p = Vec.y (Particle.velocity p) + pull * (dy / d) /\
  Vec.x (Particle.velocity q) = 0.9 * (Vec.x (Particle.velocity p) + pull * (dx / d)) /\
  Vec.y (Particle.velocity q) = 0.9 * (Vec.y (Particle.velocity p) + pull * (dy / d)).
Proof.
  intros Hnoise dx dy d Hd pull q.
  assert (0 < pull) as Hpull.
  { unfold pull. apply Rmult_lt_0_compat; [| lra].
    apply Rdiv_lt_0_compat; lra. }
  split; [exact Hpull |].
  split.
  { assert (d * d = dx * dx + dy * dy) as Hsq.
    { unfold d. apply sqrt_sqrt. nra. }
    replace (dx / d * (dx / d) + dy / d * (dy / d))
      with ((dx * dx + dy * dy) / (d * d)) by (field; lra).
    rewrite <- Hsq. field. lra. }
  subst q. rewrite update_idle_near by (simpl; fold dx dy d; lra).
  simpl ToNumber. fold dx dy d.
  destruct (cos_sin_atan2 dy dx) as [Hcos Hsin]; [fold d; lra |].
  fold d in Hcos, Hsin. rewrite Hcos, Hsin, Hnoise. simpl.
  unfold pull. repeat split; field; lra.
Qed.

Lemma near_pointer_pulls_toward_pointer_witness :
  let dx := 6 - Particle.x sample_particle in
  let dy := 8 - Particle.y sample_particle in
  let d := sqrt (dx * dx + dy * dy) in
  let pull := (35 - d) / 35 * 0.1 in
  let q := Particle.update (Some 6) (Some 8) 0 false 0 1500 500 sample_particle in
  0 < pull /\
  (dx / d) * (dx / d) + (dy / d) * (dy / d) = 1 /\
  Particle.x q - Particle.x sample_particle
  = Vec.x (Particle.velocity sample_particle) + pull * (dx / d) /\
  Particle.y q - Particle.y sample_particle
  = Vec.y (Particle.velocity sample_particle) + pull * (dy / d) /\
  Vec.x (Particle.velocity q)
  = 0.9 * (Vec.x (Particle.velocity sample_particle) + pull * (dx / d)) /\
  Vec.y (Particle.velocity q)
  = 0.9 * (Vec.y (Particle.velocity sample_particle) + pull * (dy / d)).
Proof.
  apply (near_pointer_pulls_toward_pointer sample_particle 6 8 0 0 1500 500).
  - simpl. f_equal; lra.
  - simpl. replace ((6 - 3) * (6 - 3) + (8 - 4) * (8 - 4)) with (5 * 5) by lra.
    rewrite sqrt_square by lra. lra.
Defined.

(** C6, as the program stands: with the pointer absent the particle on
    the canvas at (3, 4), at rest, is 5 px from the origin and is pulled
    toward it, while the return-to-rest rule alone would leave it where
    it is. *)
Lemma absent_pointer_pulls_near_origin :
  Particle.x (Particle.update None None 0 false 0 1500 500 sample_particle)
  = 3 - 9 / 175 /\
  Particle.x (return_to_rest sample_particle) = 3 /\
  Particle.update None None 0 false 0 1500 500 sample_particle
  <> return_to_rest sample_particle.
Proof.
  assert (sqrt ((0 - 3) * (0 - 3) + (0 - 4) * (0 - 4)) = 5) as Hd.
  { replace ((0 - 3) * (0 - 3) + (0 - 4) * (0 - 4)) with (5 * 5) by lra.
    apply sqrt_square. lra. }
  assert (Particle.x (Particle.update None None 0 false 0 1500 500 sample_particle)
          = 3 - 9 / 175) as Hx.
  { rewrite update_idle_near by (simpl; rewrite Hd; lra).
    simpl. rewrite Hd.
    destruct (cos_sin_atan2 (0 - 4) (0 - 3)) as [Hcos _]; [rewrite Hd; lra |].
    rewrite Hcos, Hd. lra. }
  assert (Particle.x (return_to_rest sample_particle) = 3) as Hx'.
  { simpl. lra. }
  split; [exact Hx |]. split; [exact Hx' |].
  intros Heq. rewrite Heq, Hx' in Hx. lra.
Qed.

(** C6, amended. For every particle, an update call with the pointer
    absent behaves exactly like an update call with the pointer at the
    origin (0, 0) of the canvas, because null counts as 0 in the
    subtraction: the particle receives only the spring force
    0.05 * (base - position) and the damping 0.9 when it is at least 35 px
    away from the origin. *)
Theorem absent_pointer_acts_at_origin (p : Particle.t) (time start duration fade : R) :
  Particle.update None None time false start duration fade p
  = Particle.update (Some 0) (Some 0) time false start duration fade p /\
  (35 <= sqrt (Particle.x p * Particle.x p + Particle.y p * Particle.y p) ->
   Particle.update None None time false start duration fade p = return_to_rest p).
Proof.
  split; [reflexivity |]. intros Hfar.
  apply update_idle_far. simpl.
  replace ((0 - Particle.x p) * (0 - Particle.x p)
           + (0 - Particle.y p) * (0 - Particle.y p))
    with (Particle.x p * Particle.x p + Particle.y p * Particle.y p) by ring.
  exact Hfar.
Qed.

Lemma absent_pointer_acts_at_origin_witness :
  Particle.update None None 0 false 0 1500 500
    (Particle.constructor 30 40 0.5 0.5 0.5 0.5)
  = Particle.update (Some 0) (Some 0) 0 false 0 1500 500
      (Particle.constructor 30 40 0.5 0.5 0.5 0.5) /\
  Particle.update None None 0 false 0 1500 500
    (Particle.constructor 30 40 0.5 0.5 0.5 0.5)
  = return_to_rest (Particle.constructor 30 40 0.5 0.5 0.5 0.5).
Proof.
  destruct (absent_pointer_acts_at_origin
              (Particle.constructor 30 40 0.5 0.5 0.5 0.5) 0 0 1500 500)
    as [Horigin Hfar].
  split; [exact Horigin |]. apply Hfar.
  simpl. replace (30 * 30 + 40 * 40) with (50 * 50) by lra.
  rewrite sqrt_square by lra. lra.
Defined.

(** ** Sampling the rendered text *)

Section Sampling.

Variable data : ImageData.t.
Variable stride : Z.
Hypothesis stride_pos : (1 <= stride)%Z.
Variable rnd : nat -> R.

Let cells (n : Z) : nat := Z.to_nat ((n + stride - 1) / stride).

(** The loop test [k * stride < n] holds for the first [cells n] values
    of [k] and for no other. *)
Lemma below_iff_counted (n : Z) (k : nat) :
  (Z.of_nat k * stride <? n)%Z = (k <? cells n)%nat.
Proof.
  unfold cells.
  pose proof (Z.div_mod (n + stride - 1) stride ltac:(lia)) as Hdm.
  pose proof (Z.mod_pos_bound (n + stride - 1) stride ltac:(lia)) as Hr.
  set (c := ((n + stride - 1) / stride)%Z) in *.
  set (r := ((n + stride - 1) mod stride)%Z) in *.
  destruct (Z.ltb_spec (Z.of_nat k * stride) n) as [Hlt | Hge];
    destruct (Nat.ltb_spec k (Z.to_nat c)) as [Hk | Hk]; try reflexivity; exfalso.
  - assert (c <= Z.of_nat k)%Z as Hc by lia. nia.
  - assert (Z.of_nat k + 1 <= c)%Z as Hc by lia. nia.
Qed.

(** Since the stride is at least 1, [n] iterations are enough. *)
Lemma cells_le (n : Z) : (cells n <= Z.to_nat n)%nat.
Proof.
  unfold cells.
  destruct (Z.le_gt_cases n 0) as [Hn | Hn].
  - assert ((n + stride - 1) / stride <= 0)%Z.
    { assert ((n + stride - 1) / stride < 1)%Z; [| lia].
      apply Z.div_lt_upper_bound; lia. }
    lia.
  - assert ((n + stride - 1) / stride <= n)%Z; [| lia].
    assert ((n + stride - 1) / stride < n + 1)%Z; [| lia].
    apply Z.div_lt_upper_bound; nia.
Qed.

(** The axis holds the multiples of the stride from 0 up to, and not
    including, [n]; the grid holds the cells with both coordinates on
    their axis. *)
Lemma stride_axis_spec (n v : Z) :
  In v (stride_axis stride n) <-> (0 <= v < n)%Z /\ (stride | v)%Z.
Proof.
  unfold stride_axis. fold (cells n). rewrite in_map_iff. split.
  - intros [k [<- Hk]]. apply in_seq in Hk.
    assert ((Z.of_nat k * stride <? n)%Z = true) as Hlt.
    { rewrite below_iff_counted. apply Nat.ltb_lt. lia. }
    apply Z.ltb_lt in Hlt. split; [nia |]. now exists (Z.of_nat k).
  - intros [[Hlow Hhigh] [q Hq]]. subst v.
    assert (0 <= q)%Z as Hq by nia.
    exists (Z.to_nat q). rewrite Z2Nat.id by exact Hq. split; [reflexivity |].
    apply in_seq. split; [lia |]. simpl. apply Nat.ltb_lt.
    rewrite <- below_iff_counted, Z2Nat.id by exact Hq. now apply Z.ltb_lt.
Qed.

Lemma stride_grid_spec (width height x y : Z) :
  In (x, y) (stride_grid stride width height) <->
  In x (stride_axis stride width) /\ In y (stride_axis stride height).
Proof.
  unfold stride_grid. rewrite in_flat_map. split.
  - intros [y' [Hy Hx]]. apply in_map_iff in Hx. destruct Hx as [x' [Heq Hx]].
    injection Heq as <- <-. now split.
  - intros [Hx Hy]. exists y. split; [exact Hy |].
    apply in_map_iff. now exists x.
Qed.

(** The inner loop, started in column [k * stride] with enough fuel, adds
    the covered cells of the rest of the row, from left to right. *)
Lemma scan_row_points (y : Z) (fuel : nat) :
  forall (k : nat) (acc : list Particle.t * nat),
    (cells (ImageData.width data) - k <= fuel)%nat ->
    sample_points
      (fst (CreditLink.scan_row fuel data stride y (Z.of_nat k * stride)%Z rnd acc))
    = sample_points (fst acc)
      ++ map cell_point
           (filter (covered data)
              (map (fun j => ((Z.of_nat j * stride)%Z, y))
                 (seq k (cells (ImageData.width data) - k)))).
Proof.
  induction fuel as [| fuel IH]; intros k acc Hfuel.
  - replace (cells (ImageData.width data) - k)%nat with O by lia.
    simpl. now rewrite app_nil_r.
  - cbn [CreditLink.scan_row]. rewrite below_iff_counted.
    destruct (Nat.ltb_spec k (cells (ImageData.width data))) as [Hk | Hk].
    + replace (cells (ImageData.width data) - k)%nat
        with (S (cells (ImageData.width data) - S k)) by lia.
      cbn [seq map filter].
      replace (Z.of_nat k * stride + stride)%Z with (Z.of_nat (S k) * stride)%Z by lia.
      rewrite IH by lia.
      unfold covered, CreditLink.alpha_above_200. cbn [fst snd].
      replace (y * 4 * ImageData.width data + Z.of_nat k * stride * 4 + 3)%Z
        with (4 * (y * ImageData.width data + Z.of_nat k * stride) + 3)%Z by ring.
      destruct (match nth_error (ImageData.data data) _ with
                | Some a => (200 <? a)%Z | None => false end).
      * cbn [fst]. unfold sample_points at 1. rewrite map_app, <- app_assoc.
        reflexivity.
      * reflexivity.
    + replace (cells (ImageData.width data) - k)%nat with O by lia.
      simpl. now rewrite app_nil_r.
Qed.

(** The outer loop, started in row [k * stride] with enough fuel, adds
    the covered cells of the remaining rows, row after row. *)
Lemma scan_rows_points (fuel : nat) :
  forall (k : nat) (acc : list Particle.t * nat),
    (cells (ImageData.height data) - k <= fuel)%nat ->
    sample_points
      (fst (CreditLink.scan_rows fuel data stride (Z.of_nat k * stride)%Z rnd acc))
    = sample_points (fst acc)
      ++ map cell_point
           (filter (covered data)
              (flat_map
                 (fun y => map (fun x => (x, y))
                             (stride_axis stride (ImageData.width data)))
                 (map (fun j => (Z.of_nat j * stride)%Z)
                    (seq k (cells (ImageData.height data) - k))))).
Proof.
  induction fuel as [| fuel IH]; intros k acc Hfuel.
  - replace (cells (ImageData.height data) - k)%nat with O by lia.
    simpl. now rewrite app_nil_r.
  - cbn [CreditLink.scan_rows]. rewrite below_iff_counted.
    destruct (Nat.ltb_spec k (cells (ImageData.height data))) as [Hk | Hk].
    + replace (cells (ImageData.height data) - k)%nat
        with (S (cells (ImageData.height data) - S k)) by lia.
      cbn [seq map flat_map].
      replace (Z.of_nat k * stride + stride)%Z with (Z.of_nat (S k) * stride)%Z by lia.
      rewrite IH by lia.
      change 0%Z with (Z.of_nat 0 * stride)%Z at 1.
      rewrite scan_row_points by (pose proof (cells_le (ImageData.width data)); lia).
      rewrite Nat.sub_0_r, filter_app, map_app, <- app_assoc.
      unfold stride_axis. fold (cells (ImageData.width data)).
      rewrite map_map. reflexivity.
    + replace (cells (ImageData.height data) - k)%nat with O by lia.
      simpl. now rewrite app_nil_r.
Qed.

(** Both loops together enumerate the covered cells of the stride grid. *)
Lemma scan_points :
  sample_points
    (fst (CreditLink.scan_rows (Z.to_nat (ImageData.height data)) data stride 0%Z rnd
            ([], O)))
  = map cell_point
      (filter (covered data)
         (stride_grid stride (ImageData.width data) (ImageData.height data))).
Proof.
  change 0%Z with (Z.of_nat 0 * stride)%Z.
  rewrite scan_rows_points by (pose proof (cells_le (ImageData.height data)); lia).
  rewrite Nat.sub_0_r. reflexivity.
Qed.

(** Every particle the loops add is as the constructor leaves it. *)
Lemma scan_row_at_rest (y : Z) (fuel : nat) :
  forall (x : Z) (acc : list Particle.t * nat),
    Forall at_rest (fst acc) ->
    Forall at_rest (fst (CreditLink.scan_row fuel data stride y x rnd acc)).
Proof.
  induction fuel as [| fuel IH]; intros x acc Hacc; [exact Hacc |].
  cbn [CreditLink.scan_row].
  destruct (x <? ImageData.width data)%Z; [| exact Hacc].
  apply IH. destruct (CreditLink.alpha_above_200 _ _); [| exact Hacc].
  cbn [fst]. apply Forall_app. split; [exact Hacc |].
  constructor; [| constructor]. repeat split.
Qed.

Lemma scan_rows_at_rest (fuel : nat) :
  forall (y : Z) (acc : list Particle.t * nat),
    Forall at_rest (fst acc) ->
    Forall at_rest (fst (CreditLink.scan_rows fuel data stride y rnd acc)).
Proof.
  induction fuel as [| fuel IH]; intros y acc Hacc; [exact Hacc |].
  cbn [CreditLink.scan_rows].
  destruct (y <? ImageData.height data)%Z; [| exact Hacc].
  apply IH. now apply scan_row_at_rest.
Qed.

End Sampling.

(** The cells of the stride grid are the pixels of the buffer whose two
    coordinates are multiples of the stride. *)
Lemma stride_grid_cells (stride width height x y : Z) :
  (1 <= stride)%Z ->
  In (x, y) (stride_grid stride width height) <->
  (0 <= x < width)%Z /\ (0 <= y < height)%Z /\ (stride | x)%Z /\ (stride | y)%Z.
Proof.
  intros Hstride.
  rewrite stride_grid_spec, !stride_axis_spec by exact Hstride. tauto.
Qed.

(** The two ways [createParticles] ends. *)
Lemma createParticles_throws (host : Host) (rnd : nat -> R) (st : CreditLink.t) :
  Canvas.width (CreditLink.canvas st) = 0%Z \/ Canvas.height (CreditLink.canvas st) = 0%Z ->
  CreditLink.createParticles host rnd st
  = ThrowIndexSizeError
      (CreditLink.set_canvas
         (Canvas.mk (Canvas.width (CreditLink.canvas st))
            (Canvas.height (CreditLink.canvas st))
            (CreditFont (CreditLink.fontSize host)))
         (CreditLink.set_particles [] st)).
Proof.
  intros Hzero. unfold CreditLink.createParticles.
  cbn [CreditLink.canvas CreditLink.set_canvas CreditLink.set_particles
       Canvas.width Canvas.height].
  destruct Hzero as [-> | ->]; [reflexivity |].
  now rewrite orb_true_r.
Qed.

Lemma createParticles_returns (host : Host) (rnd : nat -> R) (st : CreditLink.t) :
  Canvas.width (CreditLink.canvas st) <> 0%Z ->
  Canvas.height (CreditLink.canvas st) <> 0%Z ->
  CreditLink.createParticles host rnd st
  = Normal
      (CreditLink.set_particles
         (fst (CreditLink.scan_rows
                 (Z.to_nat (ImageData.height (CreditLink.rendered_text host st)))
                 (CreditLink.rendered_text host st) (CreditLink.step host) 0%Z rnd
                 ([], O)))
         (CreditLink.set_canvas
            (Canvas.mk (Canvas.width (CreditLink.canvas st))
               (Canvas.height (CreditLink.canvas st))
               (CreditFont (CreditLink.fontSize host)))
            (CreditLink.set_particles [] st))).
Proof.
  intros Hw Hh. unfold CreditLink.createParticles.
  cbn [CreditLink.canvas CreditLink.set_canvas CreditLink.set_particles
       Canvas.width Canvas.height].
  apply Z.eqb_neq in Hw. apply Z.eqb_neq in Hh. rewrite Hw, Hh. reflexivity.
Qed.

Lemma createParticles_sample_points (host : Host) (rnd : nat -> R) (st : CreditLink.t) :
  Canvas.width (CreditLink.canvas st) <> 0%Z ->
  Canvas.height (CreditLink.canvas st) <> 0%Z ->
  sample_points
    (CreditLink.particles (outcome (CreditLink.createParticles host rnd st)))
  = map cell_point
      (filter (covered (CreditLink.rendered_text host st))
         (stride_grid (CreditLink.step host)
            (ImageData.width (CreditLink.rendered_text host st))
            (ImageData.height (CreditLink.rendered_text host st)))).
Proof.
  intros Hw Hh. rewrite createParticles_returns by assumption.
  cbn [outcome CreditLink.particles CreditLink.set_particles].
  apply scan_points. unfold CreditLink.step. lia.
Qed.

(** C9. Two sampling runs with the same text, canvas size, font size and
    device pixel ratio, and the same rasterizer, produce the same ordered
    sequence of sample points, whatever the random source and the previous
    state: the cells of the stride grid with
    stride = max(1, floor(3 * devicePixelRatio)), row after row, at which
    the alpha byte exceeds 200.  (On a canvas without width or height
    both runs end in the IndexSizeError of getImageData and leave no
    sample point.) *)
Theorem sampling_is_deterministic (host1 host2 : Host) (rnd1 rnd2 : nat -> R)
    (st1 st2 : CreditLink.t) :
  CreditLink.creditText st1 = CreditLink.creditText st2 ->
  Canvas.width (CreditLink.canvas st1) = Canvas.width (CreditLink.canvas st2) ->
  Canvas.height (CreditLink.canvas st1) = Canvas.height (CreditLink.canvas st2) ->
  CreditLink.fontSize host1 = CreditLink.fontSize host2 ->
  devicePixelRatio host1 = devicePixelRatio host2 ->
  measureText host1 = measureText host2 ->
  getImageData host1 = getImageData host2 ->
  let data := CreditLink.rendered_text host1 st1 in
  sample_points
    (CreditLink.particles (outcome (CreditLink.createParticles host1 rnd1 st1)))
  = sample_points
      (CreditLink.particles (outcome (CreditLink.createParticles host2 rnd2 st2))) /\
  (Canvas.width (CreditLink.canvas st1) <> 0%Z ->
   Canvas.height (CreditLink.canvas st1) <> 0%Z ->
   (exists st', CreditLink.createParticles host1 rnd1 st1 = Normal st') /\
   sample_points
     (CreditLink.particles (outcome (CreditLink.createParticles host1 rnd1 st1)))
   = map cell_point
       (filter (covered data)
          (stride_grid (Z.max 1 (floor (3 * devicePixelRatio host1)))
             (ImageData.width data) (ImageData.height data)))) /\
  (Canvas.width (CreditLink.canvas st1) = 0%Z \/
   Canvas.height (CreditLink.canvas st1) = 0%Z ->
   (exists st', CreditLink.createParticles host1 rnd1 st1 = ThrowIndexSizeError st') /\
   CreditLink.particles (outcome (CreditLink.createParticles host1 rnd1 st1)) = []) /\
  (forall x y,
     In (x, y)
        (stride_grid (Z.max 1 (floor (3 * devicePixelRatio host1)))
           (ImageData.width data) (ImageData.height data)) <->
     (0 <= x < ImageData.width data)%Z /\ (0 <= y < ImageData.height data)%Z /\
     (Z.max 1 (floor (3 * devicePixelRatio host1)) | x)%Z /\
     (Z.max 1 (floor (3 * devicePixelRatio host1)) | y)%Z).
Proof.
  intros Htext Hw Hh Hfont Hdpr Hmeasure Himage data.
  assert (CreditLink.rendered_text host2 st2 = data) as Hdata.
  { unfold data, CreditLink.rendered_text.
    now rewrite Htext, Hw, Hh, Hfont, Hmeasure, Himage. }
  split; [| split; [| split]].
  - destruct (Z.eq_dec (Canvas.width (CreditLink.canvas st1)) 0) as [Hw0 | Hw0];
      [| destruct (Z.eq_dec (Canvas.height (CreditLink.canvas st1)) 0) as [Hh0 | Hh0]].
    + rewrite (createParticles_throws host1 rnd1 st1) by now left.
      rewrite (createParticles_throws host2 rnd2 st2) by (left; congruence).
      reflexivity.
    + rewrite (createParticles_throws host1 rnd1 st1) by now right.
      rewrite (createParticles_throws host2 rnd2 st2) by (right; congruence).
      reflexivity.
    + rewrite !createParticles_sample_points by congruence.
      rewrite Hdata. unfold CreditLink.step. now rewrite Hdpr.
  - intros Hw0 Hh0. split.
    + eexists. now apply createParticles_returns.
    + now apply createParticles_sample_points.
  - intros Hzero. rewrite createParticles_throws by exact Hzero.
    split; [eexists; reflexivity | reflexivity].
  - intros x y. apply stride_grid_cells. lia.
Qed.

Lemma floor_3 : floor (3 * 1) = 3%Z.
Proof. unfold floor. symmetry. apply Int_part_spec. lra. Qed.

(** On the 4 by 4 buffer, with stride 3, the grid has the four cells
    (0,0), (3,0), (0,3), (3,3); two of them are covered. *)
Lemma tiny_image_samples :
  sample_points
    (CreditLink.particles
       (outcome
          (CreditLink.createParticles (scenario_host 0) scenario_rnd scenario_field)))
  = [(3, 0); (0, 3)].
Proof.
  unfold CreditLink.createParticles, CreditLink.step.
  cbn [devicePixelRatio scenario_host]. rewrite floor_3.
  reflexivity.
Qed.

Lemma sampling_is_deterministic_witness :
  let data := CreditLink.rendered_text (scenario_host 0) scenario_field in
  sample_points
    (CreditLink.particles
       (outcome
          (CreditLink.createParticles (scenario_host 0) scenario_rnd scenario_field)))
  = sample_points
      (CreditLink.particles
         (outcome
            (CreditLink.createParticles (scenario_host 5000) (fun _ => 0.25)
               exploding_field))) /\
  (Canvas.width (CreditLink.canvas scenario_field) <> 0%Z ->
   Canvas.height (CreditLink.canvas scenario_field) <> 0%Z ->
   (exists st',
      CreditLink.createParticles (scenario_host 0) scenario_rnd scenario_field
      = Normal st') /\
   sample_points
     (CreditLink.particles
        (outcome
           (CreditLink.createParticles (scenario_host 0) scenario_rnd scenario_field)))
   = map cell_point
       (filter (covered data)
          (stride_grid (Z.max 1 (floor (3 * devicePixelRatio (scenario_host 0))))
             (ImageData.width data) (ImageData.height data)))) /\
  (Canvas.width (CreditLink.canvas scenario_field) = 0%Z \/
   Canvas.height (CreditLink.canvas scenario_field) = 0%Z ->
   (exists st',
      CreditLink.createParticles (scenario_host 0) scenario_rnd scenario_field
      = ThrowIndexSizeError st') /\
   CreditLink.particles
     (outcome
        (CreditLink.createParticles (scenario_host 0) scenario_rnd scenario_field))
   = []) /\
  (forall x y,
     In (x, y)
        (stride_grid (Z.max 1 (floor (3 * devicePixelRatio (scenario_host 0))))
           (ImageData.width data) (ImageData.height data)) <->
     (0 <= x < ImageData.width data)%Z /\ (0 <= y < ImageData.height data)%Z /\
     (Z.max 1 (floor (3 * devicePixelRatio (scenario_host 0))) | x)%Z /\
     (Z.max 1 (floor (3 * devicePixelRatio (scenario_host 0))) | y)%Z).
Proof.
  apply (sampling_is_deterministic (scenario_host 0) (scenario_host 5000)
           scenario_rnd (fun _ => 0.25) scenario_field exploding_field);
    reflexivity.
Defined.

(** ** Activation *)

Lemma in_text_bounds_iff (b : CreditLink.Bounds) (pt : R * R) :
  CreditLink.in_text_bounds b pt = true <-> inside_box b pt.
Proof.
  unfold CreditLink.in_text_bounds, inside_box, js_ge.
  rewrite !andb_true_iff, !js_le_iff. tauto.
Qed.

Lemma in_text_bounds_outside (b : CreditLink.Bounds) (pt : R * R) :
  ~ inside_box b pt -> CreditLink.in_text_bounds b pt = false.
Proof.
  intros Hout. destruct (CreditLink.in_text_bounds b pt) eqn:E; [| reflexivity].
  apply in_text_bounds_iff in E. contradiction.
Qed.

Lemma handleClick_inside (host : Host) (rnd : nat -> R) (event : MouseEvent)
    (st : CreditLink.t) :
  inside_box (CreditLink.getTextBounds host st)
    (CreditLink.to_canvas host st (clientX event) (clientY event)) ->
  CreditLink.handleClick host rnd event st = CreditLink.startExplosion host rnd st.
Proof.
  intros Hin. unfold CreditLink.handleClick.
  apply in_text_bounds_iff in Hin. now rewrite Hin.
Qed.

Lemma handleClick_outside (host : Host) (rnd : nat -> R) (event : MouseEvent)
    (st : CreditLink.t) :
  ~ inside_box (CreditLink.getTextBounds host st)
      (CreditLink.to_canvas host st (clientX event) (clientY event)) ->
  CreditLink.handleClick host rnd event st = (st, []).
Proof.
  intros Hout. unfold CreditLink.handleClick.
  now rewrite in_text_bounds_outside.
Qed.

(** A touch event with a first touch is handled like a click there. *)
Lemma handleTouch_first (host : Host) (rnd : nat -> R) (touch : Touch)
    (rest : list Touch) (st : CreditLink.t) :
  CreditLink.handleTouch host rnd (mkTouchEvent (touch :: rest)) st
  = Normal (CreditLink.handleClick host rnd
              (mkMouseEvent (touch_clientX touch) (touch_clientY touch)) st).
Proof.
  unfold CreditLink.handleTouch, CreditLink.handleClick. cbn [touches nth_error clientX clientY].
  now destruct (CreditLink.in_text_bounds _ _).
Qed.

Lemma scenario_font_size (time : R) : CreditLink.fontSize (scenario_host time) = 24.
Proof.
  unfold CreditLink.fontSize. cbn [innerWidth scenario_host].
  unfold Rmin. destruct (Rle_dec (480 / 20) 28); lra.
Qed.

Lemma scenario_click_inside (time : R) (st : CreditLink.t) :
  CreditLink.canvas st = Canvas.mk 1000 800 (CreditFont 24) ->
  inside_box (CreditLink.getTextBounds (scenario_host time) st)
    (CreditLink.to_canvas (scenario_host time) st
       (clientX click_inside) (clientY click_inside)).
Proof.
  intros Hcanvas. unfold inside_box, CreditLink.getTextBounds, CreditLink.to_canvas.
  fold (CreditLink.fontSize (scenario_host time)).
  rewrite scenario_font_size, Hcanvas. simpl. lra.
Qed.

(** C1, as the program stands: in the field that started exploding at
    time 4000, a click inside the text box at time 5000 moves the start of
    the explosion to 5000 and schedules one more redirect. *)
Lemma second_activation_restarts_explosion :
  CreditLink.isExploding exploding_field = true /\
  CreditLink.explosionStartTime exploding_field = 4000 /\
  CreditLink.explosionStartTime
    (fst (CreditLink.handleClick (scenario_host 5000) scenario_rnd click_inside
            exploding_field)) = 5000 /\
  snd (CreditLink.handleClick (scenario_host 5000) scenario_rnd click_inside
         exploding_field)
  = [SetTimeoutRedirect "https://jonaskjeldmand.vercel.app/" 1500] /\
  CreditLink.handleClick (scenario_host 5000) scenario_rnd click_inside exploding_field
  <> (exploding_field, []).
Proof.
  rewrite handleClick_inside by (now apply scenario_click_inside).
  repeat split. intros Heq.
  apply (f_equal snd) in Heq. discriminate Heq.
Qed.

(** C1, amended. For every field state with exploding already true, an
    activation (click or touch) at a position outside the text box is a
    no-op: the field is left as it is and no redirect timer is scheduled.
    An activation inside the text box starts the explosion again:
    exploding stays true, explosionStartTime becomes the current time,
    explode() is called once more on every particle, and one more redirect
    timer is scheduled. *)
Theorem activation_while_exploding (host : Host) (rnd : nat -> R) (st : CreditLink.t)
    (cX cY : R) (more : list Touch) :
  DOMRect.width (getBoundingClientRect host) <> 0 ->
  DOMRect.height (getBoundingClientRect host) <> 0 ->
  CreditLink.isExploding st = true ->
  let pt := CreditLink.to_canvas host st cX cY in
  let box := CreditLink.getTextBounds host st in
  let click := CreditLink.handleClick host rnd (mkMouseEvent cX cY) st in
  CreditLink.handleTouch host rnd (mkTouchEvent (mkTouch cX cY :: more)) st
  = Normal click /\
  (~ inside_box box pt -> click = (st, [])) /\
  (inside_box box pt ->
   CreditLink.isExploding (fst click) = true /\
   CreditLink.explosionStartTime (fst click) = now host /\
   CreditLink.particles (fst click)
   = CreditLink.explode_each rnd O (CreditLink.particles st) /\
   snd click
   = [SetTimeoutRedirect (CreditLink.redirectURL st) (CreditLink.explosionDuration st)]).
Proof.
  intros _ _ _ pt box click.
  split; [apply handleTouch_first |].
  split.
  - intros Hout. now apply handleClick_outside.
  - intros Hin. unfold click. rewrite handleClick_inside by exact Hin.
    repeat split.
Qed.

Lemma activation_while_exploding_witness :
  let pt := CreditLink.to_canvas (scenario_host 5000) exploding_field 800 775 in
  let box := CreditLink.getTextBounds (scenario_host 5000) exploding_field in
  let click :=
    CreditLink.handleClick (scenario_host 5000) scenario_rnd (mkMouseEvent 800 775)
      exploding_field in
  CreditLink.handleTouch (scenario_host 5000) scenario_rnd
    (mkTouchEvent (mkTouch 800 775 :: [])) exploding_field
  = Normal click /\
  (~ inside_box box pt -> click = (exploding_field, [])) /\
  (inside_box box pt ->
   CreditLink.isExploding (fst click) = true /\
   CreditLink.explosionStartTime (fst click) = now (scenario_host 5000) /\
   CreditLink.particles (fst click)
   = CreditLink.explode_each scenario_rnd O (CreditLink.particles exploding_field) /\
   snd click
   = [SetTimeoutRedirect (CreditLink.redirectURL exploding_field)
        (CreditLink.explosionDuration exploding_field)]).
Proof.
  apply (activation_while_exploding (scenario_host 5000) scenario_rnd exploding_field
           800 775 []).
  - simpl. lra.
  - simpl. lra.
  - reflexivity.
Defined.

(** ** An explosion started again *)

(** The fields of the scenario of a restarted explosion, frame by frame. *)
Lemma restart_scenario_fields :
  let exploded := Particle.explode (scenario_rnd 0) (scenario_rnd 1) in
  let p1 := Particle.update None None 5400 true 4000 1500 500 (exploded sample_particle) in
  let p2 := Particle.update None None 5460 true 5450 1500 500 (exploded p1) in
  let p3 := Particle.update None None 6500 true 5450 1500 500 p2 in
  let field_after n := fst (run (firstn n restart_scenario) scenario_field) in
  (CreditLink.isExploding (field_after 1%nat) = true /\
   CreditLink.explosionStartTime (field_after 1%nat) = 4000) /\
  CreditLink.particles (field_after 2%nat) = [p1] /\
  (CreditLink.isExploding (field_after 3%nat) = true /\
   CreditLink.explosionStartTime (field_after 3%nat) = 5450) /\
  CreditLink.particles (field_after 4%nat) = [p2] /\
  (CreditLink.isExploding (field_after 4%nat) = true /\
   CreditLink.explosionStartTime (field_after 4%nat) = 5450) /\
  CreditLink.particles (field_after 5%nat) = [p3].
Proof.
  intros exploded p1 p2 p3 field_after.
  unfold field_after, restart_scenario.
  cbn [firstn run deliver occ_host occ_rnd occ_event fst snd].
  rewrite (handleClick_inside (scenario_host 4000))
    by (apply scenario_click_inside; reflexivity).
  rewrite (handleClick_inside (scenario_host 5450))
    by (apply scenario_click_inside; reflexivity).
  repeat split.
Qed.

(** The opacity of the particle after each frame of that scenario:
    1400 ms into the first explosion, 10 ms into the second, and 1050 ms
    into the second. *)
Lemma restart_scenario_opacity :
  let exploded := Particle.explode (scenario_rnd 0) (scenario_rnd 1) in
  let p1 := Particle.update None None 5400 true 4000 1500 500 (exploded sample_particle) in
  let p2 := Particle.update None None 5460 true 5450 1500 500 (exploded p1) in
  let p3 := Particle.update None None 6500 true 5450 1500 500 p2 in
  Particle.alpha p1 = 0.2 /\ Particle.alpha p2 = 0.2 /\ Particle.alpha p3 = 0.9.
Proof.
  intros exploded p1 p2 p3.
  assert (Particle.alpha p1 = 0.2) as H1.
  { unfold p1.
    rewrite (proj2 (update_exploding_alpha_step None None 5400 4000 1500 500
                      (exploded sample_particle))) by lra.
    lra. }
  assert (Particle.alpha p2 = 0.2) as H2.
  { unfold p2.
    rewrite (proj1 (update_exploding_alpha_step None None 5460 5450 1500 500
                      (exploded p1))) by lra.
    exact H1. }
  assert (Particle.alpha p3 = 0.9) as H3.
  { unfold p3.
    rewrite (proj2 (update_exploding_alpha_step None None 6500 5450 1500 500 p2)) by lra.
    lra. }
  auto.
Qed.

(** C3, as the program stands: the text of the scenario field is clicked
    at time 4000 and a frame is drawn at 5400, 1400 ms into the
    explosion; the text is clicked again at 5450, which moves
    explosionStartTime, and the next frame is drawn at 5460.  Both frames
    are update calls with exploding true and the clock has not gone back;
    at the second one 10 ms have elapsed since explosionStartTime, and the
    opacity of the particle is 0.2, not 1. *)
Lemma restarted_explosion_stays_faded :
  let at_first_frame := fst (run (firstn 1 restart_scenario) scenario_field) in
  let at_second_frame := fst (run (firstn 3 restart_scenario) scenario_field) in
  let after_second_frame := fst (run (firstn 4 restart_scenario) scenario_field) in
  CreditLink.isExploding at_first_frame = true /\
  CreditLink.isExploding at_second_frame = true /\
  now (scenario_host 5400) <= now (scenario_host 5460) /\
  now (scenario_host 5460) - CreditLink.explosionStartTime at_second_frame = 10 /\
  exists p,
    CreditLink.particles after_second_frame = [p] /\
    Particle.alpha p = 0.2 /\
    Particle.alpha p <> 1.
Proof.
  destruct restart_scenario_fields
    as ((Hexp1 & _) & _ & (Hexp3 & Hstart3) & Hps4 & _ & _).
  destruct restart_scenario_opacity as (_ & Ha2 & _).
  cbv zeta.
  split; [exact Hexp1 |]. split; [exact Hexp3 |].
  split; [simpl; lra |].
  split; [rewrite Hstart3; simpl; lra |].
  eexists. split; [exact Hps4 |].
  split; [exact Ha2 |]. rewrite Ha2. lra.
Qed.

(** C3, amended. One update call with exploding true (explosionDuration
    1500, fadeOutDuration 500) leaves the opacity of the particle as it
    was when at most 1000 ms have elapsed since the explosionStartTime it
    is given, and sets it to 1 - (elapsed - 1000) / 500 when more have
    elapsed, whatever the opacity was.  So, for a particle that has had no
    explosion frame yet and every run of explosion frames with one and
    the same explosionStartTime and a clock that never goes back: after a
    frame at which at most 1000 ms have elapsed the opacity is still 1,
    and after a frame at which more than 1000 ms have elapsed it is
    1 - (elapsed - 1000) / 500; so it is 1 at 900 ms and 0 at 1500 ms. *)
Theorem explosion_fade_schedule (p : Particle.t) (start : R)
    (frames : list Particle.Frame) :
  (forall (p0 : Particle.t) (mX mY : option R) (time start0 : R),
     let q := Particle.update mX mY time true start0 1500 500 p0 in
     (time - start0 <= 1000 -> Particle.alpha q = Particle.alpha p0) /\
     (1000 < time - start0 -> Particle.alpha q = 1 - (time - start0 - 1000) / 500)) /\
  (Particle.unfaded p ->
   nondecreasing (map Particle.frame_time frames) ->
   forall k f,
     nth_error frames k = Some f ->
     exists q,
       nth_error (Particle.explosion_trace start 1500 500 frames p) k = Some q /\
       (Particle.frame_time f - start <= 1000 -> Particle.alpha q = 1) /\
       (1000 < Particle.frame_time f - start ->
        Particle.alpha q = 1 - (Particle.frame_time f - start - 1000) / 500) /\
       (Particle.frame_time f - start = 900 -> Particle.alpha q = 1) /\
       (Particle.frame_time f - start = 1500 -> Particle.alpha q = 0)).
Proof.
  split.
  - intros p0 mX mY time start0 q.
    destruct (update_exploding_alpha_step mX mY time start0 1500 500 p0) as [Hkeep Hset].
    split; intros He.
    + apply Hkeep. lra.
    + unfold q. rewrite Hset by lra. lra.
  - intros Hp Hmono k f Hf.
    destruct (proj1 (explosion_trace_defined start 1500 500 frames p k)) as [q Hq];
      [now exists f |].
    exists q. split; [exact Hq |].
    pose proof (explosion_trace_alpha_unfaded start 1500 500 frames p Hp Hmono k f q Hf Hq)
      as Ha.
    repeat split; intros He; rewrite Ha.
    + apply fade_level_early. lra.
    + rewrite fade_level_late by lra. lra.
    + apply fade_level_early. lra.
    + rewrite fade_level_late by lra. rewrite He. lra.
Qed.

Lemma explosion_fade_schedule_witness :
  exists q,
    nth_error
      (Particle.explosion_trace 0 1500 500
         [Particle.mkFrame None None 900; Particle.mkFrame None None 1500]
         sample_particle) 1 = Some q /\
    (1500 - 0 <= 1000 -> Particle.alpha q = 1) /\
    (1000 < 1500 - 0 -> Particle.alpha q = 1 - (1500 - 0 - 1000) / 500) /\
    (1500 - 0 = 900 -> Particle.alpha q = 1) /\
    (1500 - 0 = 1500 -> Particle.alpha q = 0).
Proof.
  refine (proj2 (explosion_fade_schedule sample_particle 0
                   [Particle.mkFrame None None 900; Particle.mkFrame None None 1500])
            (Particle.unfaded_new 3 4 0.5 0.5 0.5 0.5) _
            1%nat (Particle.mkFrame None None 1500) eq_refl).
  simpl. split; [lra | exact I].
Defined.

(** C4, as the program stands: in the same scenario the frames at 5400,
    5460 and 6500 are update calls with exploding true and the clock
    never goes back; the opacity of the particle is 0.2 after the frame
    at 5460, 10 ms after the second click, and 0.9 after the frame at
    6500, 1050 ms after it: it has gone up. *)
Lemma restarted_explosion_brightens :
  let at_second_frame := fst (run (firstn 3 restart_scenario) scenario_field) in
  let after_second_frame := fst (run (firstn 4 restart_scenario) scenario_field) in
  let after_third_frame := fst (run restart_scenario scenario_field) in
  CreditLink.isExploding at_second_frame = true /\
  CreditLink.isExploding after_second_frame = true /\
  now (scenario_host 5460) <= now (scenario_host 6500) /\
  exists p q,
    CreditLink.particles after_second_frame = [p] /\
    CreditLink.particles after_third_frame = [q] /\
    Particle.alpha p = 0.2 /\
    Particle.alpha q = 0.9 /\
    Particle.alpha p < Particle.alpha q.
Proof.
  destruct restart_scenario_fields
    as (_ & _ & (Hexp3 & _) & Hps4 & (Hexp4 & _) & Hps5).
  destruct restart_scenario_opacity as (_ & Ha2 & Ha3).
  cbv zeta.
  split; [exact Hexp3 |]. split; [exact Hexp4 |].
  split; [simpl; lra |].
  eexists. eexists. split; [exact Hps4 |]. split; [exact Hps5 |].
  split; [exact Ha2 |]. split; [exact Ha3 |].
  rewrite Ha2, Ha3. lra.
Qed.

(** C4, amended. No update call with exploding true changes baseX or
    baseY, whatever the particle, the clock and the explosionStartTime it
    is given, so no run of explosion frames does.  For a particle that has
    had no explosion frame yet and every run of explosion frames with one
    and the same explosionStartTime, a fadeOutDuration above 0 and a
    clock that never goes back, the opacity after a frame is never above
    the opacity before it. *)
Theorem explosion_keeps_base_and_never_brightens (p : Particle.t)
    (start duration fade : R) (frames : list Particle.Frame) :
  let trace := Particle.explosion_trace start duration fade frames p in
  (forall (p0 : Particle.t) (mX mY : option R) (time start0 : R),
     let q := Particle.update mX mY time true start0 duration fade p0 in
     Particle.baseX q = Particle.baseX p0 /\ Particle.baseY q = Particle.baseY p0) /\
  List.length trace = List.length frames /\
  (forall q, In q trace ->
     Particle.baseX q = Particle.baseX p /\ Particle.baseY q = Particle.baseY p) /\
  (Particle.unfaded p ->
   0 < fade ->
   nondecreasing (map Particle.frame_time frames) ->
   forall k q q',
     nth_error (p :: trace) k = Some q ->
     nth_error (p :: trace) (S k) = Some q' ->
     Particle.alpha q' <= Particle.alpha q).
Proof.
  intros trace. subst trace.
  split; [intros p0 mX mY time start0; apply update_exploding_base |].
  split; [apply explosion_trace_length |].
  split; [apply explosion_trace_base |].
  intros Hp Hfade Hmono k q q' Hq Hq'.
  destruct k as [| k]; simpl in Hq, Hq'.
  - injection Hq as <-. rewrite (unfaded_alpha p Hp).
    destruct (proj2 (explosion_trace_defined start duration fade frames p O))
      as [f Hf]; [now exists q' |].
    rewrite (explosion_trace_alpha_unfaded start duration fade frames p Hp Hmono
               O f q' Hf Hq').
    now apply fade_level_le_1.
  - destruct (proj2 (explosion_trace_defined start duration fade frames p k))
      as [f Hf]; [now exists q |].
    destruct (proj2 (explosion_trace_defined start duration fade frames p (S k)))
      as [f' Hf']; [now exists q' |].
    rewrite (explosion_trace_alpha_unfaded start duration fade frames p Hp Hmono
               k f q Hf Hq).
    rewrite (explosion_trace_alpha_unfaded start duration fade frames p Hp Hmono
               (S k) f' q' Hf' Hq').
    apply fade_level_antitone; [exact Hfade |].
    assert (Particle.frame_time f <= Particle.frame_time f').
    { apply nondecreasing_consecutive with (map Particle.frame_time frames) k;
        [exact Hmono | |]; rewrite nth_error_map.
      - now rewrite Hf.
      - now rewrite Hf'. }
    lra.
Qed.

Lemma explosion_keeps_base_and_never_brightens_witness :
  let start := Particle.explode 0.25 0.5 sample_particle in
  let trace :=
    Particle.explosion_trace 0 1500 500
      [Particle.mkFrame None None 900; Particle.mkFrame None None 1200;
       Particle.mkFrame None None 1500] start in
  List.length trace = 3%nat /\
  (forall q, In q trace -> Particle.baseX q = 3 /\ Particle.baseY q = 4) /\
  Particle.alpha start = 1 /\
  map Particle.alpha trace = [1; 1 - (1200 - 0 - 1000) / 500; 1 - (1500 - 0 - 1000) / 500] /\
  (forall k q q',
     nth_error (start :: trace) k = Some q ->
     nth_error (start :: trace) (S k) = Some q' ->
     Particle.alpha q' <= Particle.alpha q).
Proof.
  pose proof (explosion_keeps_base_and_never_brightens
                (Particle.explode 0.25 0.5 sample_particle) 0 1500 500
                [Particle.mkFrame None None 900; Particle.mkFrame None None 1200;
                 Particle.mkFrame None None 1500]) as H.
  cbv zeta in H. destruct H as (_ & Hlen & Hbase & Hmono).
  cbv zeta.
  split; [exact Hlen |]. split; [exact Hbase |].
  split; [reflexivity |].
  split.
  - cbn [Particle.explosion_trace map Particle.frame_mouseX Particle.frame_mouseY
         Particle.frame_time].
    rewrite (proj1 (update_exploding_alpha_step None None 900 0 1500 500 _)) by lra.
    rewrite (proj2 (update_exploding_alpha_step None None 1200 0 1500 500 _)) by lra.
    rewrite (proj2 (update_exploding_alpha_step None None 1500 0 1500 500 _)) by lra.
    repeat (f_equal; try lra).
  - apply Hmono.
    + apply Particle.unfaded_explode. apply Particle.unfaded_new.
    + lra.
    + simpl. repeat split; lra.
Defined.

(** C10. For every touch event whose list of touches is empty, as it is
    at a touchend, handleTouch ends with a TypeError at touches[0]: the
    bounds are never tested, the field is left as it is, and nothing is
    scheduled, so such an event never starts the explosion. *)
Theorem handleTouch_without_touches (host : Host) (rnd : nat -> R) (st : CreditLink.t) :
  nth_error (touches (mkTouchEvent [])) 0 = None /\
  CreditLink.handleTouch host rnd (mkTouchEvent []) st = ThrowTypeError (st, []) /\
  CreditLink.isExploding (fst (outcome (CreditLink.handleTouch host rnd (mkTouchEvent []) st)))
  = CreditLink.isExploding st.
Proof. repeat split. Qed.

(** C8. With a canvas of 1000 by 800 and a measured text width of 200,
    the text box spans x from 780 to 980, its bottom edge is at y = 780
    and its height is fontSize * 1.2.  In a field that is not exploding, a
    click at the canvas point (800, 775) with font size 24 (box top at
    751.2) sets exploding to true; a click at (50, 50), like a click at
    any point outside the box, leaves the field as it is, with exploding
    false and nothing scheduled. *)
Theorem text_box_scenario (host : Host) (rnd : nat -> R) (st : CreditLink.t) :
  Canvas.width (CreditLink.canvas st) = 1000%Z ->
  Canvas.height (CreditLink.canvas st) = 800%Z ->
  measureText host (Canvas.font (CreditLink.canvas st)) (CreditLink.creditText st) = 200 ->
  DOMRect.width (getBoundingClientRect host) <> 0 ->
  DOMRect.height (getBoundingClientRect host) <> 0 ->
  CreditLink.isExploding st = false ->
  let box := CreditLink.getTextBounds host st in
  let at_point (event : MouseEvent) :=
    CreditLink.to_canvas host st (clientX event) (clientY event) in
  (CreditLink.bounds_x box = 780 /\
   CreditLink.bounds_x box + CreditLink.bounds_width box = 980 /\
   CreditLink.bounds_y box = 780 /\
   CreditLink.bounds_height box = CreditLink.fontSize host * 1.2) /\
  (CreditLink.fontSize host = 24 ->
   CreditLink.bounds_y box - CreditLink.bounds_height box = 751.2 /\
   forall event, at_point event = (800, 775) ->
     CreditLink.isExploding (fst (CreditLink.handleClick host rnd event st)) = true) /\
  (forall event, inside_box box (at_point event) ->
     CreditLink.isExploding (fst (CreditLink.handleClick host rnd event st)) = true) /\
  (forall event, at_point event = (50, 50) ->
     CreditLink.handleClick host rnd event st = (st, []) /\
     CreditLink.isExploding (fst (CreditLink.handleClick host rnd event st)) = false) /\
  (forall event, ~ inside_box box (at_point event) ->
     CreditLink.handleClick host rnd event st = (st, []) /\
     CreditLink.isExploding (fst (CreditLink.handleClick host rnd event st)) = false).
Proof.
  intros Hw Hh Htext _ _ Hidle box at_point.
  assert (CreditLink.bounds_x box = 780 /\
          CreditLink.bounds_x box + CreditLink.bounds_width box = 980 /\
          CreditLink.bounds_y box = 780 /\
          CreditLink.bounds_height box = CreditLink.fontSize host * 1.2) as Hbox.
  { unfold box, CreditLink.getTextBounds. cbn [CreditLink.bounds_x CreditLink.bounds_y
      CreditLink.bounds_width CreditLink.bounds_height].
    rewrite Hw, Hh, Htext. repeat split; lra. }
  destruct Hbox as (Hx & Hxw & Hy & Hheight).
  assert (forall event, ~ inside_box box (at_point event) ->
            CreditLink.handleClick host rnd event st = (st, []) /\
            CreditLink.isExploding (fst (CreditLink.handleClick host rnd event st))
            = false) as Houtside.
  { intros event Hout. rewrite handleClick_outside by exact Hout.
    split; [reflexivity | exact Hidle]. }
  assert (forall event, inside_box box (at_point event) ->
            CreditLink.isExploding (fst (CreditLink.handleClick host rnd event st))
            = true) as Hinside.
  { intros event Hin. rewrite handleClick_inside by exact Hin. reflexivity. }
  split; [repeat split; assumption |].
  split; [| split; [exact Hinside | split]].
  - intros Hfont. rewrite Hheight, Hy, Hfont. split; [lra |].
    intros event Hpt. apply Hinside. rewrite Hpt.
    unfold inside_box. cbn [fst snd]. rewrite Hheight, Hfont. lra.
  - intros event Hpt. apply Houtside. rewrite Hpt.
    unfold inside_box. cbn [fst snd]. lra.
  - exact Houtside.
Qed.

Lemma text_box_scenario_witness :
  let box := CreditLink.getTextBounds (scenario_host 5000) scenario_field in
  let at_point (event : MouseEvent) :=
    CreditLink.to_canvas (scenario_host 5000) scenario_field
      (clientX event) (clientY event) in
  (CreditLink.bounds_x box = 780 /\
   CreditLink.bounds_x box + CreditLink.bounds_width box = 980 /\
   CreditLink.bounds_y box = 780 /\
   CreditLink.bounds_height box = CreditLink.fontSize (scenario_host 5000) * 1.2) /\
  (CreditLink.fontSize (scenario_host 5000) = 24 ->
   CreditLink.bounds_y box - CreditLink.bounds_height box = 751.2 /\
   forall event, at_point event = (800, 775) ->
     CreditLink.isExploding
       (fst (CreditLink.handleClick (scenario_host 5000) scenario_rnd event
               scenario_field)) = true) /\
  (forall event, inside_box box (at_point event) ->
     CreditLink.isExploding
       (fst (CreditLink.handleClick (scenario_host 5000) scenario_rnd event
               scenario_field)) = true) /\
  (forall event, at_point event = (50, 50) ->
     CreditLink.handleClick (scenario_host 5000) scenario_rnd event scenario_field
     = (scenario_field, []) /\
     CreditLink.isExploding
       (fst (CreditLink.handleClick (scenario_host 5000) scenario_rnd event
               scenario_field)) = false) /\
  (forall event, ~ inside_box box (at_point event) ->
     CreditLink.handleClick (scenario_host 5000) scenario_rnd event scenario_field
     = (scenario_field, []) /\
     CreditLink.isExploding
       (fst (CreditLink.handleClick (scenario_host 5000) scenario_rnd event
               scenario_field)) = false).
Proof.
  apply (text_box_scenario (scenario_host 5000) scenario_rnd scenario_field);
    try reflexivity; simpl; lra.
Defined.

(** The two clicks of the scenario, run on the scenario's field. *)
Lemma scenario_clicks :
  CreditLink.to_canvas (scenario_host 5000) scenario_field 800 775 = (800, 775) /\
  CreditLink.isExploding
    (fst (CreditLink.handleClick (scenario_host 5000) scenario_rnd click_inside
            scenario_field)) = true /\
  CreditLink.handleClick (scenario_host 5000) scenario_rnd click_outside scenario_field
  = (scenario_field, []).
Proof.
  split; [| split].
  - unfold CreditLink.to_canvas. simpl. f_equal; field.
  - rewrite handleClick_inside by (now apply scenario_click_inside). reflexivity.
  - apply handleClick_outside.
    unfold inside_box, CreditLink.getTextBounds, CreditLink.to_canvas. simpl. lra.
Qed.

(** ** Resizing *)

(** C2, as the program stands: resizing the field that is exploding
    leaves it exploding. *)
Lemma resize_leaves_field_exploding :
  CreditLink.isExploding exploding_field = true /\
  exists st',
    CreditLink.handleResize (scenario_host 5000) scenario_rnd exploding_field
    = Normal st' /\
    CreditLink.isExploding st' = true.
Proof. split; [reflexivity |]. eexists. split; reflexivity. Qed.

(** C2, amended. For every field state, the viewport-resize operation
    sets the canvas to the size of the window, discards the particle
    collection and rebuilds it from a fresh sample, every new particle at
    rest at its sample point with opacity 1; it leaves exploding and
    explosionStartTime as they were, so the new field is non-exploding
    when the old one was.  (In a window without width or height the
    rebuild ends in the IndexSizeError of getImageData and the collection
    stays empty; exploding and explosionStartTime are still as they
    were.) *)
Theorem resize_rebuilds_particles (host : Host) (rnd : nat -> R) (st : CreditLink.t) :
  let st' := outcome (CreditLink.handleResize host rnd st) in
  let data := CreditLink.rendered_text host (CreditLink.resizeCanvas host st) in
  CreditLink.isExploding st' = CreditLink.isExploding st /\
  CreditLink.explosionStartTime st' = CreditLink.explosionStartTime st /\
  Canvas.width (CreditLink.canvas st') = innerWidth host /\
  Canvas.height (CreditLink.canvas st') = innerHeight host /\
  (forall old,
     CreditLink.handleResize host rnd (CreditLink.set_particles old st)
     = CreditLink.handleResize host rnd st) /\
  Forall at_rest (CreditLink.particles st') /\
  (innerWidth host <> 0%Z -> innerHeight host <> 0%Z ->
   CreditLink.handleResize host rnd st = Normal st' /\
   sample_points (CreditLink.particles st')
   = map cell_point
       (filter (covered data)
          (stride_grid (CreditLink.step host)
             (ImageData.width data) (ImageData.height data)))) /\
  (innerWidth host = 0%Z \/ innerHeight host = 0%Z ->
   CreditLink.handleResize host rnd st = ThrowIndexSizeError st' /\
   CreditLink.particles st' = []).
Proof.
  intros st' data. subst st'. unfold CreditLink.handleResize.
  assert (Canvas.width (CreditLink.canvas (CreditLink.resizeCanvas host st))
          = innerWidth host) as Hw by reflexivity.
  assert (Canvas.height (CreditLink.canvas (CreditLink.resizeCanvas host st))
          = innerHeight host) as Hh by reflexivity.
  assert (innerWidth host = 0%Z \/ innerHeight host = 0%Z \/
          (innerWidth host <> 0%Z /\ innerHeight host <> 0%Z)) as Hcases by lia.
  assert (forall old,
            CreditLink.createParticles host rnd
              (CreditLink.resizeCanvas host (CreditLink.set_particles old st))
            = CreditLink.createParticles host rnd (CreditLink.resizeCanvas host st))
    as Hold by reflexivity.
  destruct Hcases as [Hzero | [Hzero | [Hw0 Hh0]]].
  - rewrite createParticles_throws by (left; congruence).
    cbn [outcome].
    split; [reflexivity |]. split; [reflexivity |]. split; [reflexivity |].
    split; [reflexivity |].
    split; [intros old; rewrite Hold; apply createParticles_throws; left; congruence |].
    split; [constructor |]. split; [intros Hw0 _; contradiction |].
    intros _. split; reflexivity.
  - rewrite createParticles_throws by (right; congruence).
    cbn [outcome].
    split; [reflexivity |]. split; [reflexivity |]. split; [reflexivity |].
    split; [reflexivity |].
    split; [intros old; rewrite Hold; apply createParticles_throws; right; congruence |].
    split; [constructor |]. split; [intros _ Hh0; contradiction |].
    intros _. split; reflexivity.
  - rewrite createParticles_returns by congruence.
    cbn [outcome].
    split; [reflexivity |]. split; [reflexivity |]. split; [reflexivity |].
    split; [reflexivity |].
    split; [intros old; rewrite Hold; apply createParticles_returns; congruence |].
    split; [| split].
    + cbn [CreditLink.particles CreditLink.set_particles].
      apply scan_rows_at_rest. constructor.
    + intros _ _. split; [reflexivity |].
      cbn [CreditLink.particles CreditLink.set_particles].
      apply scan_points. unfold CreditLink.step. lia.
    + intros [Hzero | Hzero]; contradiction.
Qed.

(** * Further properties of the code *)

(** ** The life of a particle *)

(** X1. Whatever calls of update (idle or exploding, with any pointer
    and clock) and of explode a particle receives, its rest position, its
    size, its density, its noise amplitudes and its noise offset stay as
    the constructor set them. *)
Theorem methods_keep_constructor_fields (p q : Particle.t) :
  later p q ->
  Particle.baseX q = Particle.baseX p /\ Particle.baseY q = Particle.baseY p /\
  Particle.size q = Particle.size p /\ Particle.density q = Particle.density p /\
  Particle.noise q = Particle.noise p /\
  Particle.noiseOffset q = Particle.noiseOffset p.
Proof.
  induction 1 as [p | p q mX mY time exploding start duration fade _ IH
                 | p q r1 r2 _ IH].
  - repeat split.
  - unfold Particle.update.
    destruct exploding; [destruct (js_gt _ _) | destruct (js_lt _ _)]; exact IH.
  - exact IH.
Qed.

Lemma methods_keep_constructor_fields_witness :
  let q :=
    Particle.update None None 1200 true 0 1500 500
      (Particle.explode 0.25 0.5
         (Particle.update (Some 6) (Some 8) 10 false 0 1500 500 sample_particle)) in
  Particle.baseX q = Particle.baseX sample_particle /\
  Particle.baseY q = Particle.baseY sample_particle /\
  Particle.size q = Particle.size sample_particle /\
  Particle.density q = Particle.density sample_particle /\
  Particle.noise q = Particle.noise sample_particle /\
  Particle.noiseOffset q = Particle.noiseOffset sample_particle.
Proof.
  apply (methods_keep_constructor_fields sample_particle).
  apply later_update, later_explode, later_update, later_now.
Defined.

(** ** Returning to rest *)

Lemma idle_frame_far (f : Particle.Frame) (p : Particle.t) :
  35 <= pointer_distance f p -> idle_frame f p = return_to_rest p.
Proof. intros Hfar. unfold idle_frame. now apply update_idle_far. Qed.

Lemma return_to_rest_energy (p : Particle.t) :
  rest_energy (return_to_rest p) = 0.9 * rest_energy p.
Proof. unfold rest_energy, spring_energy, return_to_rest. simpl. nra. Qed.

Lemma spring_energy_bounds_displacement (e v : R) :
  0.044375 * (e * e) <= spring_energy e v.
Proof.
  unfold spring_energy.
  pose proof (Rle_0_sqr (v + 0.025 * e)) as Hsq. unfold Rsqr in Hsq. lra.
Qed.

Lemma rest_energy_bounds_displacement (p : Particle.t) :
  0.044375 * displacement2 p <= rest_energy p.
Proof.
  unfold displacement2, rest_energy.
  pose proof (spring_energy_bounds_displacement
                (Particle.x p - Particle.baseX p) (Vec.x (Particle.velocity p))).
  pose proof (spring_energy_bounds_displacement
                (Particle.y p - Particle.baseY p) (Vec.y (Particle.velocity p))).
  lra.
Qed.

Lemma idle_frames_far_energy (frames : list Particle.Frame) :
  forall p,
    pointer_stays_far frames p ->
    rest_energy (idle_frames frames p) = 0.9 ^ List.length frames * rest_energy p.
Proof.
  induction frames as [| f rest IH]; intros p Hfar; simpl.
  - lra.
  - destruct Hfar as [Hf Hrest]. rewrite IH by exact Hrest.
    rewrite idle_frame_far by exact Hf. rewrite return_to_rest_energy. ring.
Qed.

(** X2. While the pointer is at least 35 px away (or absent and the
    origin that far), every idle frame multiplies the particle's energy
    0.045 e^2 + 0.05 e v + v^2 (e the displacement from the rest position,
    v the velocity, summed over both axes) by exactly 0.9.  Hence after n
    such frames the squared distance to the rest position is at most
    0.9^n times the initial energy divided by 0.044375: the particle
    returns to rest geometrically, and one that is at rest stays
    there. *)
Theorem far_pointer_returns_to_rest (frames : list Particle.Frame) (p : Particle.t) :
  pointer_stays_far frames p ->
  let q := idle_frames frames p in
  rest_energy q = 0.9 ^ List.length frames * rest_energy p /\
  0.044375 * displacement2 q <= 0.9 ^ List.length frames * rest_energy p /\
  (rest_energy p = 0 -> displacement2 q = 0).
Proof.
  intros Hfar q. subst q.
  pose proof (idle_frames_far_energy frames p Hfar) as Henergy.
  pose proof (rest_energy_bounds_displacement (idle_frames frames p)) as Hbound.
  split; [exact Henergy |]. split; [rewrite <- Henergy; exact Hbound |].
  intros Hrest. rewrite Henergy, Hrest, Rmult_0_r in Hbound.
  assert (0 <= displacement2 (idle_frames frames p)) as Hpos.
  { assert (forall a b, 0 <= a * a + b * b) as Hsq by (intros; nra).
    apply Hsq. }
  lra.
Qed.

(** A particle released 1 px to the right of its rest position (30, 40),
    the pointer absent. *)
Lemma far_pointer_returns_to_rest_witness :
  let p := Particle.set_position 31 40 (Particle.constructor 30 40 0.5 0.5 0.5 0.5) in
  let frames := [Particle.mkFrame None None 0; Particle.mkFrame None None 16] in
  let q := idle_frames frames p in
  rest_energy q = 0.9 ^ List.length frames * rest_energy p /\
  0.044375 * displacement2 q <= 0.9 ^ List.length frames * rest_energy p /\
  (rest_energy p = 0 -> displacement2 q = 0).
Proof.
  apply (far_pointer_returns_to_rest
           [Particle.mkFrame None None 0; Particle.mkFrame None None 16]
           (Particle.set_position 31 40 (Particle.constructor 30 40 0.5 0.5 0.5 0.5))).
  assert (forall a, 35 * 35 <= a -> 35 <= sqrt a) as Hsqrt.
  { intros a Ha. rewrite <- (sqrt_square 35) at 1 by lra. apply sqrt_le_1_alt, Ha. }
  simpl. split.
  - apply Hsqrt. unfold pointer_distance. simpl. lra.
  - rewrite idle_frame_far by (apply Hsqrt; simpl; lra).
    split; [| exact I]. apply Hsqrt. simpl. lra.
Defined.

(** ** Near the pointer *)

Lemma idle_frame_noise (f : Particle.Frame) (p : Particle.t) :
  Particle.noise (idle_frame f p) = Particle.noise p.
Proof.
  unfold idle_frame, Particle.update. now destruct (js_lt _ _).
Qed.

(** One near frame: each velocity component is 0.9 times the old one
    plus a push of at most 0.35. *)
Lemma idle_frame_near_velocity (f : Particle.Frame) (p : Particle.t) :
  -0.25 <= Vec.x (Particle.noise p) <= 0.25 ->
  -0.25 <= Vec.y (Particle.noise p) <= 0.25 ->
  pointer_distance f p < 35 ->
  exists pushX pushY,
    -0.35 <= pushX <= 0.35 /\ -0.35 <= pushY <= 0.35 /\
    Vec.x (Particle.velocity (idle_frame f p))
    = 0.9 * (Vec.x (Particle.velocity p) + pushX) /\
    Vec.y (Particle.velocity (idle_frame f p))
    = 0.9 * (Vec.y (Particle.velocity p) + pushY).
Proof.
  intros Hnx Hny Hnear. unfold idle_frame.
  rewrite update_idle_near by exact Hnear.
  fold (pointer_distance f p).
  set (d := pointer_distance f p) in *.
  assert (0 <= d) as Hd by apply sqrt_pos.
  set (angle := atan2 _ _).
  set (phase := Particle.frame_time f * 0.002 + Particle.noiseOffset p).
  assert (0 < (35 - d) / 35 <= 1) as Hforce.
  { split; [apply Rdiv_lt_0_compat; lra |].
    apply Rmult_le_reg_r with 35; [lra |].
    replace ((35 - d) / 35 * 35) with (35 - d) by (field; lra). lra. }
  set (force := (35 - d) / 35) in *.
  pose proof (COS_bound angle) as Hc. pose proof (SIN_bound angle) as Hs.
  pose proof (COS_bound phase) as Hpc. pose proof (SIN_bound phase) as Hps.
  exists (cos angle * force * 0.1 + sin phase * Vec.x (Particle.noise p)),
         (sin angle * force * 0.1 + cos phase * Vec.y (Particle.noise p)).
  assert (forall a b, -1 <= a <= 1 -> 0 < b <= 1 -> -1 <= a * b <= 1) as Hab
    by (intros; nra).
  assert (forall a b, -1 <= a <= 1 -> -0.25 <= b <= 0.25 -> -0.25 <= a * b <= 0.25) as Han
    by (intros; nra).
  pose proof (Hab _ _ Hc Hforce). pose proof (Hab _ _ Hs Hforce).
  pose proof (Han _ _ Hps Hnx). pose proof (Han _ _ Hpc Hny).
  repeat split; simpl; lra.
Qed.

(** X3. For a particle whose noise amplitudes are within 0.25, as the
    constructor makes them, and whose velocity components are within
    3.15: however long the pointer stays within 35 px of it (also at
    distance 0), each velocity component stays within 3.15 px per frame;
    the damping 0.9 balances the push of at most 0.35 per frame. *)
Theorem near_pointer_velocity_bounded (frames : list Particle.Frame) (p : Particle.t) :
  -0.25 <= Vec.x (Particle.noise p) <= 0.25 ->
  -0.25 <= Vec.y (Particle.noise p) <= 0.25 ->
  -3.15 <= Vec.x (Particle.velocity p) <= 3.15 ->
  -3.15 <= Vec.y (Particle.velocity p) <= 3.15 ->
  pointer_stays_near frames p ->
  -3.15 <= Vec.x (Particle.velocity (idle_frames frames p)) <= 3.15 /\
  -3.15 <= Vec.y (Particle.velocity (idle_frames frames p)) <= 3.15.
Proof.
  revert p. induction frames as [| f rest IH]; intros p Hnx Hny Hvx Hvy Hnear.
  - split; assumption.
  - destruct Hnear as [Hf Hrest]. simpl.
    destruct (idle_frame_near_velocity f p Hnx Hny Hf)
      as (pushX & pushY & HpX & HpY & HvX & HvY).
    apply IH; try exact Hrest; rewrite ?idle_frame_noise; try assumption.
    + rewrite HvX. lra.
    + rewrite HvY. lra.
Qed.

Lemma near_pointer_velocity_bounded_witness :
  -3.15 <= Vec.x (Particle.velocity
                    (idle_frames [Particle.mkFrame (Some 3) (Some 4) 0] sample_particle))
        <= 3.15 /\
  -3.15 <= Vec.y (Particle.velocity
                    (idle_frames [Particle.mkFrame (Some 3) (Some 4) 0] sample_particle))
        <= 3.15.
Proof.
  apply (near_pointer_velocity_bounded
           [Particle.mkFrame (Some 3) (Some 4) 0] sample_particle);
    try (simpl; lra).
  simpl. split; [| exact I]. unfold pointer_distance. simpl.
  replace ((3 - 3) * (3 - 3) + (4 - 4) * (4 - 4)) with 0 by lra.
  rewrite sqrt_0. lra.
Defined.

(** ** Free flight *)

Lemma update_exploding_flight (mX mY : option R) (time start duration fade : R)
    (p : Particle.t) :
  let q := Particle.update mX mY time true start duration fade p in
  Particle.velocity q = Particle.velocity p /\
  Particle.x q = Particle.x p + Vec.x (Particle.velocity p) /\
  Particle.y q = Particle.y p + Vec.y (Particle.velocity p).
Proof.
  unfold Particle.update. destruct (js_gt _ _); repeat split.
Qed.

Lemma explosion_trace_flight (start duration fade : R) (frames : list Particle.Frame) :
  forall (p : Particle.t) (k : nat) (q : Particle.t),
    nth_error (Particle.explosion_trace start duration fade frames p) k = Some q ->
    Particle.velocity q = Particle.velocity p /\
    Particle.x q = Particle.x p + INR (S k) * Vec.x (Particle.velocity p) /\
    Particle.y q = Particle.y p + INR (S k) * Vec.y (Particle.velocity p).
Proof.
  induction frames as [| f rest IH]; intros p k q Hq.
  - destruct k; discriminate.
  - pose proof (update_exploding_flight (Particle.frame_mouseX f)
                  (Particle.frame_mouseY f) (Particle.frame_time f)
                  start duration fade p) as (Hv & Hx & Hy).
    simpl in Hq. destruct k as [| k].
    + injection Hq as <-. simpl INR. repeat split; [exact Hv | lra | lra].
    + apply IH in Hq. destruct Hq as (Hv' & Hx' & Hy').
      rewrite Hv', Hx', Hy', Hv, Hx, Hy.
      rewrite (S_INR (S k)).
      repeat split; ring.
Qed.

(** X4. After explode() with random values r1, r2 (r2 not negative),
    explosion frames move the particle on a straight line at constant
    velocity, whatever the pointer and the clock: after the k-th frame it
    is exactly k * (5 * r2 + 2) px away from where it was when explode()
    was called. *)
Theorem exploded_particle_flies_straight (r1 r2 start duration fade : R)
    (frames : list Particle.Frame) (p q : Particle.t) (k : nat) :
  0 <= r2 ->
  nth_error
    (Particle.explosion_trace start duration fade frames (Particle.explode r1 r2 p)) k
  = Some q ->
  Particle.velocity q = Particle.velocity (Particle.explode r1 r2 p) /\
  sqrt ((Particle.x q - Particle.x p) * (Particle.x q - Particle.x p)
        + (Particle.y q - Particle.y p) * (Particle.y q - Particle.y p))
  = INR (S k) * (5 * r2 + 2).
Proof.
  intros Hr2 Hq.
  apply explosion_trace_flight in Hq. destruct Hq as (Hv & Hx & Hy).
  split; [exact Hv |].
  rewrite Hx, Hy. unfold Particle.explode. simpl Particle.x. simpl Particle.y.
  simpl Particle.velocity. simpl Vec.x. simpl Vec.y.
  set (angle := r1 * PI * 2). set (steps := INR (S k)).
  assert (0 < steps) as Hsteps by (apply lt_0_INR; lia).
  pose proof (sin2_cos2 angle) as Hunit. unfold Rsqr in Hunit.
  apply sqrt_lem_1.
  - nra.
  - apply Rmult_le_pos; lra.
  - replace (Particle.x p + steps * (cos angle * (r2 * 5 + 2)) - Particle.x p)
      with (steps * (r2 * 5 + 2) * cos angle) by ring.
    replace (Particle.y p + steps * (sin angle * (r2 * 5 + 2)) - Particle.y p)
      with (steps * (r2 * 5 + 2) * sin angle) by ring.
    replace (steps * (r2 * 5 + 2) * cos angle * (steps * (r2 * 5 + 2) * cos angle)
             + steps * (r2 * 5 + 2) * sin angle * (steps * (r2 * 5 + 2) * sin angle))
      with ((steps * (r2 * 5 + 2)) * (steps * (r2 * 5 + 2))
            * (sin angle * sin angle + cos angle * cos angle)) by ring.
    rewrite Hunit. ring.
Qed.

Lemma exploded_particle_flies_straight_witness :
  exists q,
    nth_error
      (Particle.explosion_trace 0 1500 500
         [Particle.mkFrame None None 16; Particle.mkFrame None None 32]
         (Particle.explode 0.25 0.5 sample_particle)) 1 = Some q /\
    Particle.velocity q = Particle.velocity (Particle.explode 0.25 0.5 sample_particle) /\
    sqrt ((Particle.x q - Particle.x sample_particle)
          * (Particle.x q - Particle.x sample_particle)
          + (Particle.y q - Particle.y sample_particle)
            * (Particle.y q - Particle.y sample_particle))
    = INR 2 * (5 * 0.5 + 2).
Proof.
  eexists. split; [reflexivity |].
  apply (exploded_particle_flies_straight 0.25 0.5 0 1500 500
           [Particle.mkFrame None None 16; Particle.mkFrame None None 32]
           sample_particle _ 1%nat); [lra | reflexivity].
Defined.

(** X5. The fade-out is not clamped.  For a particle that has had no
    explosion frame before and a clock that never goes back, the opacity
    after a frame lies between 0 and 1 when at most explosionDuration has
    elapsed since the start of the explosion, and is negative at every
    later frame. *)
Theorem opacity_goes_negative (p : Particle.t) (start duration fade : R)
    (frames : list Particle.Frame) (k : nat) (f : Particle.Frame) (q : Particle.t) :
  Particle.unfaded p ->
  0 < fade ->
  nondecreasing (map Particle.frame_time frames) ->
  nth_error frames k = Some f ->
  nth_error (Particle.explosion_trace start duration fade frames p) k = Some q ->
  (Particle.frame_time f - start <= duration -> 0 <= Particle.alpha q <= 1) /\
  (duration < Particle.frame_time f - start -> Particle.alpha q < 0).
Proof.
  intros Hp Hfade Hmono Hf Hq.
  rewrite (explosion_trace_alpha_unfaded start duration fade frames p Hp Hmono k f q Hf Hq).
  set (elapsed := Particle.frame_time f - start).
  assert (forall e, duration - fade < e ->
            fade_level duration fade e = 1 - (e - (duration - fade)) / fade) as Hlate
    by (intros; now apply fade_level_late).
  assert (forall e, (e - (duration - fade)) / fade * fade = e - (duration - fade)) as Hmul
    by (intros; field; lra).
  split; intros He.
  - split; [| now apply fade_level_le_1].
    destruct (Rle_lt_dec elapsed (duration - fade)) as [Hearly | Hramp].
    + rewrite fade_level_early by exact Hearly. lra.
    + rewrite Hlate by exact Hramp. specialize (Hmul elapsed).
      assert ((elapsed - (duration - fade)) / fade <= 1); [| lra].
      apply Rmult_le_reg_r with fade; [exact Hfade |]. lra.
  - rewrite Hlate by lra. specialize (Hmul elapsed).
    assert (1 < (elapsed - (duration - fade)) / fade); [| lra].
    apply Rmult_lt_reg_r with fade; [exact Hfade |]. lra.
Qed.

Lemma opacity_goes_negative_witness :
  exists q,
    nth_error
      (Particle.explosion_trace 0 1500 500
         [Particle.mkFrame None None 1400; Particle.mkFrame None None 1600]
         sample_particle) 1 = Some q /\
    (1600 - 0 <= 1500 -> 0 <= Particle.alpha q <= 1) /\
    (1500 < 1600 - 0 -> Particle.alpha q < 0).
Proof.
  eexists. split; [reflexivity |].
  refine (opacity_goes_negative sample_particle 0 1500 500
            [Particle.mkFrame None None 1400; Particle.mkFrame None None 1600]
            1%nat (Particle.mkFrame None None 1600) _
            (Particle.unfaded_new 3 4 0.5 0.5 0.5 0.5) _ _ eq_refl eq_refl).
  - lra.
  - simpl. split; [lra | exact I].
Defined.

(** ** Building the particles *)

Lemma build_particles_app (rnd : nat -> R) (cells1 cells2 : list (Z * Z)) :
  forall drawn,
    build_particles rnd drawn (cells1 ++ cells2)
    = build_particles rnd drawn cells1
      ++ build_particles rnd (drawn + 4 * List.length cells1) cells2.
Proof.
  induction cells1 as [| c rest IH]; intros drawn; simpl.
  - now rewrite Nat.add_0_r.
  - rewrite IH. do 3 f_equal. lia.
Qed.

Lemma build_particles_length (rnd : nat -> R) (cells : list (Z * Z)) :
  forall drawn, List.length (build_particles rnd drawn cells) = List.length cells.
Proof. induction cells as [| c rest IH]; intros drawn; simpl; [| rewrite IH]; reflexivity. Qed.

(** The test of the loop body reads the alpha byte of the pixel. *)
Lemma alpha_above_200_covered (data : ImageData.t) (x y : Z) :
  CreditLink.alpha_above_200 data (y * 4 * ImageData.width data + x * 4 + 3)%Z
  = covered data (x, y).
Proof.
  unfold covered, CreditLink.alpha_above_200. cbn [fst snd].
  now replace (y * 4 * ImageData.width data + x * 4 + 3)%Z
    with (4 * (y * ImageData.width data + x) + 3)%Z by ring.
Qed.

Section Building.

Variable data : ImageData.t.
Variable stride : Z.
Hypothesis stride_pos : (1 <= stride)%Z.
Variable rnd : nat -> R.

Let cells (n : Z) : nat := Z.to_nat ((n + stride - 1) / stride).

Let row_cells (y : Z) (k : nat) : list (Z * Z) :=
  filter (covered data)
    (map (fun j => ((Z.of_nat j * stride)%Z, y))
       (seq k (cells (ImageData.width data) - k))).

(** The inner loop appends the particles of the covered cells of the rest
    of the row and counts four random values for each. *)
Lemma scan_row_builds (y : Z) (fuel : nat) :
  forall (k : nat) (acc : list Particle.t * nat),
    (cells (ImageData.width data) - k <= fuel)%nat ->
    CreditLink.scan_row fuel data stride y (Z.of_nat k * stride)%Z rnd acc
    = (fst acc ++ build_particles rnd (snd acc) (row_cells y k),
       (snd acc + 4 * List.length (row_cells y k))%nat).
Proof.
  unfold row_cells.
  induction fuel as [| fuel IH]; intros k [ps drawn] Hfuel.
  - replace (cells (ImageData.width data) - k)%nat with O by lia.
    simpl. now rewrite app_nil_r, Nat.add_0_r.
  - cbn [CreditLink.scan_row]. rewrite (below_iff_counted stride stride_pos).
    fold (cells (ImageData.width data)).
    destruct (Nat.ltb_spec k (cells (ImageData.width data))) as [Hk | Hk].
    + replace (cells (ImageData.width data) - k)%nat
        with (S (cells (ImageData.width data) - S k)) by lia.
      cbn [seq map filter].
      replace (Z.of_nat k * stride + stride)%Z with (Z.of_nat (S k) * stride)%Z by lia.
      rewrite IH by lia. rewrite alpha_above_200_covered.
      destruct (covered data ((Z.of_nat k * stride)%Z, y)).
      * cbn [fst snd build_particles List.length]. rewrite <- app_assoc.
        f_equal. lia.
      * reflexivity.
    + replace (cells (ImageData.width data) - k)%nat with O by lia.
      simpl. now rewrite app_nil_r, Nat.add_0_r.
Qed.

(** The outer loop does so for the remaining rows. *)
Lemma scan_rows_builds (fuel : nat) :
  forall (k : nat) (acc : list Particle.t * nat),
    (cells (ImageData.height data) - k <= fuel)%nat ->
    let rest :=
      filter (covered data)
        (flat_map
           (fun y => map (fun x => (x, y)) (stride_axis stride (ImageData.width data)))
           (map (fun j => (Z.of_nat j * stride)%Z)
              (seq k (cells (ImageData.height data) - k)))) in
    CreditLink.scan_rows fuel data stride (Z.of_nat k * stride)%Z rnd acc
    = (fst acc ++ build_particles rnd (snd acc) rest,
       (snd acc + 4 * List.length rest)%nat).
Proof.
  induction fuel as [| fuel IH]; intros k [ps drawn] Hfuel.
  - replace (cells (ImageData.height data) - k)%nat with O by lia.
    simpl. now rewrite app_nil_r, Nat.add_0_r.
  - cbn [CreditLink.scan_rows]. rewrite (below_iff_counted stride stride_pos).
    fold (cells (ImageData.height data)).
    destruct (Nat.ltb_spec k (cells (ImageData.height data))) as [Hk | Hk].
    + replace (cells (ImageData.height data) - k)%nat
        with (S (cells (ImageData.height data) - S k)) by lia.
      cbn [seq map flat_map].
      replace (Z.of_nat k * stride + stride)%Z with (Z.of_nat (S k) * stride)%Z by lia.
      change 0%Z with (Z.of_nat 0 * stride)%Z at 1.
      rewrite scan_row_builds
        by (pose proof (cells_le stride stride_pos (ImageData.width data)) as Hc;
            cbv beta zeta in Hc; unfold cells; lia).
      rewrite IH by lia. cbn zeta. cbn [fst snd].
      rewrite filter_app, build_particles_app, length_app, <- app_assoc.
      unfold row_cells, stride_axis. fold (cells (ImageData.width data)).
      rewrite Nat.sub_0_r, map_map. cbn [fst snd].
      f_equal. lia.
    + replace (cells (ImageData.height data) - k)%nat with O by lia.
      simpl. now rewrite app_nil_r, Nat.add_0_r.
Qed.

Lemma scan_builds :
  let grid :=
    filter (covered data)
      (stride_grid stride (ImageData.width data) (ImageData.height data)) in
  CreditLink.scan_rows (Z.to_nat (ImageData.height data)) data stride 0%Z rnd ([], O)
  = (build_particles rnd O grid, (4 * List.length grid)%nat).
Proof.
  change 0%Z with (Z.of_nat 0 * stride)%Z.
  rewrite scan_rows_builds
    by (pose proof (cells_le stride stride_pos (ImageData.height data)) as Hc;
        cbv beta zeta in Hc; unfold cells; lia).
  rewrite Nat.sub_0_r. reflexivity.
Qed.

End Building.

Lemma build_particles_nth (rnd : nat -> R) (cells : list (Z * Z)) :
  forall (drawn k : nat) (cell : Z * Z),
    nth_error cells k = Some cell ->
    nth_error (build_particles rnd drawn cells) k
    = Some (Particle.constructor (IZR (fst cell)) (IZR (snd cell))
              (rnd (drawn + 4 * k)%nat) (rnd (drawn + 4 * k + 1)%nat)
              (rnd (drawn + 4 * k + 2)%nat) (rnd (drawn + 4 * k + 3)%nat)).
Proof.
  induction cells as [| c rest IH]; intros drawn k cell Hk.
  - destruct k; discriminate.
  - destruct k as [| k]; simpl in Hk |- *.
    + injection Hk as <-. repeat (f_equal; try lia).
    + rewrite (IH _ _ _ Hk). repeat (f_equal; try lia).
Qed.

Lemma createParticles_particles (host : Host) (rnd : nat -> R) (st : CreditLink.t) :
  Canvas.width (CreditLink.canvas st) <> 0%Z ->
  Canvas.height (CreditLink.canvas st) <> 0%Z ->
  CreditLink.particles (outcome (CreditLink.createParticles host rnd st))
  = build_particles rnd O
      (filter (covered (CreditLink.rendered_text host st))
         (stride_grid (CreditLink.step host)
            (ImageData.width (CreditLink.rendered_text host st))
            (ImageData.height (CreditLink.rendered_text host st)))).
Proof.
  intros Hw Hh. rewrite createParticles_returns by assumption.
  cbn [outcome CreditLink.particles CreditLink.set_particles].
  rewrite scan_builds by (unfold CreditLink.step; lia).
  reflexivity.
Qed.

(** However [createParticles] ends, the particles it leaves are built by
    the constructor, one per cell of some list of cells. *)
Lemma createParticles_builds (host : Host) (rnd : nat -> R) (st : CreditLink.t) :
  exists cells,
    CreditLink.particles (outcome (CreditLink.createParticles host rnd st))
    = build_particles rnd O cells.
Proof.
  destruct (Z.eq_dec (Canvas.width (CreditLink.canvas st)) 0) as [Hw | Hw];
    [| destruct (Z.eq_dec (Canvas.height (CreditLink.canvas st)) 0) as [Hh | Hh]].
  - exists []. rewrite createParticles_throws by now left. reflexivity.
  - exists []. rewrite createParticles_throws by now right. reflexivity.
  - eexists. now apply createParticles_particles.
Qed.

(** X6. On a canvas with a width and a height, createParticles returns
    with exactly one particle per covered cell of the stride grid, in
    row-major order: the k-th particle sits on the k-th covered cell and
    is built with the values 4k, 4k+1, 4k+2, 4k+3 of the random source
    (density, noise x, noise y, noise offset), so a call draws four random
    values per particle and none for the cells it skips.  On a canvas
    without a width or without a height it ends in the IndexSizeError of
    getImageData with no particle at all. *)
Theorem createParticles_one_particle_per_covered_cell (host : Host) (rnd : nat -> R)
    (st : CreditLink.t) :
  let data := CreditLink.rendered_text host st in
  let cells :=
    filter (covered data)
      (stride_grid (CreditLink.step host) (ImageData.width data) (ImageData.height data)) in
  let particles :=
    CreditLink.particles (outcome (CreditLink.createParticles host rnd st)) in
  (Canvas.width (CreditLink.canvas st) <> 0%Z ->
   Canvas.height (CreditLink.canvas st) <> 0%Z ->
   (exists st', CreditLink.createParticles host rnd st = Normal st') /\
   List.length particles = List.length cells /\
   forall k cell,
     nth_error cells k = Some cell ->
     nth_error particles k
     = Some (Particle.constructor (IZR (fst cell)) (IZR (snd cell))
               (rnd (4 * k)%nat) (rnd (4 * k + 1)%nat)
               (rnd (4 * k + 2)%nat) (rnd (4 * k + 3)%nat))) /\
  (Canvas.width (CreditLink.canvas st) = 0%Z \/
   Canvas.height (CreditLink.canvas st) = 0%Z ->
   (exists st', CreditLink.createParticles host rnd st = ThrowIndexSizeError st') /\
   particles = []).
Proof.
  intros data cells particles. subst particles. split.
  - intros Hw Hh.
    split; [eexists; now apply createParticles_returns |].
    rewrite createParticles_particles by assumption. fold data. fold cells.
    split; [apply build_particles_length |].
    intros k cell Hk. now rewrite (build_particles_nth rnd cells O k cell Hk).
  - intros Hzero. rewrite createParticles_throws by exact Hzero.
    split; [eexists; reflexivity | reflexivity].
Qed.

Lemma createParticles_one_particle_per_covered_cell_witness :
  nth_error
    (CreditLink.particles
       (outcome
          (CreditLink.createParticles (scenario_host 0) (fun i => INR i / 8)
             scenario_field)))
    1
  = Some (Particle.constructor 0 3 (INR 4 / 8) (INR 5 / 8) (INR 6 / 8) (INR 7 / 8)).
Proof.
  destruct (createParticles_one_particle_per_covered_cell
              (scenario_host 0) (fun i => INR i / 8) scenario_field)
    as (Hsized & _).
  destruct Hsized as (_ & _ & Hnth); [discriminate | discriminate |].
  apply (Hnth 1%nat (0%Z, 3%Z)).
  unfold CreditLink.step. cbn [devicePixelRatio scenario_host]. rewrite floor_3.
  reflexivity.
Defined.

Lemma filter_none {A : Type} (f : A -> bool) (l : list A) :
  (forall a, In a l -> f a = false) -> filter f l = [].
Proof.
  induction l as [| a rest IH]; intros Hnone; [reflexivity |].
  simpl. rewrite (Hnone a) by now left.
  apply IH. intros b Hb. apply Hnone. now right.
Qed.

(** X7. createParticles leaves the field without particles in two cases.
    On a canvas without width or height it ends in the IndexSizeError of
    getImageData, the collection already cleared.  On a canvas with a
    width and a height it returns an empty collection when no alpha byte
    of the buffer (the fourth byte of a pixel) is above 200, whatever the
    colour bytes are: the text fell outside the canvas or was drawn too
    thin. *)
Theorem createParticles_nothing_to_sample (host : Host) (rnd : nat -> R)
    (st : CreditLink.t) :
  (Canvas.width (CreditLink.canvas st) = 0%Z \/
   Canvas.height (CreditLink.canvas st) = 0%Z ->
   exists st',
     CreditLink.createParticles host rnd st = ThrowIndexSizeError st' /\
     CreditLink.particles st' = []) /\
  (Canvas.width (CreditLink.canvas st) <> 0%Z ->
   Canvas.height (CreditLink.canvas st) <> 0%Z ->
   (forall pixel alpha,
      nth_error (ImageData.data (CreditLink.rendered_text host st)) (4 * pixel + 3)
      = Some alpha ->
      (alpha <= 200)%Z) ->
   exists st',
     CreditLink.createParticles host rnd st = Normal st' /\
     CreditLink.particles st' = []).
Proof.
  split.
  - intros Hzero. eexists. split; [now apply createParticles_throws | reflexivity].
  - intros Hw Hh Halpha.
    pose proof (createParticles_particles host rnd st Hw Hh) as Hps.
    rewrite createParticles_returns in Hps |- * by assumption.
    eexists. split; [reflexivity |].
    cbn [outcome] in Hps. rewrite Hps.
    rewrite filter_none; [reflexivity |].
    intros [x y] Hcell.
    apply stride_grid_cells in Hcell; [| unfold CreditLink.step; lia].
    unfold covered. cbn [fst snd].
    set (data := CreditLink.rendered_text host st) in *.
    replace (Z.to_nat (4 * (y * ImageData.width data + x) + 3))
      with (4 * Z.to_nat (y * ImageData.width data + x) + 3)%nat by nia.
    destruct (nth_error (ImageData.data data) _) as [alpha |] eqn:E; [| reflexivity].
    apply Halpha in E. now apply Z.ltb_ge.
Qed.

(** A white pixel of alpha 150, and a canvas without width. *)
Lemma createParticles_nothing_to_sample_witness :
  (exists st',
     CreditLink.createParticles
       (host_showing (ImageData.mk 1 1 [255%Z; 255%Z; 255%Z; 150%Z]))
       scenario_rnd scenario_field = Normal st' /\
     CreditLink.particles st' = []) /\
  (exists st',
     CreditLink.createParticles (scenario_host 0) scenario_rnd
       (CreditLink.set_canvas (Canvas.mk 0 800 DefaultFont) scenario_field)
     = ThrowIndexSizeError st' /\
     CreditLink.particles st' = []).
Proof.
  split.
  - apply (createParticles_nothing_to_sample
             (host_showing (ImageData.mk 1 1 [255%Z; 255%Z; 255%Z; 150%Z]))
             scenario_rnd scenario_field); [discriminate | discriminate |].
    intros pixel alpha Hnth. cbn [CreditLink.rendered_text host_showing getImageData
      ImageData.data] in Hnth.
    destruct pixel as [| pixel].
    + injection Hnth as <-. lia.
    + replace (4 * S pixel + 3)%nat with (S (S (S (S (4 * pixel + 3))))) in Hnth by lia.
      destruct (4 * pixel + 3)%nat; discriminate Hnth.
  - apply (createParticles_nothing_to_sample (scenario_host 0) scenario_rnd
             (CreditLink.set_canvas (Canvas.mk 0 800 DefaultFont) scenario_field)).
    left. reflexivity.
Defined.

(** ** Starting the explosion *)

Lemma explode_each_nth (rnd : nat -> R) (ps : list Particle.t) :
  forall (drawn k : nat) (p : Particle.t),
    nth_error ps k = Some p ->
    nth_error (CreditLink.explode_each rnd drawn ps) k
    = Some (Particle.explode (rnd (drawn + 2 * k)%nat) (rnd (drawn + 2 * k + 1)%nat) p).
Proof.
  induction ps as [| p0 rest IH]; intros drawn k p Hk.
  - destruct k; discriminate.
  - destruct k as [| k]; simpl in Hk |- *.
    + injection Hk as <-. repeat (f_equal; try lia).
    + rewrite (IH _ _ _ Hk). repeat (f_equal; try lia).
Qed.

Lemma explode_each_length (rnd : nat -> R) (ps : list Particle.t) :
  forall drawn, List.length (CreditLink.explode_each rnd drawn ps) = List.length ps.
Proof. induction ps as [| p rest IH]; intros drawn; simpl; [| rewrite IH]; reflexivity. Qed.

Lemma explode_speed (r1 r2 : R) (p : Particle.t) :
  0 <= r2 -> speed (Particle.explode r1 r2 p) = 5 * r2 + 2.
Proof.
  intros Hr2. unfold speed, Particle.explode. simpl.
  set (angle := r1 * PI * 2).
  pose proof (sin2_cos2 angle) as Hunit. unfold Rsqr in Hunit.
  apply sqrt_lem_1; [nra | lra |].
  replace (cos angle * (r2 * 5 + 2) * (cos angle * (r2 * 5 + 2))
           + sin angle * (r2 * 5 + 2) * (sin angle * (r2 * 5 + 2)))
    with ((r2 * 5 + 2) * (r2 * 5 + 2)
          * (sin angle * sin angle + cos angle * cos angle)) by ring.
  rewrite Hunit. ring.
Qed.

(** X8. With a random source that gives values in [0,1), startExplosion
    keeps the number and the order of the particles; the k-th particle
    gets its direction from the value 2k and its speed from the value
    2k+1 of the source, its speed is 5 * rnd(2k+1) + 2, between 2 and 7,
    and its position and opacity are unchanged.  The call marks the field
    as exploding at the current time and asks for one redirect, to the
    field's URL after the field's explosionDuration. *)
Theorem startExplosion_launches_every_particle (host : Host) (rnd : nat -> R)
    (st : CreditLink.t) :
  (forall i, 0 <= rnd i < 1) ->
  let st' := fst (CreditLink.startExplosion host rnd st) in
  CreditLink.isExploding st' = true /\
  CreditLink.explosionStartTime st' = now host /\
  snd (CreditLink.startExplosion host rnd st)
  = [SetTimeoutRedirect (CreditLink.redirectURL st) (CreditLink.explosionDuration st)] /\
  List.length (CreditLink.particles st') = List.length (CreditLink.particles st) /\
  forall k p,
    nth_error (CreditLink.particles st) k = Some p ->
    exists q,
      nth_error (CreditLink.particles st') k = Some q /\
      q = Particle.explode (rnd (2 * k)%nat) (rnd (2 * k + 1)%nat) p /\
      speed q = 5 * rnd (2 * k + 1)%nat + 2 /\
      2 <= speed q < 7 /\
      Particle.x q = Particle.x p /\ Particle.y q = Particle.y p /\
      Particle.alpha q = Particle.alpha p.
Proof.
  intros Hrnd st'. subst st'. unfold CreditLink.startExplosion.
  cbn [fst snd CreditLink.isExploding CreditLink.explosionStartTime
       CreditLink.particles CreditLink.set_particles CreditLink.set_isExploding
       CreditLink.set_explosionStartTime CreditLink.redirectURL
       CreditLink.explosionDuration].
  repeat split; [apply explode_each_length |].
  intros k p Hk.
  exists (Particle.explode (rnd (2 * k)%nat) (rnd (2 * k + 1)%nat) p).
  split; [exact (explode_each_nth rnd _ O k p Hk) |].
  pose proof (Hrnd (2 * k + 1)%nat) as Hr.
  rewrite explode_speed by lra.
  repeat split; lra.
Qed.

Lemma startExplosion_launches_every_particle_witness :
  exists q,
    nth_error
      (CreditLink.particles
         (fst (CreditLink.startExplosion (scenario_host 4000) scenario_rnd scenario_field)))
      0 = Some q /\
    q = Particle.explode (scenario_rnd (2 * 0)%nat) (scenario_rnd (2 * 0 + 1)%nat)
          sample_particle /\
    speed q = 5 * scenario_rnd (2 * 0 + 1)%nat + 2 /\
    2 <= speed q < 7 /\
    Particle.x q = Particle.x sample_particle /\
    Particle.y q = Particle.y sample_particle /\
    Particle.alpha q = Particle.alpha sample_particle.
Proof.
  destruct (startExplosion_launches_every_particle (scenario_host 4000) scenario_rnd
              scenario_field) as (_ & _ & _ & _ & Hnth).
  - intros i. unfold scenario_rnd. lra.
  - apply (Hnth O sample_particle). reflexivity.
Defined.

(** ** Pointer coordinates *)

(** X9. handleInteraction stores the pointer in the coordinates of the
    canvas buffer: for a canvas and a layout box of non-zero size, a
    mouse move (or the first touch of a touch move) at the place of the
    window where the buffer point (cx, cy) is shown stores exactly
    (cx, cy), whatever the position and the scaling of the canvas in the
    page; nothing else in the field changes. *)
Theorem handleInteraction_stores_canvas_point (host : Host) (st : CreditLink.t)
    (pt : R * R) (more : list Touch) :
  DOMRect.width (getBoundingClientRect host) <> 0 ->
  DOMRect.height (getBoundingClientRect host) <> 0 ->
  Canvas.width (CreditLink.canvas st) <> 0%Z ->
  Canvas.height (CreditLink.canvas st) <> 0%Z ->
  let client := client_of_canvas host st pt in
  let moved := CreditLink.set_mouse (CreditLink.mkMouse (Some (fst pt)) (Some (snd pt))) st in
  CreditLink.to_canvas host st (fst client) (snd client) = pt /\
  CreditLink.handleInteraction host (mousemove (mkMouseEvent (fst client) (snd client))) st
  = Normal (moved, []) /\
  CreditLink.handleInteraction host
    (touchmove (mkTouchEvent (mkTouch (fst client) (snd client) :: more))) st
  = Normal (moved, [PreventDefault]).
Proof.
  intros Hw Hh Hcw Hch client moved.
  assert (IZR (Canvas.width (CreditLink.canvas st)) <> 0) as Hcw'
    by (now apply not_0_IZR).
  assert (IZR (Canvas.height (CreditLink.canvas st)) <> 0) as Hch'
    by (now apply not_0_IZR).
  assert (CreditLink.to_canvas host st (fst client) (snd client) = pt) as Hpt.
  { unfold client, client_of_canvas, CreditLink.to_canvas. cbn [fst snd].
    destruct pt as [cx cy]. cbn [fst snd]. f_equal; field; split; assumption. }
  split; [exact Hpt |].
  unfold CreditLink.handleInteraction. cbn [clientX clientY touches nth_error
    touch_clientX touch_clientY].
  rewrite Hpt. split; reflexivity.
Qed.

Lemma handleInteraction_stores_canvas_point_witness :
  let host :=
    mkHost 480 800 2 0 (fun _ _ => 200) (fun _ _ _ _ _ _ => tiny_image)
      (DOMRect.mk 10 20 500 400) in
  let client := client_of_canvas host scenario_field (800, 775) in
  let moved := CreditLink.set_mouse (CreditLink.mkMouse (Some 800) (Some 775)) scenario_field in
  CreditLink.to_canvas host scenario_field (fst client) (snd client) = (800, 775) /\
  CreditLink.handleInteraction host (mousemove (mkMouseEvent (fst client) (snd client)))
    scenario_field
  = Normal (moved, []) /\
  CreditLink.handleInteraction host
    (touchmove (mkTouchEvent (mkTouch (fst client) (snd client) :: []))) scenario_field
  = Normal (moved, [PreventDefault]).
Proof.
  apply (handleInteraction_stores_canvas_point
           (mkHost 480 800 2 0 (fun _ _ => 200) (fun _ _ _ _ _ _ => tiny_image)
              (DOMRect.mk 10 20 500 400))
           scenario_field (800, 775) []); simpl; try lra; discriminate.
Defined.

(** ** The field over its life *)

(** Splits a statement on one delivery into the ways the listeners can
    go. *)
Ltac handler_cases :=
  unfold deliver;
  unfold CreditLink.handleInteraction, CreditLink.handleTouch, CreditLink.handleClick,
         CreditLink.animate, CreditLink.handleResize, CreditLink.createParticles,
         CreditLink.resizeCanvas, CreditLink.startExplosion;
  repeat match goal with
         | |- context [nth_error ?l 0] => destruct (nth_error l 0)
         end;
  repeat match goal with
         | |- context [CreditLink.in_text_bounds ?b ?p] =>
             destruct (CreditLink.in_text_bounds b p)
         end;
  repeat match goal with
         | |- context [if ?zero then ThrowIndexSizeError _ else _] => destruct zero
         end;
  simpl.

Ltac deliver_cases ev :=
  destruct ev as [| [? | ? |] | ? | ? |]; handler_cases.

Lemma deliver_constants (host : Host) (rnd : nat -> R) (ev : Event) (st : CreditLink.t) :
  let st' := fst (deliver host rnd ev st) in
  CreditLink.explosionDuration st' = CreditLink.explosionDuration st /\
  CreditLink.fadeOutDuration st' = CreditLink.fadeOutDuration st /\
  CreditLink.redirectURL st' = CreditLink.redirectURL st /\
  CreditLink.creditText st' = CreditLink.creditText st.
Proof. deliver_cases ev; repeat split. Qed.

Lemma deliver_exploding (host : Host) (rnd : nat -> R) (ev : Event) (st : CreditLink.t) :
  CreditLink.isExploding (fst (deliver host rnd ev st))
  = CreditLink.isExploding st || existsb is_redirect (snd (deliver host rnd ev st)).
Proof.
  deliver_cases ev; rewrite ?orb_false_r, ?orb_true_r; reflexivity.
Qed.

Lemma deliver_redirects (host : Host) (rnd : nat -> R) (ev : Event) (st : CreditLink.t) :
  forall e, In e (snd (deliver host rnd ev st)) -> is_redirect e = true ->
    e = SetTimeoutRedirect (CreditLink.redirectURL st) (CreditLink.explosionDuration st).
Proof.
  deliver_cases ev; intros eff Hin Hred;
    repeat (destruct Hin as [<- | Hin]; [try discriminate Hred; try reflexivity |]);
    contradiction.
Qed.

Lemma run_constants (occs : list Occurrence) :
  forall st,
    let st' := fst (run occs st) in
    CreditLink.explosionDuration st' = CreditLink.explosionDuration st /\
    CreditLink.fadeOutDuration st' = CreditLink.fadeOutDuration st /\
    CreditLink.redirectURL st' = CreditLink.redirectURL st /\
    CreditLink.creditText st' = CreditLink.creditText st.
Proof.
  induction occs as [| o rest IH]; intros st; [repeat split |].
  cbn [run fst].
  destruct (IH (fst (deliver (occ_host o) (occ_rnd o) (occ_event o) st)))
    as (H1 & H2 & H3 & H4).
  destruct (deliver_constants (occ_host o) (occ_rnd o) (occ_event o) st)
    as (K1 & K2 & K3 & K4).
  cbn zeta in *. repeat split; congruence.
Qed.

Lemma run_exploding (occs : list Occurrence) :
  forall st,
    CreditLink.isExploding (fst (run occs st))
    = CreditLink.isExploding st || existsb is_redirect (snd (run occs st)).
Proof.
  induction occs as [| o rest IH]; intros st.
  - simpl. now rewrite orb_false_r.
  - cbn [run fst snd]. rewrite IH, deliver_exploding, existsb_app, orb_assoc.
    reflexivity.
Qed.

Lemma run_redirects (occs : list Occurrence) :
  forall st e,
    In e (snd (run occs st)) -> is_redirect e = true ->
    e = SetTimeoutRedirect (CreditLink.redirectURL st) (CreditLink.explosionDuration st).
Proof.
  induction occs as [| o rest IH]; intros st e Hin Hred; [contradiction |].
  cbn [run snd] in Hin. apply in_app_or in Hin. destruct Hin as [Hin | Hin].
  - now apply deliver_redirects in Hin.
  - apply IH in Hin; [| exact Hred].
    destruct (deliver_constants (occ_host o) (occ_rnd o) (occ_event o) st)
      as (K1 & _ & K3 & _).
    cbn zeta in *. now rewrite K1, K3 in Hin.
Qed.

(** X10. Over any sequence of resizes, pointer moves, clicks, touch ends
    and animation frames, in any order and also when a listener throws: a
    field that is exploding stays exploding (no listener, not even the
    resize, ever clears the flag), and explosionDuration, fadeOutDuration,
    redirectURL and creditText keep their values. *)
Theorem exploding_is_permanent (occs : list Occurrence) (st : CreditLink.t) :
  let st' := fst (run occs st) in
  (CreditLink.isExploding st = true -> CreditLink.isExploding st' = true) /\
  CreditLink.explosionDuration st' = CreditLink.explosionDuration st /\
  CreditLink.fadeOutDuration st' = CreditLink.fadeOutDuration st /\
  CreditLink.redirectURL st' = CreditLink.redirectURL st /\
  CreditLink.creditText st' = CreditLink.creditText st.
Proof.
  intros st'. split; [| apply run_constants].
  intros Hexp. unfold st'. now rewrite run_exploding, Hexp.
Qed.

Lemma exploding_is_permanent_witness :
  CreditLink.isExploding
    (fst (run [mkOccurrence (scenario_host 5000) scenario_rnd ev_resize;
               mkOccurrence (scenario_host 5016) scenario_rnd ev_frame;
               mkOccurrence (scenario_host 5020) scenario_rnd
                 (ev_touchend (mkTouchEvent []))]
              exploding_field)) = true.
Proof.
  apply (exploding_is_permanent
           [mkOccurrence (scenario_host 5000) scenario_rnd ev_resize;
            mkOccurrence (scenario_host 5016) scenario_rnd ev_frame;
            mkOccurrence (scenario_host 5020) scenario_rnd
              (ev_touchend (mkTouchEvent []))]
           exploding_field).
  reflexivity.
Defined.

Lemma constructor_url_not_empty (c : Canvas.t) (url : option string) :
  CreditLink.redirectURL (CreditLink.constructor c url) <> EmptyString /\
  (forall u, url = Some u -> u <> EmptyString ->
     CreditLink.redirectURL (CreditLink.constructor c url) = u).
Proof.
  unfold CreditLink.constructor. cbn [CreditLink.redirectURL].
  destruct url as [u |].
  - destruct (String.eqb_spec u EmptyString) as [-> | Hne].
    + split; [discriminate | intros u [= <-] Hu; contradiction].
    + split; [exact Hne | now intros u' [= <-] _].
  - split; [discriminate | discriminate].
Qed.

(** X11. For a field made by the constructor and then driven by any
    sequence of events: the field is exploding exactly when a redirect
    timer has been asked for, and every redirect timer ever asked for has
    the delay 1500 and a non-empty target, the URL given to the
    constructor or, when that was missing or empty, the default URL. *)
Theorem redirect_scheduled_iff_exploding (c : Canvas.t) (url : option string)
    (occs : list Occurrence) :
  let st0 := CreditLink.constructor c url in
  CreditLink.isExploding (fst (run occs st0)) = existsb is_redirect (snd (run occs st0)) /\
  (forall e, In e (snd (run occs st0)) -> is_redirect e = true ->
     e = SetTimeoutRedirect (CreditLink.redirectURL st0) 1500) /\
  CreditLink.redirectURL st0 <> EmptyString /\
  (url = None \/ url = Some EmptyString ->
   CreditLink.redirectURL st0 = "https://jonaskjeldmand.vercel.app/"%string) /\
  (forall u, url = Some u -> u <> EmptyString -> CreditLink.redirectURL st0 = u).
Proof.
  intros st0.
  split; [unfold st0; rewrite run_exploding; reflexivity |].
  split; [intros e Hin Hred; exact (run_redirects occs st0 e Hin Hred) |].
  split; [apply constructor_url_not_empty |].
  split; [| apply constructor_url_not_empty].
  intros [-> | ->]; reflexivity.
Qed.

Lemma build_particles_unfaded (rnd : nat -> R) (cells : list (Z * Z)) :
  forall drawn, Forall Particle.unfaded (build_particles rnd drawn cells).
Proof.
  induction cells as [| c rest IH]; intros drawn; simpl; constructor;
    [apply Particle.unfaded_new | apply IH].
Qed.

Lemma deliver_unfaded (host : Host) (rnd : nat -> R) (ev : Event) (st : CreditLink.t) :
  (CreditLink.isExploding st = false -> Forall Particle.unfaded (CreditLink.particles st)) ->
  CreditLink.isExploding (fst (deliver host rnd ev st)) = false ->
  Forall Particle.unfaded (CreditLink.particles (fst (deliver host rnd ev st))).
Proof.
  intros Hinv Hidle.
  assert (CreditLink.isExploding st = false) as Hst.
  { rewrite deliver_exploding in Hidle. now apply orb_false_elim in Hidle. }
  specialize (Hinv Hst).
  destruct ev as [| e | e | e |].
  - cbn [deliver fst]. unfold CreditLink.handleResize.
    destruct (createParticles_builds host rnd (CreditLink.resizeCanvas host st))
      as [cells ->].
    apply build_particles_unfaded.
  - revert Hidle. destruct e; handler_cases; intros _; exact Hinv.
  - revert Hidle. handler_cases; intros Hidle;
      [discriminate | exact Hinv].
  - revert Hidle. handler_cases; intros Hidle;
      try discriminate; exact Hinv.
  - cbn [deliver fst CreditLink.animate CreditLink.particles CreditLink.set_particles].
    rewrite Hst. apply Forall_map.
    eapply Forall_impl; [| exact Hinv].
    intros p Hp. now apply Particle.unfaded_idle.
Qed.

Lemma run_unfaded (occs : list Occurrence) :
  forall st,
    (CreditLink.isExploding st = false ->
     Forall Particle.unfaded (CreditLink.particles st)) ->
    CreditLink.isExploding (fst (run occs st)) = false ->
    Forall Particle.unfaded (CreditLink.particles (fst (run occs st))).
Proof.
  induction occs as [| o rest IH]; intros st Hinv Hidle; [now apply Hinv |].
  cbn [run fst] in *. apply IH; [| exact Hidle].
  intros Hmid. now apply deliver_unfaded.
Qed.

(** X12. A field made by the constructor and driven by any sequence of
    events has every particle at full opacity as long as it is not
    exploding: only the frames of an explosion ever write alpha. *)
Theorem idle_field_is_opaque (c : Canvas.t) (url : option string)
    (occs : list Occurrence) :
  let st := fst (run occs (CreditLink.constructor c url)) in
  CreditLink.isExploding st = false ->
  forall p, In p (CreditLink.particles st) -> Particle.alpha p = 1.
Proof.
  intros st Hidle p Hp.
  apply unfaded_alpha.
  assert (Forall Particle.unfaded (CreditLink.particles st)) as Hall.
  { apply run_unfaded; [intros _; constructor | exact Hidle]. }
  rewrite Forall_forall in Hall. now apply Hall.
Qed.

Lemma idle_field_is_opaque_witness :
  Forall (fun p => Particle.alpha p = 1)
    (CreditLink.particles
       (fst (run [mkOccurrence (scenario_host 0) scenario_rnd ev_resize;
                  mkOccurrence (scenario_host 16) scenario_rnd ev_frame;
                  mkOccurrence (scenario_host 20) scenario_rnd
                    (ev_click click_outside)]
                 (CreditLink.constructor (Canvas.mk 300 150 DefaultFont) None)))).
Proof.
  apply Forall_forall.
  apply (idle_field_is_opaque (Canvas.mk 300 150 DefaultFont) None
           [mkOccurrence (scenario_host 0) scenario_rnd ev_resize;
            mkOccurrence (scenario_host 16) scenario_rnd ev_frame;
            mkOccurrence (scenario_host 20) scenario_rnd (ev_click click_outside)]).
  rewrite run_exploding. cbn [CreditLink.isExploding CreditLink.constructor orb].
  cbn [run snd deliver occ_host occ_rnd occ_event CreditLink.animate app].
  rewrite handleClick_outside; [reflexivity |].
  unfold inside_box, CreditLink.getTextBounds, CreditLink.to_canvas. simpl. lra.
Defined.

(** ** The pointer over the life of the field *)

Lemma deliver_mouse (host : Host) (rnd : nat -> R) (ev : Event) (st : CreditLink.t) :
  let m := CreditLink.mouse st in
  let m' := CreditLink.mouse (fst (deliver host rnd ev st)) in
  ((CreditLink.mouse_x m = None <-> CreditLink.mouse_y m = None) ->
   (CreditLink.mouse_x m' = None <-> CreditLink.mouse_y m' = None)) /\
  (CreditLink.mouse_x m <> None -> CreditLink.mouse_x m' <> None).
Proof.
  deliver_cases ev; split; try tauto; try (intros _; split; discriminate);
    intros _; discriminate.
Qed.

(** X13. For a field made by the constructor and driven by any sequence
    of events, the two pointer coordinates are null together or numbers
    together; and in any field, once the pointer has a position no event
    makes it null again, so the pointer is absent only before the first
    pointer move. *)
Theorem pointer_is_set_for_good (occs : list Occurrence) :
  (forall c url,
     let m := CreditLink.mouse (fst (run occs (CreditLink.constructor c url))) in
     CreditLink.mouse_x m = None <-> CreditLink.mouse_y m = None) /\
  (forall st,
     CreditLink.mouse_x (CreditLink.mouse st) <> None ->
     CreditLink.mouse_x (CreditLink.mouse (fst (run occs st))) <> None).
Proof.
  assert (forall st,
            ((CreditLink.mouse_x (CreditLink.mouse st) = None
              <-> CreditLink.mouse_y (CreditLink.mouse st) = None) ->
             (CreditLink.mouse_x (CreditLink.mouse (fst (run occs st))) = None
              <-> CreditLink.mouse_y (CreditLink.mouse (fst (run occs st))) = None)) /\
            (CreditLink.mouse_x (CreditLink.mouse st) <> None ->
             CreditLink.mouse_x (CreditLink.mouse (fst (run occs st))) <> None)) as Hrun.
  { induction occs as [| o rest IH]; intros st; [split; trivial |].
    cbn [run fst].
    destruct (deliver_mouse (occ_host o) (occ_rnd o) (occ_event o) st) as [Hboth Hset].
    destruct (IH (fst (deliver (occ_host o) (occ_rnd o) (occ_event o) st)))
      as [Hboth' Hset'].
    cbn zeta in *. split; auto. }
  split.
  - intros c url m. apply Hrun. simpl. tauto.
  - intros st. apply Hrun.
Qed.

(** ** The sample points over the life of the field *)

Lemma update_keeps_base (mX mY : option R) (time : R) (exploding : bool)
    (start duration fade : R) (p : Particle.t) :
  Particle.baseX (Particle.update mX mY time exploding start duration fade p)
  = Particle.baseX p /\
  Particle.baseY (Particle.update mX mY time exploding start duration fade p)
  = Particle.baseY p.
Proof.
  unfold Particle.update.
  destruct exploding; [destruct (js_gt _ _) | destruct (js_lt _ _)]; split; reflexivity.
Qed.

Lemma explode_each_sample_points (rnd : nat -> R) (ps : list Particle.t) :
  forall drawn, sample_points (CreditLink.explode_each rnd drawn ps) = sample_points ps.
Proof.
  induction ps as [| p rest IH]; intros drawn; [reflexivity |].
  simpl. now rewrite IH.
Qed.

Lemma deliver_sample_points (host : Host) (rnd : nat -> R) (ev : Event)
    (st : CreditLink.t) :
  ev <> ev_resize ->
  sample_points (CreditLink.particles (fst (deliver host rnd ev st)))
  = sample_points (CreditLink.particles st).
Proof.
  intros Hev. destruct ev as [| e | e | e |]; [contradiction | | | |].
  - destruct e; handler_cases; reflexivity.
  - handler_cases; [apply explode_each_sample_points | reflexivity].
  - handler_cases;
      try reflexivity; apply explode_each_sample_points.
  - cbn [deliver fst CreditLink.animate CreditLink.particles CreditLink.set_particles].
    unfold sample_points. rewrite map_map. apply map_ext. intros p.
    destruct (update_keeps_base
                (CreditLink.mouse_x (CreditLink.mouse st))
                (CreditLink.mouse_y (CreditLink.mouse st)) (now host)
                (CreditLink.isExploding st) (CreditLink.explosionStartTime st)
                (CreditLink.explosionDuration st) (CreditLink.fadeOutDuration st) p)
      as [-> ->].
    reflexivity.
Qed.

(** X14. Between two resizes the field keeps its text shape: over any
    sequence of pointer moves, clicks, touch ends and animation frames
    (idle or exploding, and also across the start of an explosion) the
    number of particles, their order and their rest positions stay the
    same.  Only a resize rebuilds the collection. *)
Theorem only_resize_changes_sample_points (occs : list Occurrence) (st : CreditLink.t) :
  existsb is_resize occs = false ->
  sample_points (CreditLink.particles (fst (run occs st)))
  = sample_points (CreditLink.particles st) /\
  List.length (CreditLink.particles (fst (run occs st)))
  = List.length (CreditLink.particles st).
Proof.
  intros Hnone.
  assert (sample_points (CreditLink.particles (fst (run occs st)))
          = sample_points (CreditLink.particles st)) as Hsame.
  { revert st. induction occs as [| o rest IH]; intros st; [reflexivity |].
    cbn [existsb] in Hnone. apply orb_false_elim in Hnone. destruct Hnone as [Ho Hrest].
    cbn [run fst]. rewrite IH by exact Hrest.
    apply deliver_sample_points. intros Heq.
    unfold is_resize in Ho. rewrite Heq in Ho. discriminate. }
  split; [exact Hsame |].
  apply (f_equal (@List.length _)) in Hsame. unfold sample_points in Hsame.
  now rewrite !length_map in Hsame.
Qed.

Lemma only_resize_changes_sample_points_witness :
  sample_points
    (CreditLink.particles
       (fst (run [mkOccurrence (scenario_host 10) scenario_rnd
                    (ev_move (mousemove (mkMouseEvent 4 5)));
                  mkOccurrence (scenario_host 16) scenario_rnd ev_frame;
                  mkOccurrence (scenario_host 20) scenario_rnd (ev_click click_inside);
                  mkOccurrence (scenario_host 32) scenario_rnd ev_frame]
                 scenario_field)))
  = sample_points (CreditLink.particles scenario_field) /\
  List.length
    (CreditLink.particles
       (fst (run [mkOccurrence (scenario_host 10) scenario_rnd
                    (ev_move (mousemove (mkMouseEvent 4 5)));
                  mkOccurrence (scenario_host 16) scenario_rnd ev_frame;
                  mkOccurrence (scenario_host 20) scenario_rnd (ev_click click_inside);
                  mkOccurrence (scenario_host 32) scenario_rnd ev_frame]
                 scenario_field)))
  = List.length (CreditLink.particles scenario_field).
Proof.
  apply (only_resize_changes_sample_points
           [mkOccurrence (scenario_host 10) scenario_rnd
              (ev_move (mousemove (mkMouseEvent 4 5)));
            mkOccurrence (scenario_host 16) scenario_rnd ev_frame;
            mkOccurrence (scenario_host 20) scenario_rnd (ev_click click_inside);
            mkOccurrence (scenario_host 32) scenario_rnd ev_frame]
           scenario_field).
  reflexivity.
Defined.

(** ** From the click to the flight *)

Lemma run_frames_flight (hosts : list Host) :
  forall st,
    CreditLink.isExploding st = true ->
    forall k p,
      nth_error (CreditLink.particles st) k = Some p ->
      exists q,
        nth_error (CreditLink.particles (fst (run (frames_at hosts) st))) k = Some q /\
        Particle.velocity q = Particle.velocity p /\
        Particle.x q = Particle.x p + INR (List.length hosts) * Vec.x (Particle.velocity p) /\
        Particle.y q = Particle.y p + INR (List.length hosts) * Vec.y (Particle.velocity p).
Proof.
  induction hosts as [| host rest IH]; intros st Hexp k p Hk.
  - exists p. simpl. repeat split; [exact Hk | lra | lra].
  - cbn [frames_at map run fst deliver occ_host occ_rnd occ_event].
    fold (frames_at rest).
    set (p1 := Particle.update (CreditLink.mouse_x (CreditLink.mouse st))
                 (CreditLink.mouse_y (CreditLink.mouse st)) (now host) true
                 (CreditLink.explosionStartTime st) (CreditLink.explosionDuration st)
                 (CreditLink.fadeOutDuration st) p).
    destruct (IH (fst (CreditLink.animate host st))) with (k := k) (p := p1)
      as (q & Hq & Hv & Hx & Hy).
    + exact Hexp.
    + cbn [CreditLink.animate fst CreditLink.particles CreditLink.set_particles].
      rewrite nth_error_map, Hk, Hexp. reflexivity.
    + exists q. split; [exact Hq |].
      destruct (update_exploding_flight (CreditLink.mouse_x (CreditLink.mouse st))
                  (CreditLink.mouse_y (CreditLink.mouse st)) (now host)
                  (CreditLink.explosionStartTime st) (CreditLink.explosionDuration st)
                  (CreditLink.fadeOutDuration st) p) as (Hv1 & Hx1 & Hy1).
      fold p1 in Hv1, Hx1, Hy1.
      rewrite Hv, Hx, Hy, Hv1, Hx1, Hy1.
      change (List.length (host :: rest)) with (S (List.length rest)).
      rewrite S_INR. repeat split; ring.
Qed.

Lemma straight_line_distance (steps s angle x0 y0 : R) :
  0 <= steps -> 0 <= s ->
  sqrt ((x0 + steps * (cos angle * s) - x0) * (x0 + steps * (cos angle * s) - x0)
        + (y0 + steps * (sin angle * s) - y0) * (y0 + steps * (sin angle * s) - y0))
  = steps * s.
Proof.
  intros Hsteps Hs.
  pose proof (sin2_cos2 angle) as Hunit. unfold Rsqr in Hunit.
  apply sqrt_lem_1.
  - nra.
  - now apply Rmult_le_pos.
  - replace ((x0 + steps * (cos angle * s) - x0) * (x0 + steps * (cos angle * s) - x0)
             + (y0 + steps * (sin angle * s) - y0) * (y0 + steps * (sin angle * s) - y0))
      with ((steps * s) * (steps * s)
            * (sin angle * sin angle + cos angle * cos angle)) by ring.
    rewrite Hunit. ring.
Qed.

(** X15. A click inside the text box followed by n animation frames
    (nothing but frames in between) leaves every particle exactly
    n * speed away from where it was at the click, its speed being
    5 * rnd(2k+1) + 2 for the k-th particle: the frames of an explosion
    ignore the pointer, the rest position and the damping. *)
Theorem click_then_frames_scatter (host : Host) (rnd : nat -> R) (event : MouseEvent)
    (st : CreditLink.t) (hosts : list Host) :
  DOMRect.width (getBoundingClientRect host) <> 0 ->
  DOMRect.height (getBoundingClientRect host) <> 0 ->
  (forall i, 0 <= rnd i) ->
  inside_box (CreditLink.getTextBounds host st)
    (CreditLink.to_canvas host st (clientX event) (clientY event)) ->
  let clicked := fst (CreditLink.handleClick host rnd event st) in
  let flown := fst (run (frames_at hosts) clicked) in
  CreditLink.isExploding flown = true /\
  forall k p,
    nth_error (CreditLink.particles st) k = Some p ->
    exists q,
      nth_error (CreditLink.particles flown) k = Some q /\
      distance_between p q = INR (List.length hosts) * (5 * rnd (2 * k + 1)%nat + 2).
Proof.
  intros _ _ Hrnd Hin clicked flown.
  assert (CreditLink.isExploding clicked = true) as Hexp.
  { unfold clicked. rewrite handleClick_inside by exact Hin. reflexivity. }
  split.
  { unfold flown. now rewrite run_exploding, Hexp. }
  intros k p Hk.
  assert (nth_error (CreditLink.particles clicked) k
          = Some (Particle.explode (rnd (2 * k)%nat) (rnd (2 * k + 1)%nat) p)) as Hk'.
  { unfold clicked. rewrite handleClick_inside by exact Hin.
    exact (explode_each_nth rnd _ O k p Hk). }
  destruct (run_frames_flight hosts clicked Hexp k _ Hk') as (q & Hq & _ & Hx & Hy).
  exists q. split; [exact Hq |].
  unfold distance_between. rewrite Hx, Hy. unfold Particle.explode. simpl.
  replace (5 * rnd (k + (k + 0) + 1)%nat + 2)
    with (rnd (k + (k + 0) + 1)%nat * 5 + 2) by ring.
  apply straight_line_distance; [apply pos_INR |].
  pose proof (Hrnd (k + (k + 0) + 1)%nat). lra.
Qed.

Lemma click_then_frames_scatter_witness :
  let clicked :=
    fst (CreditLink.handleClick (scenario_host 4000) scenario_rnd click_inside
           scenario_field) in
  let flown :=
    fst (run (frames_at [scenario_host 4016; scenario_host 4032]) clicked) in
  CreditLink.isExploding flown = true /\
  forall k p,
    nth_error (CreditLink.particles scenario_field) k = Some p ->
    exists q,
      nth_error (CreditLink.particles flown) k = Some q /\
      distance_between p q
      = INR (List.length [scenario_host 4016; scenario_host 4032])
        * (5 * scenario_rnd (2 * k + 1)%nat + 2).
Proof.
  apply (click_then_frames_scatter (scenario_host 4000) scenario_rnd click_inside
           scenario_field [scenario_host 4016; scenario_host 4032]).
  - simpl. lra.
  - simpl. lra.
  - intros i. unfold scenario_rnd. lra.
  - now apply scenario_click_inside.
Defined.

(** ** Initialisation *)

Lemma build_particles_at_rest (rnd : nat -> R) (cells : list (Z * Z)) :
  forall drawn, Forall at_rest (build_particles rnd drawn cells).
Proof.
  induction cells as [| c rest IH]; intros drawn; simpl; constructor;
    [repeat split | apply IH].
Qed.

Lemma absent_pointer_keeps_far_particle_at_rest (time start duration fade : R)
    (p : Particle.t) :
  at_rest p ->
  35 <= sqrt (Particle.baseX p * Particle.baseX p + Particle.baseY p * Particle.baseY p) ->
  at_rest (Particle.update None None time false start duration fade p).
Proof.
  intros (Hx & Hy & Hv & Ha) Hfar.
  rewrite update_idle_far.
  - unfold at_rest, return_to_rest. simpl. rewrite Hx, Hy, Hv. simpl.
    split; [lra |]. split; [lra |]. split; [f_equal; lra | exact Ha].
  - simpl. rewrite Hx, Hy.
    replace ((0 - Particle.baseX p) * (0 - Particle.baseX p)
             + (0 - Particle.baseY p) * (0 - Particle.baseY p))
      with (Particle.baseX p * Particle.baseX p + Particle.baseY p * Particle.baseY p)
      by ring.
    exact Hfar.
Qed.

(** X16. init() on a freshly constructed field sizes the canvas to the
    window and samples the text; the field is not exploding either way.
    In a window with a width and a height it then runs the first frame
    and asks for the next one and returns: the sample points are the
    covered cells of the stride grid, and, the pointer being still
    absent, every particle whose sample point is at least 35 px from the
    canvas origin is exactly at its sample point, at rest and opaque,
    after that first frame.  In a window without a width or without a
    height the read-back of the canvas throws an IndexSizeError: init()
    ends there, with no particle, no frame drawn and none asked for. *)
Theorem init_starts_an_idle_field (c : Canvas.t) (url : option string) (host : Host)
    (rnd : nat -> R) :
  let started := CreditLink.init host rnd (CreditLink.constructor c url) in
  let st := fst (outcome started) in
  let data := CreditLink.rendered_text host st in
  CreditLink.isExploding st = false /\
  Canvas.width (CreditLink.canvas st) = innerWidth host /\
  Canvas.height (CreditLink.canvas st) = innerHeight host /\
  (innerWidth host <> 0%Z -> innerHeight host <> 0%Z ->
   started = Normal (st, [RequestAnimationFrame]) /\
   sample_points (CreditLink.particles st)
   = map cell_point
       (filter (covered data)
          (stride_grid (CreditLink.step host) (ImageData.width data)
             (ImageData.height data))) /\
   forall p,
     In p (CreditLink.particles st) ->
     35 <= sqrt (Particle.baseX p * Particle.baseX p + Particle.baseY p * Particle.baseY p) ->
     at_rest p) /\
  (innerWidth host = 0%Z \/ innerHeight host = 0%Z ->
   started = ThrowIndexSizeError (st, []) /\
   CreditLink.particles st = []).
Proof.
  intros started st data.
  set (st0 := CreditLink.resizeCanvas host (CreditLink.constructor c url)).
  assert (Canvas.width (CreditLink.canvas st0) = innerWidth host) as Hw by reflexivity.
  assert (Canvas.height (CreditLink.canvas st0) = innerHeight host) as Hh by reflexivity.
  assert (started
          = match CreditLink.createParticles host rnd st0 with
            | Normal st1 => Normal (CreditLink.animate host st1)
            | ThrowTypeError st1 => ThrowTypeError (st1, [])
            | ThrowIndexSizeError st1 => ThrowIndexSizeError (st1, [])
            end) as Hstarted by reflexivity.
  destruct (Z.eq_dec (innerWidth host) 0) as [Hw0 | Hw0];
    [| destruct (Z.eq_dec (innerHeight host) 0) as [Hh0 | Hh0]].
  - assert (Canvas.width (CreditLink.canvas st0) = 0%Z
            \/ Canvas.height (CreditLink.canvas st0) = 0%Z) as Hzero
      by (left; congruence).
    pose proof (createParticles_throws host rnd st0 Hzero) as Hthrow.
    rewrite Hthrow in Hstarted.
    unfold st. rewrite Hstarted. cbn [outcome fst].
    split; [reflexivity |]. split; [reflexivity |]. split; [reflexivity |].
    split; [intros Hnz _; contradiction |].
    intros _. split; reflexivity.
  - assert (Canvas.width (CreditLink.canvas st0) = 0%Z
            \/ Canvas.height (CreditLink.canvas st0) = 0%Z) as Hzero
      by (right; congruence).
    pose proof (createParticles_throws host rnd st0 Hzero) as Hthrow.
    rewrite Hthrow in Hstarted.
    unfold st. rewrite Hstarted. cbn [outcome fst].
    split; [reflexivity |]. split; [reflexivity |]. split; [reflexivity |].
    split; [intros _ Hnz; contradiction |].
    intros _. split; reflexivity.
  - assert (Canvas.width (CreditLink.canvas st0) <> 0%Z) as Hwn by congruence.
    assert (Canvas.height (CreditLink.canvas st0) <> 0%Z) as Hhn by congruence.
    pose proof (createParticles_returns host rnd st0 Hwn Hhn) as Hret.
    pose proof (createParticles_particles host rnd st0 Hwn Hhn) as Hbuilt.
    pose proof (createParticles_sample_points host rnd st0 Hwn Hhn) as Hpoints.
    rewrite Hret in Hstarted, Hbuilt, Hpoints.
    cbn [outcome] in Hbuilt, Hpoints.
    set (st1 := CreditLink.set_particles _ _) in Hstarted, Hbuilt, Hpoints.
    assert (CreditLink.particles st
            = map (Particle.update None None (now host) false 0 1500 500)
                (CreditLink.particles st1)) as Hps
      by (unfold st; rewrite Hstarted; reflexivity).
    split; [unfold st; rewrite Hstarted; reflexivity |].
    split; [unfold st; rewrite Hstarted; reflexivity |].
    split; [unfold st; rewrite Hstarted; reflexivity |].
    split; [| intros [Hz | Hz]; contradiction].
    intros _ _. split; [unfold st; rewrite Hstarted; reflexivity |]. split.
    + rewrite Hps. unfold sample_points at 1. rewrite map_map.
      erewrite map_ext.
      * fold (sample_points (CreditLink.particles st1)).
        assert (data = CreditLink.rendered_text host st0) as ->
          by (unfold data, st; rewrite Hstarted; reflexivity).
        exact Hpoints.
      * intros p.
        destruct (update_keeps_base None None (now host) false 0 1500 500 p) as [-> ->].
        reflexivity.
    + intros p Hp Hfar. rewrite Hps in Hp. apply in_map_iff in Hp.
      destruct Hp as (p0 & <- & Hp0).
      destruct (update_keeps_base None None (now host) false 0 1500 500 p0) as [Hbx Hby].
      rewrite Hbx, Hby in Hfar.
      apply absent_pointer_keeps_far_particle_at_rest; [| exact Hfar].
      rewrite Hbuilt in Hp0.
      pose proof (build_particles_at_rest rnd
                    (filter (covered (CreditLink.rendered_text host st0))
                       (stride_grid (CreditLink.step host)
                          (ImageData.width (CreditLink.rendered_text host st0))
                          (ImageData.height (CreditLink.rendered_text host st0)))) O)
        as Hall.
      rewrite Forall_forall in Hall. now apply Hall.
Qed.

(** X17. After a resize, the box that the clicks are tested against is
    anchored where the text was drawn for sampling: the text was drawn
    with the font the box is measured with, starting at the left edge of
    the box and with the bottom of the box as its baseline; the right
    edge of the box is 20 px from the right edge of the canvas and its
    bottom 20 px from the bottom edge. *)
Theorem text_box_follows_the_drawn_text (host : Host) (rnd : nat -> R)
    (st : CreditLink.t) :
  let st' := outcome (CreditLink.handleResize host rnd st) in
  let box := CreditLink.getTextBounds host st' in
  let font := CreditFont (CreditLink.fontSize host) in
  Canvas.font (CreditLink.canvas st') = font /\
  CreditLink.bounds_width box = measureText host font (CreditLink.creditText st) /\
  CreditLink.bounds_x box + CreditLink.bounds_width box = IZR (innerWidth host) - 20 /\
  CreditLink.bounds_y box = IZR (innerHeight host) - 20 /\
  CreditLink.bounds_height box = CreditLink.fontSize host * 1.2 /\
  CreditLink.rendered_text host (CreditLink.resizeCanvas host st)
  = getImageData host font (CreditLink.creditText st)
      (CreditLink.bounds_x box) (CreditLink.bounds_y box)
      (innerWidth host) (innerHeight host).
Proof.
  intros st' box font.
  assert (CreditLink.canvas st'
          = Canvas.mk (innerWidth host) (innerHeight host) font
          /\ CreditLink.creditText st' = CreditLink.creditText st) as [Hcanvas Htext].
  { unfold st', CreditLink.handleResize, CreditLink.createParticles,
      CreditLink.resizeCanvas.
    cbn [CreditLink.canvas CreditLink.set_canvas CreditLink.set_particles
         Canvas.width Canvas.height].
    destruct ((innerWidth host =? 0)%Z || (innerHeight host =? 0)%Z)%bool;
      split; reflexivity. }
  unfold box, CreditLink.getTextBounds. rewrite Hcanvas, Htext.
  cbn [Canvas.width Canvas.height Canvas.font CreditLink.bounds_x
       CreditLink.bounds_y CreditLink.bounds_width CreditLink.bounds_height].
  repeat split; try reflexivity. lra.
Qed.

(** ** The application object *)

Lemma app_resizes_keep_null (hosts : list (Host * (nat -> R))) :
  forall app,
    App.creditLink app = None ->
    fold_left (fun a h => App.handleResize (fst h) (snd h) a) hosts app = app.
Proof.
  induction hosts as [| h rest IH]; intros app Hnull; [reflexivity |].
  simpl. unfold App.handleResize at 2. rewrite Hnull. now apply IH.
Qed.

(** X18. The three ways App.init ends.  Without the canvas element it
    asks nothing of the browser and leaves App.creditLink null, and then
    no resize, however many, changes anything.  With the canvas element
    in a window that has a width and a height, CreditLink.init returns
    and App.creditLink is the field it built, with the site's URL as its
    redirect target, not exploding, the next frame asked for.  With the
    canvas element in a window without a width or without a height,
    App.creditLink is assigned all the same, and holds the field as
    CreditLink.init left it at the IndexSizeError: the canvas sized, no
    particle, not exploding, no frame asked for.  In both cases with the
    element every later App.handleResize hands the resize to that field,
    whether its handleResize returns or throws. *)
Theorem app_init_outcomes (host : Host) (rnd : nat -> R) (app : App.t)
    (resizes : list (Host * (nat -> R))) :
  App.creditLink app = None ->
  (let failed := App.init None host rnd app in
   snd failed = [] /\
   fold_left (fun a h => App.handleResize (fst h) (snd h) a) resizes (fst failed) = app) /\
  (forall c,
     let created :=
       CreditLink.constructor c (Some "https://jonaskjeldmand.vercel.app/"%string) in
     let started := App.init (Some c) host rnd app in
     exists field,
       App.creditLink (fst started) = Some field /\
       CreditLink.isExploding field = false /\
       CreditLink.redirectURL field = "https://jonaskjeldmand.vercel.app/"%string /\
       Canvas.width (CreditLink.canvas field) = innerWidth host /\
       Canvas.height (CreditLink.canvas field) = innerHeight host /\
       (innerWidth host <> 0%Z -> innerHeight host <> 0%Z ->
        CreditLink.init host rnd created = Normal (field, [RequestAnimationFrame]) /\
        snd started = [RequestAnimationFrame]) /\
       (innerWidth host = 0%Z \/ innerHeight host = 0%Z ->
        CreditLink.init host rnd created = ThrowIndexSizeError (field, []) /\
        snd started = [] /\
        CreditLink.particles field = []) /\
       forall host' rnd',
         App.creditLink (App.handleResize host' rnd' (fst started))
         = Some (outcome (CreditLink.handleResize host' rnd' field))).
Proof.
  intros Hnull. split.
  - split; [reflexivity |]. now apply app_resizes_keep_null.
  - intros c created started.
    set (st0 := CreditLink.resizeCanvas host created).
    assert (Canvas.width (CreditLink.canvas st0) = innerWidth host) as Hw by reflexivity.
    assert (Canvas.height (CreditLink.canvas st0) = innerHeight host) as Hh by reflexivity.
    assert (CreditLink.init host rnd created
            = match CreditLink.createParticles host rnd st0 with
              | Normal st1 => Normal (CreditLink.animate host st1)
              | ThrowTypeError st1 => ThrowTypeError (st1, [])
              | ThrowIndexSizeError st1 => ThrowIndexSizeError (st1, [])
              end) as Hinit by reflexivity.
    assert (started
            = (App.mk (Some (fst (outcome (CreditLink.init host rnd created)))),
               snd (outcome (CreditLink.init host rnd created)))) as Hstarted
      by reflexivity.
    exists (fst (outcome (CreditLink.init host rnd created))).
    rewrite Hstarted. cbn [fst snd App.creditLink]. clear Hstarted started.
    assert ((innerWidth host = 0%Z \/ innerHeight host = 0%Z)
            \/ (innerWidth host <> 0%Z /\ innerHeight host <> 0%Z)) as [Hzero | [Hwn Hhn]]
      by lia.
    + assert (Canvas.width (CreditLink.canvas st0) = 0%Z
              \/ Canvas.height (CreditLink.canvas st0) = 0%Z) as Hzero'
        by (rewrite Hw, Hh; exact Hzero).
      rewrite (createParticles_throws host rnd st0 Hzero') in Hinit.
      rewrite Hinit. cbn [outcome fst snd].
      split; [reflexivity |]. split; [reflexivity |]. split; [reflexivity |].
      split; [reflexivity |]. split; [reflexivity |].
      split; [intros Hwn Hhn; destruct Hzero; contradiction |].
      split; [intros _; repeat split |].
      intros host' rnd'. reflexivity.
    + assert (Canvas.width (CreditLink.canvas st0) <> 0%Z) as Hwn' by congruence.
      assert (Canvas.height (CreditLink.canvas st0) <> 0%Z) as Hhn' by congruence.
      rewrite (createParticles_returns host rnd st0 Hwn' Hhn') in Hinit.
      rewrite Hinit. cbn [outcome fst snd].
      split; [reflexivity |]. split; [reflexivity |]. split; [reflexivity |].
      split; [reflexivity |]. split; [reflexivity |].
      split; [intros _ _; split; reflexivity |].
      split; [intros [Hz | Hz]; contradiction |].
      intros host' rnd'. reflexivity.
Qed.

Lemma app_init_outcomes_witness :
  (let failed := App.init None (scenario_host 0) scenario_rnd (App.mk None) in
   snd failed = [] /\
   fold_left (fun a h => App.handleResize (fst h) (snd h) a)
     [(scenario_host 10, scenario_rnd); (scenario_host 20, scenario_rnd)] (fst failed)
   = App.mk None) /\
  (forall c,
     let created :=
       CreditLink.constructor c (Some "https://jonaskjeldmand.vercel.app/"%string) in
     let started := App.init (Some c) (scenario_host 0) scenario_rnd (App.mk None) in
     exists field,
       App.creditLink (fst started) = Some field /\
       CreditLink.isExploding field = false /\
       CreditLink.redirectURL field = "https://jonaskjeldmand.vercel.app/"%string /\
       Canvas.width (CreditLink.canvas field) = innerWidth (scenario_host 0) /\
       Canvas.height (CreditLink.canvas field) = innerHeight (scenario_host 0) /\
       (innerWidth (scenario_host 0) <> 0%Z -> innerHeight (scenario_host 0) <> 0%Z ->
        CreditLink.init (scenario_host 0) scenario_rnd created
        = Normal (field, [RequestAnimationFrame]) /\
        snd started = [RequestAnimationFrame]) /\
       (innerWidth (scenario_host 0) = 0%Z \/ innerHeight (scenario_host 0) = 0%Z ->
        CreditLink.init (scenario_host 0) scenario_rnd created
        = ThrowIndexSizeError (field, []) /\
        snd started = [] /\
        CreditLink.particles field = []) /\
       forall host' rnd',
         App.creditLink (App.handleResize host' rnd' (fst started))
         = Some (outcome (CreditLink.handleResize host' rnd' field))).
Proof.
  apply (app_init_outcomes (scenario_host 0) scenario_rnd (App.mk None)
           [(scenario_host 10, scenario_rnd); (scenario_host 20, scenario_rnd)]).
  reflexivity.
Defined.

(** ** The sphere sketch *)

Lemma counter_spec (n i : Z) : In i (Sketch.counter n) <-> (0 <= i < n)%Z.
Proof.
  unfold Sketch.counter. rewrite in_map_iff. split.
  - intros (k & <- & Hk). apply in_seq in Hk. lia.
  - intros Hi. exists (Z.to_nat i). split; [lia |]. apply in_seq. lia.
Qed.

Lemma draw_circles (noise : R -> R -> R -> R) (mouseX mouseY : R) (s : Sketch.t)
    (c : Sketch.Circle) :
  In c (snd (Sketch.draw noise mouseX mouseY s)) <->
  exists i j,
    (0 <= i < Sketch.n s)%Z /\ (0 <= j < Sketch.n s)%Z /\
    Sketch.cell noise mouseY (fst (Sketch.draw noise mouseX mouseY s)) i j = Some c.
Proof.
  unfold Sketch.draw. cbn [fst snd Sketch.n]. rewrite in_flat_map. split.
  - intros (i & Hi & Hc). apply in_flat_map in Hc. destruct Hc as (j & Hj & Hc).
    apply counter_spec in Hi. apply counter_spec in Hj.
    exists i, j. repeat split; try lia.
    destruct (Sketch.cell _ _ _ i j) as [c' |]; [| contradiction].
    destruct Hc as [-> | []]. reflexivity.
  - intros (i & j & Hi & Hj & Hc). exists i. split; [now apply counter_spec |].
    apply in_flat_map. exists j. split; [now apply counter_spec |].
    rewrite Hc. now left.
Qed.

(** X19. Each call of draw() turns the sphere by
    (2 * mouseX / width - 1) * 0.05: at most 0.05 either way while the
    pointer is over the canvas, to the left when it is in the left half,
    to the right in the right half, and not at all only when it is at
    the horizontal centre.  draw() changes no other global. *)
Theorem rotation_follows_the_pointer (noise : R -> R -> R -> R) (mouseX mouseY : R)
    (s : Sketch.t) :
  0 < Sketch.width s ->
  let s' := fst (Sketch.draw noise mouseX mouseY s) in
  let turn := Sketch.azimuthOffset s' - Sketch.azimuthOffset s in
  turn = (2 * mouseX / Sketch.width s - 1) * 0.05 /\
  (0 <= mouseX <= Sketch.width s -> -0.05 <= turn <= 0.05) /\
  (mouseX < Sketch.width s / 2 <-> turn < 0) /\
  (mouseX = Sketch.width s / 2 <-> turn = 0) /\
  s' = Sketch.mk (Sketch.n s) (Sketch.azimuthOffset s + turn) (Sketch.diameter s)
         (Sketch.r s) (Sketch.centreX s) (Sketch.centreY s) (Sketch.radius s)
         (Sketch.width s) (Sketch.height s).
Proof.
  intros Hw s' turn.
  assert (turn = (2 * mouseX / Sketch.width s - 1) * 0.05) as Hturn.
  { unfold turn, s', Sketch.draw, p5_map. simpl. field. lra. }
  assert (mouseX / Sketch.width s * Sketch.width s = mouseX) as Hmul by (field; lra).
  set (ratio := mouseX / Sketch.width s) in *.
  assert (turn = (2 * ratio - 1) * 0.05) as Hturn'.
  { rewrite Hturn. unfold ratio. field. lra. }
  split; [exact Hturn |].
  split; [| split; [| split]].
  - intros Hm. rewrite Hturn'.
    assert (0 <= ratio <= 1); [| lra].
    split.
    + apply Rmult_le_reg_r with (Sketch.width s); [exact Hw |]. lra.
    + apply Rmult_le_reg_r with (Sketch.width s); [exact Hw |]. lra.
  - rewrite Hturn'. split; intros H.
    + assert (ratio < 1 / 2); [| lra].
      apply Rmult_lt_reg_r with (Sketch.width s); [exact Hw |]. lra.
    + assert (ratio < 1 / 2) as Hr by lra.
      apply Rmult_lt_compat_r with (r := Sketch.width s) in Hr; [| exact Hw]. lra.
  - rewrite Hturn'. split; intros H.
    + assert (ratio = 1 / 2); [| lra].
      apply Rmult_eq_reg_r with (Sketch.width s); [| lra]. lra.
    + assert (ratio = 1 / 2) as Hr by lra.
      rewrite Hr in Hmul. lra.
  - unfold turn, s', Sketch.draw. simpl. f_equal. ring.
Qed.

Lemma rotation_follows_the_pointer_witness :
  let s := Sketch.setup 1000 800 in
  let s' := fst (Sketch.draw (fun _ _ _ => 0) 190 0 s) in
  let turn := Sketch.azimuthOffset s' - Sketch.azimuthOffset s in
  turn = (2 * 190 / Sketch.width s - 1) * 0.05 /\
  (0 <= 190 <= Sketch.width s -> -0.05 <= turn <= 0.05) /\
  (190 < Sketch.width s / 2 <-> turn < 0) /\
  (190 = Sketch.width s / 2 <-> turn = 0) /\
  s' = Sketch.mk (Sketch.n s) (Sketch.azimuthOffset s + turn) (Sketch.diameter s)
         (Sketch.r s) (Sketch.centreX s) (Sketch.centreY s) (Sketch.radius s)
         (Sketch.width s) (Sketch.height s).
Proof.
  apply (rotation_follows_the_pointer (fun _ _ _ => 0) 190 0 (Sketch.setup 1000 800)).
  simpl. unfold Rmin. destruct (Rle_dec 1000 800); lra.
Defined.

Lemma recalculated_cell_offset (s : Sketch.t) (i : Z) :
  Sketch.n s = 75%Z ->
  let s1 := Sketch.recalculateParameters s in
  IZR i * Sketch.diameter s1 + Sketch.r s1 - Sketch.centreX s1
  = (IZR i - 37) * (Sketch.width s / 75).
Proof.
  intros Hn. simpl. rewrite Hn. field.
Qed.

(** X20. After setup() or windowResized() (both end in
    recalculateParameters, with 75 columns and rows), every circle that
    draw() draws has the diameter width / 75 and its centre at
    ((i + 1/2) * diameter, (j + 1/2) * diameter) for a column i and a row
    j below 75; it lies within the canvas square, and its centre lies
    within the disc of radius width / 2 around the centre of the canvas:
    the cells outside that disc are skipped. *)
Theorem circles_lie_in_the_disc (noise : R -> R -> R -> R) (mouseX mouseY : R)
    (s0 : Sketch.t) (c : Sketch.Circle) :
  Sketch.n s0 = 75%Z ->
  0 < Sketch.width s0 ->
  In c (snd (Sketch.draw noise mouseX mouseY (Sketch.recalculateParameters s0))) ->
  let w := Sketch.width s0 in
  let d := w / 75 in
  Sketch.circle_d c = d /\
  (exists i j,
     (0 <= i < 75)%Z /\ (0 <= j < 75)%Z /\
     Sketch.circle_x c = (IZR i + 1 / 2) * d /\
     Sketch.circle_y c = (IZR j + 1 / 2) * d) /\
  0 <= Sketch.circle_x c - d / 2 /\ Sketch.circle_x c + d / 2 <= w /\
  0 <= Sketch.circle_y c - d / 2 /\ Sketch.circle_y c + d / 2 <= w /\
  (Sketch.circle_x c - w / 2) * (Sketch.circle_x c - w / 2)
  + (Sketch.circle_y c - w / 2) * (Sketch.circle_y c - w / 2)
  <= w / 2 * (w / 2).
Proof.
  intros Hn Hw Hc w d.
  apply draw_circles in Hc. destruct Hc as (i & j & Hi & Hj & Hcell).
  cbn [Sketch.recalculateParameters Sketch.n] in Hi, Hj. rewrite Hn in Hi, Hj.
  unfold Sketch.cell in Hcell.
  cbn [Sketch.draw fst Sketch.recalculateParameters Sketch.diameter Sketch.r
       Sketch.centreX Sketch.centreY Sketch.width Sketch.n] in Hcell.
  rewrite Hn in Hcell.
  destruct (js_gt _ _) eqn:Hout; [discriminate |].
  injection Hcell as <-. cbn [Sketch.circle_x Sketch.circle_y Sketch.circle_d].
  unfold js_gt, js_lt in Hout.
  destruct (Rlt_dec _ _) as [| Hin]; [discriminate |]. apply Rnot_lt_le in Hin.
  assert (0 <= IZR i <= 74) as Hi'.
  { split; [apply (IZR_le 0) | apply (IZR_le i 74)]; lia. }
  assert (0 <= IZR j <= 74) as Hj'.
  { split; [apply (IZR_le 0) | apply (IZR_le j 74)]; lia. }
  subst d w. set (w := Sketch.width s0) in *. set (d := w / 75) in *.
  assert (0 < d) as Hd by (unfold d; lra).
  assert (w = 75 * d) as Hwd by (unfold d; field).
  split; [reflexivity |].
  split.
  { exists i, j. repeat split; try lia; lra. }
  replace (IZR i * d + d / 2 - w / 2 + w / 2) with ((IZR i + 1 / 2) * d) by lra.
  replace (IZR j * d + d / 2 - w / 2 + w / 2) with ((IZR j + 1 / 2) * d) by lra.
  repeat split; nra.
Qed.

Lemma cell_skipped_iff_outside (noise : R -> R -> R -> R) (mouseY : R) (s : Sketch.t)
    (i j : Z) :
  Sketch.cell noise mouseY s i j = None <-> Sketch.outside s i j = true.
Proof.
  unfold Sketch.cell, Sketch.outside.
  destruct (js_gt _ _); split; intros H; try reflexivity; discriminate.
Qed.

Lemma outside_recalculated (s0 : Sketch.t) (i j : Z) :
  Sketch.n s0 = 75%Z ->
  Sketch.outside (Sketch.recalculateParameters s0) i j
  = js_gt (((IZR i - 37) * (Sketch.width s0 / 75)) * ((IZR i - 37) * (Sketch.width s0 / 75))
           + ((IZR j - 37) * (Sketch.width s0 / 75)) * ((IZR j - 37) * (Sketch.width s0 / 75)))
          (Sketch.width s0 / 2 * (Sketch.width s0 / 2)).
Proof.
  intros Hn. unfold Sketch.outside.
  cbn [Sketch.recalculateParameters Sketch.diameter Sketch.r Sketch.centreX
       Sketch.centreY Sketch.width].
  rewrite Hn. f_equal. f_equal.
  - replace (IZR i * (Sketch.width s0 / 75) + Sketch.width s0 / 75 / 2
             - Sketch.width s0 / 2)
      with ((IZR i - 37) * (Sketch.width s0 / 75)) by field.
    reflexivity.
  - replace (IZR j * (Sketch.width s0 / 75) + Sketch.width s0 / 75 / 2
             - Sketch.width s0 / 2)
      with ((IZR j - 37) * (Sketch.width s0 / 75)) by field.
    reflexivity.
Qed.

(** X21. After setup() or windowResized(), the set of cells that draw()
    skips is symmetric under the reflection of the columns (i to 74 - i),
    of the rows (j to 74 - j) and under the exchange of column and row;
    the cell in the middle (37, 37) is never skipped, and on a canvas of
    positive width the four corner cells always are. *)
Theorem sphere_mask_is_symmetric (s0 : Sketch.t) (i j : Z) :
  Sketch.n s0 = 75%Z ->
  let s := Sketch.recalculateParameters s0 in
  Sketch.outside s (74 - i) j = Sketch.outside s i j /\
  Sketch.outside s i (74 - j) = Sketch.outside s i j /\
  Sketch.outside s j i = Sketch.outside s i j /\
  Sketch.outside s 37 37 = false /\
  (0 < Sketch.width s0 ->
   Sketch.outside s 0 0 = true /\ Sketch.outside s 74 0 = true /\
   Sketch.outside s 0 74 = true /\ Sketch.outside s 74 74 = true).
Proof.
  intros Hn s. unfold s. rewrite !outside_recalculated by exact Hn.
  rewrite !minus_IZR.
  set (d := Sketch.width s0 / 75).
  assert (Sketch.width s0 = 75 * d) as Hw by (unfold d; field).
  rewrite Hw. repeat split.
  - f_equal. ring.
  - f_equal. ring.
  - f_equal. ring.
  - apply js_gt_false. nra.
  - apply js_gt_true. nra.
  - apply js_gt_true. nra.
  - apply js_gt_true. nra.
  - apply js_gt_true. nra.
Qed.

Lemma sphere_mask_is_symmetric_witness :
  let s := Sketch.recalculateParameters (Sketch.setup 1000 800) in
  Sketch.outside s (74 - 10) 3 = Sketch.outside s 10 3 /\
  Sketch.outside s 10 (74 - 3) = Sketch.outside s 10 3 /\
  Sketch.outside s 3 10 = Sketch.outside s 10 3 /\
  Sketch.outside s 37 37 = false /\
  (0 < Sketch.width (Sketch.setup 1000 800) ->
   Sketch.outside s 0 0 = true /\ Sketch.outside s 74 0 = true /\
   Sketch.outside s 0 74 = true /\ Sketch.outside s 74 74 = true).
Proof.
  apply (sphere_mask_is_symmetric (Sketch.setup 1000 800) 10 3). reflexivity.
Defined.

Lemma circles_lie_in_the_disc_witness :
  exists c,
    In c (snd (Sketch.draw (fun _ _ _ => 0) 190 0
                 (Sketch.recalculateParameters (Sketch.setup 1000 800)))) /\
    let w := Sketch.width (Sketch.setup 1000 800) in
    let d := w / 75 in
    Sketch.circle_d c = d /\
    (exists i j,
       (0 <= i < 75)%Z /\ (0 <= j < 75)%Z /\
       Sketch.circle_x c = (IZR i + 1 / 2) * d /\
       Sketch.circle_y c = (IZR j + 1 / 2) * d) /\
    0 <= Sketch.circle_x c - d / 2 /\ Sketch.circle_x c + d / 2 <= w /\
    0 <= Sketch.circle_y c - d / 2 /\ Sketch.circle_y c + d / 2 <= w /\
    (Sketch.circle_x c - w / 2) * (Sketch.circle_x c - w / 2)
    + (Sketch.circle_y c - w / 2) * (Sketch.circle_y c - w / 2)
    <= w / 2 * (w / 2).
Proof.
  assert (exists c,
            In c (snd (Sketch.draw (fun _ _ _ => 0) 190 0
                         (Sketch.recalculateParameters (Sketch.setup 1000 800)))))
    as [c Hc].
  { destruct (Sketch.cell (fun _ _ _ => 0) 0
                (fst (Sketch.draw (fun _ _ _ => 0) 190 0
                        (Sketch.recalculateParameters (Sketch.setup 1000 800))))
                37 37) as [c |] eqn:Hcell.
    - exists c. apply draw_circles. exists 37%Z, 37%Z.
      repeat split; try (simpl; lia). exact Hcell.
    - apply cell_skipped_iff_outside in Hcell.
      replace (fst (Sketch.draw (fun _ _ _ => 0) 190 0
                      (Sketch.recalculateParameters (Sketch.setup 1000 800))))
        with (Sketch.recalculateParameters
                (fst (Sketch.draw (fun _ _ _ => 0) 190 0 (Sketch.setup 1000 800))))
        in Hcell by reflexivity.
      rewrite outside_recalculated in Hcell by reflexivity.
      rewrite js_gt_false in Hcell; [discriminate |]. nra. }
  exists c. split; [exact Hc |].
  apply (circles_lie_in_the_disc (fun _ _ _ => 0) 190 0 (Sketch.setup 1000 800) c);
    [reflexivity | | exact Hc].
  simpl. unfold Rmin. destruct (Rle_dec 1000 800); lra.
Defined.

(** ** The brightness of the sphere *)

Lemma threshold_cases (v : R) : Sketch.threshold v = 0 \/ Sketch.threshold v = 1.
Proof. unfold Sketch.threshold. destruct (js_gt v 0.5); [right | left]; reflexivity. Qed.

Lemma js_pow_exponent_0 (x : R) : js_pow x 0 = 1.
Proof. unfold js_pow. destruct (Req_dec_T 0 0) as [_ | H]; [reflexivity | contradiction]. Qed.

Lemma js_pow_unit (x e : R) : 0 <= x <= 1 -> 0 <= e -> 0 <= js_pow x e <= 1.
Proof.
  intros Hx He. unfold js_pow.
  destruct (Req_dec_T e 0); [lra |].
  destruct (Req_dec_T x 0); [lra |].
  split; [left; apply exp_pos |].
  replace 1 with (Rpower 1 e).
  - apply Rle_Rpower_l; lra.
  - unfold Rpower. now rewrite ln_1, Rmult_0_r, exp_0.
Qed.

Lemma js_pow_base_0 (e : R) : e <> 0 -> js_pow 0 e = 0.
Proof.
  intros He. unfold js_pow.
  destruct (Req_dec_T e 0); [contradiction |].
  destruct (Req_dec_T 0 0); [reflexivity | contradiction].
Qed.

Lemma js_pow_base_1 (e : R) : js_pow 1 e = 1.
Proof.
  unfold js_pow. destruct (Req_dec_T e 0); [reflexivity |].
  destruct (Req_dec_T 1 0); [lra |].
  unfold Rpower. now rewrite ln_1, Rmult_0_r, exp_0.
Qed.

(** X22. While the pointer is over the canvas vertically
    (0 <= mouseY <= height), every circle is filled with a brightness
    between 0 and 1.  The contrast exponent is 5 at the top edge and 0 at
    the bottom edge, where every circle is black whatever the noise.  A
    cell where all three noise layers exceed 0.5 is black at every pointer
    height, and a cell where none does is white except at the bottom
    edge. *)
Theorem sphere_brightness (noise : R -> R -> R -> R) (mouseY : R) (s : Sketch.t)
    (i j : Z) (c : Sketch.Circle) :
  0 < Sketch.height s ->
  0 <= mouseY <= Sketch.height s ->
  Sketch.cell noise mouseY s i j = Some c ->
  let azimuth := p5_map (IZR i) 0 (IZR (Sketch.n s - 1)) 0 PI + Sketch.azimuthOffset s in
  let inclination := p5_map (IZR j) 0 (IZR (Sketch.n s - 1)) 0 PI in
  let nx := Sketch.radius s * sin inclination * cos azimuth in
  let ny := Sketch.radius s * sin inclination * sin azimuth in
  let nz := Sketch.radius s * cos inclination in
  let layer1 := noise (nx + 10) (ny + 10) (nz + 10) in
  let layer2 := noise (nx / 2 + 10) (ny / 2 + 10) (nz / 2 + 10) in
  let layer3 := noise (nx * 2 + 10) (ny * 2 + 10) (nz * 2 + 10) in
  0 <= Sketch.brightness c <= 1 /\
  p5_map mouseY 0 (Sketch.height s) 5 0 = 5 * (1 - mouseY / Sketch.height s) /\
  (mouseY = Sketch.height s -> Sketch.brightness c = 0) /\
  (0.5 < layer1 -> 0.5 < layer2 -> 0.5 < layer3 -> Sketch.brightness c = 0) /\
  (layer1 <= 0.5 -> layer2 <= 0.5 -> layer3 <= 0.5 -> mouseY < Sketch.height s ->
   Sketch.brightness c = 1).
Proof.
  intros Hh Hm Hcell azimuth inclination nx ny nz layer1 layer2 layer3.
  unfold Sketch.cell in Hcell.
  fold azimuth inclination in Hcell. fold nx ny nz in Hcell.
  fold layer1 layer2 layer3 in Hcell.
  destruct (js_gt _ _); [discriminate |].
  injection Hcell as <-. cbn [Sketch.brightness].
  assert (p5_map mouseY 0 (Sketch.height s) 5 0 = 5 * (1 - mouseY / Sketch.height s))
    as Hexp by (unfold p5_map; field; lra).
  assert (mouseY / Sketch.height s * Sketch.height s = mouseY) as Hmul by (field; lra).
  set (ratio := mouseY / Sketch.height s) in *.
  assert (0 <= ratio <= 1) as Hratio.
  { split; apply Rmult_le_reg_r with (Sketch.height s); lra. }
  rewrite Hexp.
  set (mean := (Sketch.threshold layer1 + Sketch.threshold layer2
                + Sketch.threshold layer3) / 3).
  assert (0 <= mean <= 1) as Hmean.
  { unfold mean.
    destruct (threshold_cases layer1) as [-> | ->];
      destruct (threshold_cases layer2) as [-> | ->];
      destruct (threshold_cases layer3) as [-> | ->]; lra. }
  pose proof (js_pow_unit mean (5 * (1 - ratio)) Hmean ltac:(lra)) as Hpow.
  split; [lra |]. split; [reflexivity |].
  split; [| split].
  - intros Hbottom. assert (ratio = 1) as ->.
    { apply Rmult_eq_reg_r with (Sketch.height s); lra. }
    replace (5 * (1 - 1)) with 0 by lra. rewrite js_pow_exponent_0. lra.
  - intros H1 H2 H3. unfold mean, Sketch.threshold.
    rewrite !js_gt_true by assumption.
    replace ((1 + 1 + 1) / 3) with 1 by lra. rewrite js_pow_base_1. lra.
  - intros H1 H2 H3 Habove. unfold mean, Sketch.threshold.
    rewrite !js_gt_false by assumption.
    replace ((0 + 0 + 0) / 3) with 0 by lra.
    rewrite js_pow_base_0; [lra |].
    assert (ratio < 1); [| lra].
    apply Rmult_lt_reg_r with (Sketch.height s); lra.
Qed.

Lemma sphere_brightness_witness :
  exists c,
    Sketch.cell (fun _ _ _ => 0) 380 (Sketch.setup 1000 800) 37 37 = Some c /\
    0 <= Sketch.brightness c <= 1 /\
    Sketch.brightness c = 1.
Proof.
  assert (Rmin 1000 800 = 800) as Hmin.
  { unfold Rmin. destruct (Rle_dec 1000 800); lra. }
  destruct (Sketch.cell (fun _ _ _ => 0) 380 (Sketch.setup 1000 800) 37 37)
    as [c |] eqn:Hcell.
  - exists c. split; [reflexivity |].
    destruct (sphere_brightness (fun _ _ _ => 0) 380 (Sketch.setup 1000 800) 37 37 c)
      as (Hrange & _ & _ & _ & Hwhite);
      try exact Hcell; try (simpl; rewrite Hmin; lra).
    split; [exact Hrange |].
    apply Hwhite; try lra. simpl. rewrite Hmin. lra.
  - apply cell_skipped_iff_outside in Hcell. unfold Sketch.setup in Hcell.
    rewrite outside_recalculated in Hcell by reflexivity.
    rewrite js_gt_false in Hcell; [discriminate |]. nra.
Defined.

(** ** The constructor's ranges over the life of the field *)

Lemma build_particles_as_constructed (rnd : nat -> R) (cells : list (Z * Z)) :
  unit_source rnd ->
  forall drawn, Forall as_constructed (build_particles rnd drawn cells).
Proof.
  intros Hrnd. induction cells as [| c rest IH]; intros drawn; simpl; constructor;
    [| apply IH].
  pose proof (Hrnd drawn). pose proof (Hrnd (S drawn)).
  pose proof (Hrnd (S (S drawn))). pose proof (Hrnd (S (S (S drawn)))).
  unfold as_constructed, Particle.constructor. simpl. repeat split; lra.
Qed.

Lemma update_as_constructed (mX mY : option R) (time : R) (exploding : bool)
    (start duration fade : R) (p : Particle.t) :
  as_constructed p ->
  as_constructed (Particle.update mX mY time exploding start duration fade p).
Proof.
  unfold as_constructed, Particle.update.
  destruct exploding; [destruct (js_gt _ _) | destruct (js_lt _ _)]; trivial.
Qed.

Lemma explode_each_as_constructed (rnd : nat -> R) (ps : list Particle.t) :
  Forall as_constructed ps ->
  forall drawn, Forall as_constructed (CreditLink.explode_each rnd drawn ps).
Proof.
  induction 1 as [| p rest Hp _ IH]; intros drawn; simpl; constructor;
    [exact Hp | apply IH].
Qed.

Lemma deliver_as_constructed (host : Host) (rnd : nat -> R) (ev : Event)
    (st : CreditLink.t) :
  unit_source rnd ->
  Forall as_constructed (CreditLink.particles st) ->
  Forall as_constructed (CreditLink.particles (fst (deliver host rnd ev st))).
Proof.
  intros Hrnd Hall. destruct ev as [| e | e | e |].
  - cbn [deliver fst]. unfold CreditLink.handleResize.
    destruct (createParticles_builds host rnd (CreditLink.resizeCanvas host st))
      as [cells ->].
    now apply build_particles_as_constructed.
  - destruct e; handler_cases; exact Hall.
  - handler_cases; [now apply explode_each_as_constructed | exact Hall].
  - handler_cases; try exact Hall; now apply explode_each_as_constructed.
  - cbn [deliver fst CreditLink.animate CreditLink.particles CreditLink.set_particles].
    apply Forall_map. eapply Forall_impl; [| exact Hall].
    intros p. apply update_as_constructed.
Qed.

(** X23. If every random source gives values in [0,1), then in a field
    made by the constructor and driven by any sequence of events every
    particle has, at all times, the size 1.25, a density in [1,11), noise
    amplitudes in [-0.25, 0.25) on both axes and a noise offset in
    [0,1000): the constructor draws them in these ranges and no method
    writes them. *)
Theorem particles_stay_as_constructed (c : Canvas.t) (url : option string)
    (occs : list Occurrence) :
  Forall (fun o => unit_source (occ_rnd o)) occs ->
  Forall as_constructed
    (CreditLink.particles (fst (run occs (CreditLink.constructor c url)))).
Proof.
  intros Hsources.
  assert (forall st,
            Forall as_constructed (CreditLink.particles st) ->
            Forall as_constructed (CreditLink.particles (fst (run occs st)))) as Hrun.
  { induction Hsources as [| o rest Ho _ IH]; intros st Hst; [exact Hst |].
    cbn [run fst]. apply IH. now apply deliver_as_constructed. }
  apply Hrun. constructor.
Qed.

Lemma particles_stay_as_constructed_witness :
  Forall as_constructed
    (CreditLink.particles
       (fst (run [mkOccurrence (scenario_host 0) scenario_rnd ev_resize;
                  mkOccurrence (scenario_host 16) scenario_rnd ev_frame;
                  mkOccurrence (scenario_host 20) scenario_rnd (ev_click click_inside);
                  mkOccurrence (scenario_host 32) scenario_rnd ev_frame]
                 (CreditLink.constructor (Canvas.mk 300 150 DefaultFont) None)))).
Proof.
  apply (particles_stay_as_constructed (Canvas.mk 300 150 DefaultFont) None
           [mkOccurrence (scenario_host 0) scenario_rnd ev_resize;
            mkOccurrence (scenario_host 16) scenario_rnd ev_frame;
            mkOccurrence (scenario_host 20) scenario_rnd (ev_click click_inside);
            mkOccurrence (scenario_host 32) scenario_rnd ev_frame]).
  repeat (apply Forall_cons; [intros i; unfold scenario_rnd; simpl; lra |]).
  apply Forall_nil.
Defined.
